(** * maca-for-chrome: the auto-upload queue coordinator

    A shallow embedding of the per-tab auto-upload pipeline of the
    extension's service worker (background.js) and of the upload-signal
    tracker of its content script (context_helper.js), with the properties
    of the specification proved or refuted on it.

    JavaScript runs the service worker on one event loop.  An [async]
    function runs without interruption up to its next [await]; what it
    awaits is either settled by the outside world (a message answered by
    the tab, a storage read, a timer, the network) or by a promise of the
    program itself (the job promise of the per-tab chain).  The model
    follows that: a state of one tab, a list of handler activations, each
    with the point where it is suspended, a queue of microtasks for the
    reactions of the program's own promises, and a step function taking
    one event of the outside world (or one microtask) at a time. *)

From Stdlib Require Import ZArith Lia.
From stdpp Require Import base option list gmap strings.

Local Open Scope Z_scope.

(** ** JavaScript helpers *)

Module Js.

(** [!s] for a string: only the empty string is falsy. *)
Definition falsy (s : string) : bool := bool_decide (s = EmptyString).

(** [a || b] on strings. *)
Definition or_else (a b : string) : string := if falsy a then b else a.

(** [x | 0]: conversion to a signed 32-bit integer, of an integral number. *)
Definition toInt32 (n : Z) : Z := (n + 2 ^ 31) mod 2 ^ 32 - 2 ^ 31.

(** [l.slice(0, k)] for an integral [k]: a negative [k] counts from the end. *)
Definition slice0 {A} (l : list A) (k : Z) : list A :=
  if k <? 0 then take (length l - Z.to_nat (- k)) l else take (Z.to_nat k) l.

(** [l.indexOf(x)], [None] standing for -1. *)
Fixpoint indexOf (x : string) (l : list string) : option nat :=
  match l with
  | [] => None
  | y :: l' => if bool_decide (y = x) then Some 0%nat else S <$> indexOf x l'
  end.

(** [l.includes(x)]. *)
Definition includes (x : string) (l : list string) : bool :=
  bool_decide (is_Some (indexOf x l)).

(** [l.splice(i, 1)]: the list without its element of index [i]. *)
Definition splice1 {A} (i : nat) (l : list A) : list A := delete i l.

(** The test of the regular expression [/\/wp-admin\//]: the text occurs
    somewhere in the string. *)
Fixpoint prefixb (p s : string) : bool :=
  match p, s with
  | EmptyString, _ => true
  | String a p', String b s' => bool_decide (a = b) && prefixb p' s'
  | String _ _, EmptyString => false
  end.

Fixpoint occurs (p s : string) : bool :=
  prefixb p s ||
  match s with
  | EmptyString => false
  | String _ s' => occurs p s'
  end.

End Js.

(** [isWpAdminUrl(u)]. *)
Definition isWpAdminUrl (u : string) : bool := Js.occurs "/wp-admin/" u.

(** ** The Field-Applier retry wrapper (background.js, [autoApplyAttachmentWithRetry]) *)

Module Retry.

(** The [applied] member of the content script's answer to
    MACA_APPLY_TO_ATTACHMENT: which fields were set. *)
Record Applied := { alt : bool; title : bool; leyenda : bool }.

(** What [await chrome.tabs.sendMessage(tabId, payload)] gives on one attempt:
    it throws, or it returns a response; [lastRes?.applied] is [None] when
    the response is undefined or has no such member. *)
Inductive TabReply :=
| ReplyThrow (msg : string)
| Reply (applied : option Applied).

(** The local [lastRes]. *)
Inductive LastRes :=
| LNull
| LResp (applied : option Applied)
| LErr (msg : string).



(** [const applied = lastRes?.applied || {};
     const ok = !!(applied.alt || applied.title || applied.leyenda);] *)
Definition appliedOk (a : option Applied) : bool :=
  match a with
  | Some a => alt a || title a || leyenda a
  | None => false
  end.

(** The body of the [try] of one iteration: the new [lastRes] and [ok]. *)
Definition attempt (r : TabReply) : LastRes * bool :=
  match r with
  | ReplyThrow msg => (LErr msg, false)
  | Reply a => (LResp a, appliedOk a)
  end.

Definition replyOk (r : TabReply) : bool := snd (attempt r).

(** [if (i < attempts - 1) await new Promise((r) => setTimeout(r, delayMs));] *)
Definition sleepsAfter (attempts i : nat) : bool := bool_decide (i < attempts - 1)%nat.





(** The job's use of the result:
    [if (!applied.ok) throw new Error("No se pudo aplicar ...")]. *)
Definition applyErrorMsg : string :=
  "No se pudo aplicar el resultado en los campos de Medios.".


End Retry.

(** ** The upload-signal tracker (context_helper.js)

    The content script in the revision that carries the tracker: the file
    after the last separator of src/README.md ([AUTO_UPLOAD] with
    [uploadSignalWindowMs], [markUploadSignal], [countRecentUploadMarked]).
    [Date.now()] is the argument [now] of each function. *)

Module Tracker.

Record Meta := {
  firstSeenAt : Z;
  sawUploading : bool;
  triggered : bool;
  retries : Z;
  initialScan : bool
}.

Record AutoUpload := {
  startedAt : Z;
  minAgeMs : Z;
  uploadSignalWindowMs : Z;
  uploadSessionStartAt : Z;
  lastUploadingSignalAt : Z;
  byId : gmap string Meta;
  (* AUTO_UPLOAD_SETTINGS.autoAnalyzeOnSelectMedia and LAST_USER_SELECT_AT *)
  autoAnalyzeOnSelectMedia : bool;
  lastUserSelectAt : Z
}.

(** The state when the content script is loaded at time [t0]. *)
Definition boot (t0 : Z) : AutoUpload := {|
  startedAt := t0;
  minAgeMs := 1000;
  uploadSignalWindowMs := 45000;
  uploadSessionStartAt := 0;
  lastUploadingSignalAt := 0;
  byId := ∅;
  autoAnalyzeOnSelectMedia := false;
  lastUserSelectAt := 0
|}.

Definition set_signal (start last : Z) (u : AutoUpload) : AutoUpload := {|
  startedAt := startedAt u;
  minAgeMs := minAgeMs u;
  uploadSignalWindowMs := uploadSignalWindowMs u;
  uploadSessionStartAt := start;
  lastUploadingSignalAt := last;
  byId := byId u;
  autoAnalyzeOnSelectMedia := autoAnalyzeOnSelectMedia u;
  lastUserSelectAt := lastUserSelectAt u
|}.

Definition set_byId (m : gmap string Meta) (u : AutoUpload) : AutoUpload := {|
  startedAt := startedAt u;
  minAgeMs := minAgeMs u;
  uploadSignalWindowMs := uploadSignalWindowMs u;
  uploadSessionStartAt := uploadSessionStartAt u;
  lastUploadingSignalAt := lastUploadingSignalAt u;
  byId := m;
  autoAnalyzeOnSelectMedia := autoAnalyzeOnSelectMedia u;
  lastUserSelectAt := lastUserSelectAt u
|}.

(** [hasRecentUploadSignal()]. *)
Definition hasRecentUploadSignal (now : Z) (u : AutoUpload) : bool :=
  now - lastUploadingSignalAt u <=? uploadSignalWindowMs u.

(** [markUploadSignal()]. *)
Definition markUploadSignal (now : Z) (u : AutoUpload) : AutoUpload :=
  let wasRecent := now - lastUploadingSignalAt u <=? uploadSignalWindowMs u in
  set_signal (if wasRecent then uploadSessionStartAt u else now) now u.

(** [inUploadSession]: [hasRecentUploadSignal() && uploadSessionStartAt > 0]. *)
Definition inUploadSession (now : Z) (u : AutoUpload) : bool :=
  hasRecentUploadSignal now u && (0 <? uploadSessionStartAt u).

(** One turn of the loop of [countRecentUploadMarked]: does [meta] count? *)
Definition countsAsUploadMarked (now windowMs : Z) (u : AutoUpload) (meta : Meta) : bool :=
  let seenAt := firstSeenAt meta in
  if seenAt =? 0 then false
  else if negb (now - seenAt <=? windowMs) then false
  else
    let inferredBySession :=
      inUploadSession now u && negb (initialScan meta) &&
      (uploadSessionStartAt u - 1000 <=? seenAt) in
    if negb (sawUploading meta) && negb inferredBySession then false
    else now - firstSeenAt meta <=? windowMs.

(** [countRecentUploadMarked()], with the default window. *)
Definition countRecentUploadMarked (now : Z) (u : AutoUpload) : nat :=
  length (filter (λ kv, countsAsUploadMarked now (uploadSignalWindowMs u) u kv.2 = true)
                 (map_to_list (byId u))).

(** The test [/\bupload/i] on a class attribute. *)
Definition isWordChar (c : Ascii.ascii) : bool :=
  let n := Ascii.nat_of_ascii c in
  ((48 <=? n) && (n <=? 57) || (65 <=? n) && (n <=? 90) ||
   (97 <=? n) && (n <=? 122) || (n =? 95))%nat.

Definition lowerChar (c : Ascii.ascii) : Ascii.ascii :=
  let n := Ascii.nat_of_ascii c in
  if ((65 <=? n) && (n <=? 90))%nat then Ascii.ascii_of_nat (n + 32) else c.

Fixpoint prefixCI (p s : string) : bool :=
  match p, s with
  | EmptyString, _ => true
  | String a p', String b s' => bool_decide (lowerChar a = lowerChar b) && prefixCI p' s'
  | String _ _, EmptyString => false
  end.

Fixpoint scanUpload (prevWord : bool) (s : string) : bool :=
  match s with
  | EmptyString => false
  | String c s' => negb prevWord && prefixCI "upload" s || scanUpload (isWordChar c) s'
  end.

Definition classSaysUpload (cls : string) : bool := scanUpload false cls.

(** What the tracker reads of an attachment element. *)
Record El := { data_id : string; className : string; isSelected : bool }.

(** [noteAttachmentMeta(el, { initial })]: the id of the entry, [None] for
    an element without id. *)
Definition noteAttachmentMeta (now : Z) (el : El) (initial : bool) (u : AutoUpload)
    : option string * AutoUpload :=
  let id := data_id el in
  if Js.falsy id then (None, u)
  else
    let meta :=
      match byId u !! id with
      | None => {| firstSeenAt := now; sawUploading := false; triggered := false;
                   retries := 0; initialScan := initial |}
      | Some m =>
          (* [else if (initial && meta.initialScan !== false) meta.initialScan = true] *)
          if initial && initialScan m then
            {| firstSeenAt := firstSeenAt m; sawUploading := sawUploading m;
               triggered := triggered m; retries := retries m; initialScan := true |}
          else m
      end in
    if classSaysUpload (className el) then
      let meta' := {| firstSeenAt := firstSeenAt meta; sawUploading := true;
                      triggered := triggered meta; retries := retries meta;
                      initialScan := initialScan meta |} in
      (Some id, markUploadSignal now (set_byId (<[id := meta']> (byId u)) u))
    else (Some id, set_byId (<[id := meta]> (byId u)) u).

(** The gates of [maybeAutoProcessUploadedAttachment], on the state left by
    its call of [noteAttachmentMeta]. *)
Definition looksLikeNewAfterBoot (u : AutoUpload) (meta : Meta) : bool :=
  negb (initialScan meta) && (startedAt u + 3000 <? firstSeenAt meta).

Definition allowBatchUploadFlow (now : Z) (u : AutoUpload) (meta : Meta) : bool :=
  let isMultiUpload := bool_decide (2 ≤ countRecentUploadMarked now u)%nat in
  isMultiUpload && inUploadSession now u &&
  (sawUploading meta || looksLikeNewAfterBoot u meta).

Definition allowSelectFeature (now : Z) (u : AutoUpload) (el : El) : bool :=
  let userJustSelected := now - lastUserSelectAt u <? 3000 in
  autoAnalyzeOnSelectMedia u && isSelected el && userJustSelected.

Inductive Decision :=
| Skip
| Process (id imageUrl : string).

(** [maybeAutoProcessUploadedAttachment(el)]; [cand] is the image URL that the
    DOM inspection finds for the element, if any. *)
Definition maybeAutoProcessUploadedAttachment (now : Z) (el : El) (cand : option string)
    (u : AutoUpload) : Decision * AutoUpload :=
  match noteAttachmentMeta now el false u with
  | (None, u1) => (Skip, u1)
  | (Some id, u1) =>
      match byId u1 !! id with
      | None => (Skip, u1)
      | Some meta =>
          if triggered meta then (Skip, u1)
          else
            if negb (allowBatchUploadFlow now u1 meta || allowSelectFeature now u1 el)
            then (Skip, u1)
            else if now - firstSeenAt meta <? minAgeMs u1 then (Skip, u1)
            else
              match cand with
              | None => (Skip, u1)
              | Some url =>
                  if Js.falsy url then (Skip, u1)
                  else
                    let meta' := {| firstSeenAt := firstSeenAt meta;
                                    sawUploading := sawUploading meta;
                                    triggered := true; retries := retries meta;
                                    initialScan := initialScan meta |} in
                    (Process id url, set_byId (<[id := meta']> (byId u1)) u1)
              end
      end
  end.

End Tracker.

(** ** The per-tab queue coordinator (background.js) *)

Module Coordinator.

(** *** Data *)

(** The configuration members the handler reads.  The fuse switch is read
    as [cfg.autoUploadSafetyFuseEnabled !== false] ([None]: the member is
    absent); the fuse limit is [Number(cfg.autoUploadSafetyFuseMaxQueued)]
    when that is finite ([None]: it is not), and integral, as the options
    page stores it. *)
Record Cfg := {
  wpAutoAnalyzeOnUpload : bool;
  autoUploadSafetyFuseEnabled : option bool;
  autoUploadSafetyFuseMaxQueued : option Z
}.

Definition fuseEnabled (cfg : Cfg) : bool :=
  match autoUploadSafetyFuseEnabled cfg with
  | Some false => false
  | _ => true
  end.

Definition fuseMax (cfg : Cfg) : Z :=
  match autoUploadSafetyFuseMaxQueued cfg with
  | Some n => Z.max 5 n
  | None => 24
  end.

(** DEFAULT_SYNC_CFG, with the feature switched on. *)
Definition defaultCfg : Cfg := {|
  wpAutoAnalyzeOnUpload := true;
  autoUploadSafetyFuseEnabled := Some true;
  autoUploadSafetyFuseMaxQueued := Some 24
|}.

(** One entry of [__autoUploadStatsByTab]: an object on the heap, which the
    handler activations of the tab share by reference. *)
Record Stats := {
  queued : Z;
  done : Z;
  ok : Z;
  error : Z;
  startedAt : Z;
  lastAt : Z
}.

Definition newStats (now : Z) : Stats :=
  {| queued := 0; done := 0; ok := 0; error := 0; startedAt := now; lastAt := now |}.

(** The payload a caller hands to [sendAutoUploadProgress], and the message
    that goes to the tab. *)
Record Payload := {
  phase : string;
  attachmentId : option string;
  p_queued : Z;
  p_done : Z;
  p_ok : Z;
  p_error : Z;
  p_fuseMax : option Z;
  errorMessage : option string
}.

Record ProgressMsg := {
  queue : list string;
  paused : bool;
  payload : Payload
}.

(** The answers of the MACA_AUTO_PROCESS_ATTACHMENT handler:
    [{ ok, skipped: true, reason, fuseMax? }], [{ ok: true, attachmentId }]
    and [{ ok: false, error }]. *)
Inductive Response :=
| Skipped (isOk : bool) (reason : string) (fuseMaxOf : option Z)
| Accepted (id : string)
| Failed (err : string).

(** What the coordinator does to the outside world. *)
Inductive Effect :=
| Progress (m : ProgressMsg)
| Analyze (act : nat) (id : string)
| Apply (act : nat) (id : string) (attempt : nat)
| Deselect (act : nat) (id : string)
| Respond (act : nat) (r : Response).

(** A promise of the job chain. *)
Inductive PromState :=
| Pending
| Fulfilled
| Rejected (msg : string).

Definition settled (p : PromState) : bool :=
  match p with Pending => false | _ => true end.

(** Where an activation of the MACA_AUTO_PROCESS_ATTACHMENT handler is
    suspended.  While its job runs the handler itself waits at [await
    enqueueAutoUploadJob(...)], so one point per activation is enough: [H..]
    are points of the handler, [J..] points of the job. *)
Inductive PC :=
| HCfg                                  (* await getConfigCached() *)
| HFuseProgress (fm : Z)                (* await sendAutoUploadProgress: safety_stop *)
| HFuseLog (fm : Z)                     (* await addDebugLog: auto_upload_safety_fuse *)
| HQueuedProgress                       (* await sendAutoUploadProgress: queued *)
| JWait                                 (* the job is chained and has not started *)
| JPauseSleep (due : Z)                 (* waitIfAutoUploadPaused: setTimeout 150 *)
| JLogStart                             (* await addDebugLog: auto_upload_start *)
| JProcessingProgress                   (* await sendAutoUploadProgress: processing *)
| JAnalysis                             (* await analyzeImage(...) *)
| JApplySend (i : nat)                  (* retry wrapper: await sendMessage, attempt i *)
| JApplySleep (i : nat) (due : Z)       (* retry wrapper: setTimeout delayMs *)
| JDeselect                             (* await sendMessage: MACA_DESELECT_ATTACHMENT *)
| JDoneItemProgress                     (* await sendAutoUploadProgress: done_item *)
| JDoneAllProgress                      (* await sendAutoUploadProgress: done_all *)
| JLogDone                              (* await addDebugLog: auto_upload_done *)
| JSettled (r : option string)          (* the job promise settled; the handler's
                                           continuation is a queued microtask *)
| HCancelledItemProgress                (* catch: await progress cancelled_item *)
| HCancelledProgress                    (* catch: await progress cancelled *)
| HErrorItemProgress (msg : string)     (* catch: await progress error_item *)
| HErrDoneAllProgress (msg : string)    (* catch: await progress done_all *)
| HErrCfg (msg : string)                (* catch: await getConfigCached() *)
| HErrLog (msg : string)                (* catch: await addDebugLog *)
| HErrMetrics (msg : string)            (* catch: await addMetricsSample *)
| Finished.

#[global] Instance PC_eq_dec : EqDecision PC.
Proof. solve_decision. Defined.

(** One activation of the handler: its constants and locals.  [a_st] is the
    address of the stats object bound to [st] (the one of the [try] block,
    captured by the job closure, then the one of the [catch] block). *)
Record Act := {
  a_id : string;
  a_imageUrl : string;
  a_st : nat;
  a_markedSeen : bool;
  a_prev : option nat;
  a_next : option nat;
  a_pc : PC
}.

(** A queued reaction of a job promise: the start of the job chained after
    it, or the continuation of the handler awaiting it. *)
Inductive Micro :=
| MStart (a : nat)
| MHandler (a : nat).

(** The slice of the module-level maps for one tab: every one of them is
    keyed by the tab id and every access passes the id of the sender's tab.
    A member is [None] when the map has no entry for the tab. *)
Record TabState := {
  seenByTab : option (gmap string Z);
  statsByTab : option nat;
  heap : list Stats;
  cancelByTab : option bool;
  pausedByTab : option bool;
  pendingIdsByTab : option (list string);
  queueByTab : option nat;
  proms : list PromState;
  acts : list Act;
  micro : list Micro;
  timers : list (Z * Z);
  now : Z;
  log : list Effect
}.

Definition init (t0 : positive) : TabState := {|
  seenByTab := None; statsByTab := None; heap := []; cancelByTab := None;
  pausedByTab := None; pendingIdsByTab := None; queueByTab := None; proms := [];
  acts := []; micro := []; timers := []; now := Z.pos t0; log := []
|}.

Definition set_seenByTab v s := {|
  seenByTab := v; statsByTab := statsByTab s; heap := heap s;
  cancelByTab := cancelByTab s; pausedByTab := pausedByTab s;
  pendingIdsByTab := pendingIdsByTab s; queueByTab := queueByTab s; proms := proms s;
  acts := acts s; micro := micro s; timers := timers s; now := now s; log := log s |}.
Definition set_statsByTab v s := {|
  seenByTab := seenByTab s; statsByTab := v; heap := heap s;
  cancelByTab := cancelByTab s; pausedByTab := pausedByTab s;
  pendingIdsByTab := pendingIdsByTab s; queueByTab := queueByTab s; proms := proms s;
  acts := acts s; micro := micro s; timers := timers s; now := now s; log := log s |}.
Definition set_heap v s := {|
  seenByTab := seenByTab s; statsByTab := statsByTab s; heap := v;
  cancelByTab := cancelByTab s; pausedByTab := pausedByTab s;
  pendingIdsByTab := pendingIdsByTab s; queueByTab := queueByTab s; proms := proms s;
  acts := acts s; micro := micro s; timers := timers s; now := now s; log := log s |}.
Definition set_cancelByTab v s := {|
  seenByTab := seenByTab s; statsByTab := statsByTab s; heap := heap s;
  cancelByTab := v; pausedByTab := pausedByTab s;
  pendingIdsByTab := pendingIdsByTab s; queueByTab := queueByTab s; proms := proms s;
  acts := acts s; micro := micro s; timers := timers s; now := now s; log := log s |}.
Definition set_pausedByTab v s := {|
  seenByTab := seenByTab s; statsByTab := statsByTab s; heap := heap s;
  cancelByTab := cancelByTab s; pausedByTab := v;
  pendingIdsByTab := pendingIdsByTab s; queueByTab := queueByTab s; proms := proms s;
  acts := acts s; micro := micro s; timers := timers s; now := now s; log := log s |}.
Definition set_pendingIdsByTab v s := {|
  seenByTab := seenByTab s; statsByTab := statsByTab s; heap := heap s;
  cancelByTab := cancelByTab s; pausedByTab := pausedByTab s;
  pendingIdsByTab := v; queueByTab := queueByTab s; proms := proms s;
  acts := acts s; micro := micro s; timers := timers s; now := now s; log := log s |}.
Definition set_queueByTab v s := {|
  seenByTab := seenByTab s; statsByTab := statsByTab s; heap := heap s;
  cancelByTab := cancelByTab s; pausedByTab := pausedByTab s;
  pendingIdsByTab := pendingIdsByTab s; queueByTab := v; proms := proms s;
  acts := acts s; micro := micro s; timers := timers s; now := now s; log := log s |}.
Definition set_proms v s := {|
  seenByTab := seenByTab s; statsByTab := statsByTab s; heap := heap s;
  cancelByTab := cancelByTab s; pausedByTab := pausedByTab s;
  pendingIdsByTab := pendingIdsByTab s; queueByTab := queueByTab s; proms := v;
  acts := acts s; micro := micro s; timers := timers s; now := now s; log := log s |}.
Definition set_acts v s := {|
  seenByTab := seenByTab s; statsByTab := statsByTab s; heap := heap s;
  cancelByTab := cancelByTab s; pausedByTab := pausedByTab s;
  pendingIdsByTab := pendingIdsByTab s; queueByTab := queueByTab s; proms := proms s;
  acts := v; micro := micro s; timers := timers s; now := now s; log := log s |}.
Definition set_micro v s := {|
  seenByTab := seenByTab s; statsByTab := statsByTab s; heap := heap s;
  cancelByTab := cancelByTab s; pausedByTab := pausedByTab s;
  pendingIdsByTab := pendingIdsByTab s; queueByTab := queueByTab s; proms := proms s;
  acts := acts s; micro := v; timers := timers s; now := now s; log := log s |}.
Definition set_timers v s := {|
  seenByTab := seenByTab s; statsByTab := statsByTab s; heap := heap s;
  cancelByTab := cancelByTab s; pausedByTab := pausedByTab s;
  pendingIdsByTab := pendingIdsByTab s; queueByTab := queueByTab s; proms := proms s;
  acts := acts s; micro := micro s; timers := v; now := now s; log := log s |}.
Definition set_now v s := {|
  seenByTab := seenByTab s; statsByTab := statsByTab s; heap := heap s;
  cancelByTab := cancelByTab s; pausedByTab := pausedByTab s;
  pendingIdsByTab := pendingIdsByTab s; queueByTab := queueByTab s; proms := proms s;
  acts := acts s; micro := micro s; timers := timers s; now := v; log := log s |}.
Definition set_log v s := {|
  seenByTab := seenByTab s; statsByTab := statsByTab s; heap := heap s;
  cancelByTab := cancelByTab s; pausedByTab := pausedByTab s;
  pendingIdsByTab := pendingIdsByTab s; queueByTab := queueByTab s; proms := proms s;
  acts := acts s; micro := micro s; timers := timers s; now := now s; log := v |}.

(** [map.get(tabId) === true]. *)
Definition isTrue (o : option bool) : bool :=
  match o with Some true => true | _ => false end.

Definition emit (e : Effect) (s : TabState) : TabState := set_log (log s ++ [e]) s.

(** *** The seen registry *)

Definition ttlMs : Z := 5 * 60 * 1000.

(** [wasRecentlyAutoProcessed(tabId, attachmentId)]: it evicts the expired
    entries of the tab before it answers. *)
Definition wasRecentlyAutoProcessed (id : string) (ttl : Z) (s : TabState)
    : bool * TabState :=
  match seenByTab s with
  | None => (false, s)
  | Some byTab =>
      let byTab' := filter (λ kv : string * Z, ¬ (now s - kv.2 > ttl)) byTab in
      let s' := set_seenByTab (Some byTab') s in
      if Js.falsy id then (false, s')
      else
        match byTab' !! id with
        | None => (false, s')
        | Some ts => (negb (ts =? 0) && (now s - ts <=? ttl), s')
        end
  end.

(** [markAutoProcessed(tabId, attachmentId)]. *)
Definition markAutoProcessed (id : string) (s : TabState) : TabState :=
  if Js.falsy id then s
  else
    let byTab := default ∅ (seenByTab s) in
    set_seenByTab (Some (<[id := now s]> byTab)) s.

(** [unmarkAutoProcessed(tabId, attachmentId)]. *)
Definition unmarkAutoProcessed (id : string) (s : TabState) : TabState :=
  if Js.falsy id then s
  else
    match seenByTab s with
    | None => s
    | Some byTab => set_seenByTab (Some (delete id byTab)) s
    end.

(** *** The pending-id list *)

(** [getAutoPendingIds(tabId)]: it creates the entry when there is none. *)
Definition getAutoPendingIds (s : TabState) : list string * TabState :=
  match pendingIdsByTab s with
  | Some l => (l, s)
  | None => ([], set_pendingIdsByTab (Some []) s)
  end.

(** [enqueueAutoPendingId(tabId, attachmentId)]. *)
Definition enqueueAutoPendingId (id : string) (s : TabState) : TabState :=
  if Js.falsy id then s
  else
    let '(l, s') := getAutoPendingIds s in
    if Js.includes id l then s' else set_pendingIdsByTab (Some (l ++ [id])) s'.

(** [dequeueAutoPendingId(tabId, attachmentId)]. *)
Definition dequeueAutoPendingId (id : string) (s : TabState) : TabState :=
  if Js.falsy id then s
  else
    let '(l, s') := getAutoPendingIds s in
    match Js.indexOf id l with
    | Some idx => set_pendingIdsByTab (Some (Js.splice1 idx l)) s'
    | None => s'
    end.

(** [queuePreviewFromTab(tabId, maxLen = 8)]. *)
Definition queuePreviewFromTab (maxLen : Z) (s : TabState) : list string * TabState :=
  let '(l, s') := getAutoPendingIds s in
  (Js.slice0 l (Z.max 1 (Js.toInt32 maxLen)), s').

(** *** Stats *)

Definition stat (s : TabState) (addr : nat) : Stats :=
  default (newStats 0) (heap s !! addr).

Definition upd_stat (addr : nat) (f : Stats → Stats) (s : TabState) : TabState :=
  set_heap (alter f addr (heap s)) s.

Definition touch (t : Z) (st : Stats) : Stats :=
  {| queued := queued st; done := done st; ok := ok st; error := error st;
     startedAt := startedAt st; lastAt := t |}.
Definition incQueued (st : Stats) : Stats :=
  {| queued := queued st + 1; done := done st; ok := ok st; error := error st;
     startedAt := startedAt st; lastAt := lastAt st |}.
Definition incDone (st : Stats) : Stats :=
  {| queued := queued st; done := done st + 1; ok := ok st; error := error st;
     startedAt := startedAt st; lastAt := lastAt st |}.
Definition incOk (st : Stats) : Stats :=
  {| queued := queued st; done := done st; ok := ok st + 1; error := error st;
     startedAt := startedAt st; lastAt := lastAt st |}.
Definition incError (st : Stats) : Stats :=
  {| queued := queued st; done := done st; ok := ok st; error := error st + 1;
     startedAt := startedAt st; lastAt := lastAt st |}.

(** [getAutoUploadStats(tabId)]: the address of the tab's stats object,
    created when the map has none; its [lastAt] is refreshed. *)
Definition getAutoUploadStats (s : TabState) : nat * TabState :=
  let '(addr, s1) :=
    match statsByTab s with
    | Some addr => (addr, s)
    | None =>
        let addr := length (heap s) in
        (addr, set_statsByTab (Some addr) (set_heap (heap s ++ [newStats (now s)]) s))
    end in
  (addr, upd_stat addr (touch (now s)) s1).

(** [resetAutoUploadStatsLater(tabId, delayMs)]: a timer, kept with the time
    from which it may fire. *)
Definition resetAutoUploadStatsLater (delayMs : Z) (s : TabState) : TabState :=
  set_timers (timers s ++ [(now s + delayMs, delayMs)]) s.

(** The callback of that timer. *)
Definition resetCallback (delayMs : Z) (s : TabState) : TabState :=
  match statsByTab s with
  | None => s
  | Some addr =>
      if now s - lastAt (stat s addr) <? delayMs - 500 then s
      else set_statsByTab None s
  end.

(** *** Progress messages *)

(** [sendAutoUploadProgress(tabId, payload)]: the message is built, with the
    queue preview and the paused flag of that moment, and sent; the caller
    then waits for the send to complete, whose failure is swallowed. *)
Definition sendAutoUploadProgress (p : Payload) (s : TabState) : TabState :=
  let '(q, s') := queuePreviewFromTab 8 s in
  emit (Progress {| queue := q; paused := isTrue (pausedByTab s'); payload := p |}) s'.

(** The payload [{ phase, attachmentId, queued: st.queued, done: st.done,
    ok: st.ok, error: st.error }]. *)
Definition payloadOf (ph : string) (id : option string) (st : Stats) : Payload :=
  {| phase := ph; attachmentId := id; p_queued := queued st; p_done := done st;
     p_ok := ok st; p_error := error st; p_fuseMax := None; errorMessage := None |}.

Definition withFuseMax (fm : Z) (p : Payload) : Payload :=
  {| phase := phase p; attachmentId := attachmentId p; p_queued := p_queued p;
     p_done := p_done p; p_ok := p_ok p; p_error := p_error p;
     p_fuseMax := Some fm; errorMessage := errorMessage p |}.

Definition withErrorMessage (msg : string) (p : Payload) : Payload :=
  {| phase := phase p; attachmentId := attachmentId p; p_queued := p_queued p;
     p_done := p_done p; p_ok := p_ok p; p_error := p_error p;
     p_fuseMax := p_fuseMax p; errorMessage := Some msg |}.

(** *** Activations, promises and microtasks *)

Definition set_pc (pc : PC) (x : Act) : Act :=
  {| a_id := a_id x; a_imageUrl := a_imageUrl x; a_st := a_st x;
     a_markedSeen := a_markedSeen x; a_prev := a_prev x; a_next := a_next x;
     a_pc := pc |}.
Definition set_st (addr : nat) (x : Act) : Act :=
  {| a_id := a_id x; a_imageUrl := a_imageUrl x; a_st := addr;
     a_markedSeen := a_markedSeen x; a_prev := a_prev x; a_next := a_next x;
     a_pc := a_pc x |}.
Definition set_markedSeen (b : bool) (x : Act) : Act :=
  {| a_id := a_id x; a_imageUrl := a_imageUrl x; a_st := a_st x;
     a_markedSeen := b; a_prev := a_prev x; a_next := a_next x;
     a_pc := a_pc x |}.
Definition set_chain (prev : option nat) (next : nat) (x : Act) : Act :=
  {| a_id := a_id x; a_imageUrl := a_imageUrl x; a_st := a_st x;
     a_markedSeen := a_markedSeen x; a_prev := prev; a_next := Some next;
     a_pc := a_pc x |}.

Definition upd_act (a : nat) (f : Act → Act) (s : TabState) : TabState :=
  set_acts (alter f a (acts s)) s.

Definition goto (a : nat) (pc : PC) (s : TabState) : TabState :=
  upd_act a (set_pc pc) s.

(** [sendResponse(r)] ends the activation. *)
Definition respond (a : nat) (r : Response) (s : TabState) : TabState :=
  goto a Finished (emit (Respond a r) s).

Definition cancelledMsg : string := "AUTO_UPLOAD_CANCELLED".
Definition missingDataMsg : string := "Faltan datos del adjunto recién subido.".

(** [err?.message || String(err)] for an [Error] with message [msg]. *)
Definition errText (msg : string) : string := if Js.falsy msg then "Error" else msg.

(** Is promise [p] settled?  An id out of range stands for no promise. *)
Definition promSettled (s : TabState) (p : nat) : bool :=
  match proms s !! p with
  | Some st => settled st
  | None => false
  end.

(** The activations whose job is chained on promise [p] and has not started,
    in the order of their ids. *)
Fixpoint waitersFrom (p : nat) (i : nat) (l : list Act) : list nat :=
  match l with
  | [] => []
  | x :: l' =>
      (if bool_decide (a_pc x = JWait ∧ a_prev x = Some p) then [i] else [])
      ++ waitersFrom p (S i) l'
  end.

Definition waiters (p : nat) (s : TabState) : list nat := waitersFrom p 0 (acts s).

(** The job promise of activation [a] settles ([None]: fulfilled, [Some msg]:
    rejected with an error of that message).  Its reactions are queued in
    the order in which they were registered: the [await] of the handler
    that created it, then the [.catch(() => {}).then(jobFn)] of the job
    chained on it. *)
Definition settle (a : nat) (act : Act) (r : option string) (s : TabState) : TabState :=
  let p := default 0%nat (a_next act) in
  let st := match r with None => Fulfilled | Some msg => Rejected msg end in
  let s1 := set_proms (<[p := st]> (proms s)) s in
  let s2 := goto a (JSettled r) s1 in
  set_micro (micro s2 ++ [MHandler a] ++ (MStart <$> waiters p s)) s2.

(** [enqueueAutoUploadJob(tabId, jobFn)]:
    [prev = map.get(tabId) || Promise.resolve();
     next = prev.catch(() => {}).then(jobFn); map.set(tabId, next)].
    With [prev] already settled (or absent) the start of the job is queued
    as a microtask at once. *)
Definition enqueueAutoUploadJob (a : nat) (s : TabState) : TabState :=
  let prev := queueByTab s in
  let next := length (proms s) in
  let ready := match prev with None => true | Some p => promSettled s p end in
  let s1 := set_proms (proms s ++ [Pending]) s in
  let s2 := set_queueByTab (Some next) s1 in
  let s3 := upd_act a (λ x, set_pc JWait (set_chain prev next x)) s2 in
  if ready then set_micro (micro s3 ++ [MStart a]) s3 else s3.

(** *** The handler's [catch] block, up to its first [await] *)

Definition catchCancelled (a : nat) (act : Act) (s : TabState) : TabState :=
  let s1 := if a_markedSeen act then unmarkAutoProcessed (a_id act) s else s in
  let s2 := dequeueAutoPendingId (a_id act) s1 in
  let '(addr, s3) := getAutoUploadStats s2 in
  let s4 := upd_stat addr (λ st, touch (now s3) (incDone st)) s3 in
  let s5 := sendAutoUploadProgress
              (payloadOf "cancelled_item" (Some (a_id act)) (stat s4 addr)) s4 in
  upd_act a (λ x, set_pc HCancelledItemProgress (set_st addr x)) s5.

Definition catchError (a : nat) (act : Act) (msg : string) (s : TabState) : TabState :=
  let s1 := if a_markedSeen act then unmarkAutoProcessed (a_id act) s else s in
  let s2 := dequeueAutoPendingId (a_id act) s1 in
  let '(addr, s3) := getAutoUploadStats s2 in
  let s4 := upd_stat addr (λ st, touch (now s3) (incError (incDone st))) s3 in
  let s5 := sendAutoUploadProgress
              (withErrorMessage (errText msg)
                 (payloadOf "error_item" (Some (a_id act)) (stat s4 addr))) s4 in
  upd_act a (λ x, set_pc (HErrorItemProgress msg) (set_st addr x)) s5.

(** [catch (err)]: [if (err?.message === "AUTO_UPLOAD_CANCELLED") ... ]. *)
Definition catch (a : nat) (act : Act) (msg : string) (s : TabState) : TabState :=
  if bool_decide (msg = cancelledMsg) then catchCancelled a act s
  else catchError a act msg s.

(** *** Admission: the handler from the resolved configuration to its next [await] *)

Definition admission (a : nat) (act : Act) (cfg : Cfg) (s : TabState) : TabState :=
  if negb (wpAutoAnalyzeOnUpload cfg) then respond a (Skipped false "disabled" None) s
  else
    let '(addr, s0) := getAutoUploadStats s in
    let s1 := upd_act a (set_st addr) s0 in
    let st := stat s1 addr in
    let isSettled := queued st <=? done st in
    let stale := 30000 <? now s1 - lastAt st in
    if isTrue (cancelByTab s1) && negb (isSettled || stale) then
      respond a (Skipped false "cancelled" None) s1
    else
      let s2 := if isTrue (cancelByTab s1) then set_cancelByTab None s1 else s1 in
      let '(dup, s3) := wasRecentlyAutoProcessed (a_id act) ttlMs s2 in
      if dup then respond a (Skipped true "duplicate" None) s3
      else
        let fm := fuseMax cfg in
        if fuseEnabled cfg && (fm <=? queued (stat s3 addr)) then
          let s4 := set_pendingIdsByTab None
                      (set_pausedByTab None (set_cancelByTab (Some true) s3)) in
          let s5 := sendAutoUploadProgress
                      (withFuseMax fm
                         (payloadOf "safety_stop" (Some (a_id act)) (stat s4 addr))) s4 in
          goto a (HFuseProgress fm) s5
        else
          let s4 := upd_stat addr incQueued s3 in
          let s5 := enqueueAutoPendingId (a_id act) s4 in
          let s6 := sendAutoUploadProgress
                      (payloadOf "queued" (Some (a_id act)) (stat s5 addr)) s5 in
          goto a HQueuedProgress s6.

(** After the [queued] message is sent:
    [markAutoProcessed(...); markedSeen = true; await enqueueAutoUploadJob(...)]. *)
Definition chainJob (a : nat) (act : Act) (s : TabState) : TabState :=
  let s1 := markAutoProcessed (a_id act) s in
  let s2 := upd_act a (set_markedSeen true) s1 in
  enqueueAutoUploadJob a s2.

(** *** The job *)

Definition attemptsMax : nat := 12.
Definition retryDelayMs : Z := 220.
Definition pausePollMs : Z := 150.

Definition throwCancelled (a : nat) (act : Act) (s : TabState) : TabState :=
  settle a act (Some cancelledMsg) s.

(** The job after [await waitIfAutoUploadPaused(tabId)]. *)
Definition afterPause (a : nat) (act : Act) (s : TabState) : TabState :=
  if isTrue (cancelByTab s) then throwCancelled a act s
  else goto a JLogStart s.

(** [waitIfAutoUploadPaused(tabId)] from the head of its loop. *)
Definition waitIfAutoUploadPaused (a : nat) (act : Act) (s : TabState) : TabState :=
  if isTrue (pausedByTab s) then
    if isTrue (cancelByTab s) then throwCancelled a act s
    else goto a (JPauseSleep (now s + pausePollMs)) s
  else afterPause a act s.

(** The job function from its first statement. *)
Definition startJob (a : nat) (act : Act) (s : TabState) : TabState :=
  if isTrue (cancelByTab s) then throwCancelled a act s
  else waitIfAutoUploadPaused a act s.

(** [st.done += 1; st.ok += 1; st.lastAt = Date.now(); dequeue; done_item],
    on the stats object the closure captured. *)
Definition doneItem (a : nat) (act : Act) (s : TabState) : TabState :=
  let s1 := upd_stat (a_st act) (λ st, touch (now s) (incOk (incDone st))) s in
  let s2 := dequeueAutoPendingId (a_id act) s1 in
  let s3 := sendAutoUploadProgress
              (payloadOf "done_item" (Some (a_id act)) (stat s2 (a_st act))) s2 in
  goto a JDoneItemProgress s3.

(** One attempt of the retry wrapper has been answered. *)
Definition afterAttempt (a : nat) (act : Act) (i : nat) (r : Retry.TabReply)
    (deselect : bool) (s : TabState) : TabState :=
  if Retry.replyOk r then
    if deselect then goto a JDeselect (emit (Deselect a (a_id act)) s)
    else doneItem a act s
  else if Retry.sleepsAfter attemptsMax i then
    goto a (JApplySleep i (now s + retryDelayMs)) s
  else
    (* the loop is over, the wrapper returns [ok: false], the job throws *)
    settle a act (Some Retry.applyErrorMsg) s.

(** *** Events and steps *)

(** A MACA_AUTO_PROCESS_ATTACHMENT message from a tab:
    [String(msg?.attachmentId || "")], [String(msg?.imageUrl || "")],
    [sender?.tab?.url] and [msg?.pageUrl] (empty when absent). *)
Record AutoMsg := {
  msg_attachmentId : string;
  msg_imageUrl : string;
  msg_tabUrl : string;
  msg_pageUrl : string
}.

(** What the outside world hands to a suspended activation.  [RDone]: the
    awaited send, log write, metrics write or timer is over (a failure of
    these is swallowed by the callee).  [RApply r deselect]: the tab's answer
    to one attempt of the retry wrapper, and the value that the shared
    configuration object has for [autoDeselectProcessedOnAutoFill] when the
    job reads it next. *)
Inductive Resumption :=
| RDone
| RCfg (cfg : Cfg)
| RCfgFail (msg : string)
| RAnalysisOk
| RAnalysisFail (msg : string)
| RApply (r : Retry.TabReply) (deselect : bool).

Inductive Event :=
| Tick (d : N)                       (* the clock advances *)
| AutoProcess (m : AutoMsg)          (* MACA_AUTO_PROCESS_ATTACHMENT *)
| Cancel                             (* MACA_AUTO_UPLOAD_CANCEL *)
| Pause                              (* MACA_AUTO_UPLOAD_PAUSE *)
| Resume                             (* MACA_AUTO_UPLOAD_RESUME *)
| ResetTimer (i : nat)               (* a timer of resetAutoUploadStatsLater fires *)
| Wake (a : nat) (r : Resumption)    (* what activation [a] awaits is settled *)
| RunMicro.                          (* the first queued microtask runs *)

(** The handler from the arrival of the message to its first [await]. *)
Definition receive (m : AutoMsg) (s : TabState) : TabState :=
  let a := length (acts s) in
  let pageUrl := Js.or_else (msg_tabUrl m) (msg_pageUrl m) in
  let act := {| a_id := msg_attachmentId m; a_imageUrl := msg_imageUrl m; a_st := 0;
                a_markedSeen := false; a_prev := None; a_next := None; a_pc := HCfg |} in
  let s1 := set_acts (acts s ++ [act]) s in
  if Js.falsy (a_id act) || Js.falsy (a_imageUrl act) then catch a act missingDataMsg s1
  else if negb (isWpAdminUrl pageUrl) then respond a (Skipped false "non_wp" None) s1
  else s1.

(** The MACA_AUTO_UPLOAD_CANCEL, _PAUSE and _RESUME handlers. *)
Definition onCancel (s : TabState) : TabState :=
  let s1 := set_pausedByTab None (set_cancelByTab (Some true) s) in
  let '(addr, s2) := getAutoUploadStats s1 in
  let st := stat s2 addr in
  let drained := queued st <=? done st in
  let s3 := if drained then set_cancelByTab None s2 else s2 in
  sendAutoUploadProgress
    (payloadOf (if drained then "cancelled" else "cancel_request") None st) s3.

Definition onPause (s : TabState) : TabState :=
  let s1 := set_pausedByTab (Some true) s in
  let '(addr, s2) := getAutoUploadStats s1 in
  sendAutoUploadProgress (payloadOf "paused" None (stat s2 addr)) s2.

Definition onResume (s : TabState) : TabState :=
  let s1 := set_pausedByTab None s in
  let '(addr, s2) := getAutoUploadStats s1 in
  sendAutoUploadProgress (payloadOf "resumed" None (stat s2 addr)) s2.

(** [if (st.done >= st.queued)] of the three tails: the flags are dropped
    and the closing phase is reported. *)
Definition drainedNow (s : TabState) (addr : nat) : bool :=
  queued (stat s addr) <=? done (stat s addr).

Definition closeQueue (ph : string) (act : Act) (s : TabState) : TabState :=
  let s1 := set_pendingIdsByTab None (set_pausedByTab None s) in
  sendAutoUploadProgress (payloadOf ph (Some (a_id act)) (stat s1 (a_st act))) s1.

(** Activation [a], suspended at [a_pc act], goes on with [r]. *)
Definition wake (a : nat) (act : Act) (r : Resumption) (s : TabState) : option TabState :=
  match a_pc act, r with
  | HCfg, RCfg cfg => Some (admission a act cfg s)
  | HCfg, RCfgFail msg => Some (catch a act msg s)
  | HFuseProgress fm, RDone => Some (goto a (HFuseLog fm) s)
  | HFuseLog fm, RDone => Some (respond a (Skipped false "safety_fuse" (Some fm)) s)
  | HQueuedProgress, RDone => Some (chainJob a act s)
  | JPauseSleep due, RDone =>
      if due <=? now s then Some (waitIfAutoUploadPaused a act s) else None
  | JLogStart, RDone =>
      Some (goto a JProcessingProgress
              (sendAutoUploadProgress
                 (payloadOf "processing" (Some (a_id act)) (stat s (a_st act))) s))
  | JProcessingProgress, RDone => Some (goto a JAnalysis (emit (Analyze a (a_id act)) s))
  | JAnalysis, RAnalysisOk =>
      Some (if isTrue (cancelByTab s) then throwCancelled a act s
            else goto a (JApplySend 0) (emit (Apply a (a_id act) 0) s))
  | JAnalysis, RAnalysisFail msg => Some (settle a act (Some msg) s)
  | JApplySend i, RApply reply deselect => Some (afterAttempt a act i reply deselect s)
  | JApplySleep i due, RDone =>
      if due <=? now s
      then Some (goto a (JApplySend (S i)) (emit (Apply a (a_id act) (S i)) s))
      else None
  | JDeselect, RDone => Some (doneItem a act s)
  | JDoneItemProgress, RDone =>
      Some (if drainedNow s (a_st act)
            then goto a JDoneAllProgress (closeQueue "done_all" act s)
            else goto a JLogDone s)
  | JDoneAllProgress, RDone => Some (goto a JLogDone (resetAutoUploadStatsLater 14000 s))
  | JLogDone, RDone => Some (settle a act None s)
  | HCancelledItemProgress, RDone =>
      Some (if drainedNow s (a_st act)
            then goto a HCancelledProgress (closeQueue "cancelled" act s)
            else respond a (Skipped false "cancelled" None) s)
  | HCancelledProgress, RDone =>
      Some (respond a (Skipped false "cancelled" None)
              (resetAutoUploadStatsLater 12000 (set_cancelByTab None s)))
  | HErrorItemProgress msg, RDone =>
      Some (if drainedNow s (a_st act)
            then goto a (HErrDoneAllProgress msg) (closeQueue "done_all" act s)
            else goto a (HErrCfg msg) s)
  | HErrDoneAllProgress msg, RDone =>
      Some (goto a (HErrCfg msg) (resetAutoUploadStatsLater 16000 s))
  | HErrCfg msg, RCfg _ => Some (goto a (HErrLog msg) s)
  | HErrCfg msg, RCfgFail _ => Some (goto a (HErrLog msg) s)
  | HErrLog msg, RDone => Some (goto a (HErrMetrics msg) s)
  | HErrMetrics msg, RDone => Some (respond a (Failed (errText msg)) s)
  | _, _ => None
  end.

(** The first microtask of the queue. *)
Definition runMicro (s : TabState) : option TabState :=
  match micro s with
  | [] => None
  | m :: rest =>
      let s1 := set_micro rest s in
      match m with
      | MStart a =>
          match acts s !! a with
          | Some act => Some (if bool_decide (a_pc act = JWait) then startJob a act s1 else s1)
          | None => Some s1
          end
      | MHandler a =>
          match acts s !! a with
          | Some act =>
              match a_pc act with
              | JSettled None => Some (respond a (Accepted (a_id act)) s1)
              | JSettled (Some msg) => Some (catch a act msg s1)
              | _ => Some s1
              end
          | None => Some s1
          end
      end
  end.

Definition fireReset (i : nat) (s : TabState) : option TabState :=
  match timers s !! i with
  | Some (due, delayMs) =>
      if due <=? now s
      then Some (resetCallback delayMs (set_timers (delete i (timers s)) s))
      else None
  | None => None
  end.

(** One step of the event loop.  The outside world is heard only when no
    microtask is queued. *)
Definition step (s : TabState) (e : Event) : option TabState :=
  match e with
  | RunMicro => runMicro s
  | _ =>
      if bool_decide (micro s = []) then
        match e with
        | Tick d => Some (set_now (now s + Z.of_N d) s)
        | AutoProcess m => Some (receive m s)
        | Cancel => Some (onCancel s)
        | Pause => Some (onPause s)
        | Resume => Some (onResume s)
        | ResetTimer i => fireReset i s
        | Wake a r =>
            match acts s !! a with
            | Some act => wake a act r s
            | None => None
            end
        | RunMicro => None
        end
      else None
  end.

Fixpoint run (s : TabState) (tr : list Event) : option TabState :=
  match tr with
  | [] => Some s
  | e :: tr' =>
      match step s e with
      | Some s' => run s' tr'
      | None => None
      end
  end.

(** The states the tab can be in. *)
Definition reachable (s : TabState) : Prop :=
  ∃ t0 tr, run (init t0) tr = Some s.

End Coordinator.

(** * Notions used by the statements *)

Import Coordinator.

(** The pending-id list of the tab, empty when the map has no entry. *)
Definition pend (s : TabState) : list string := default [] (pendingIdsByTab s).

(** No empty id and no id twice. *)
Definition goodIds (l : list string) : Prop := NoDup l ∧ EmptyString ∉ l.

(** The list after [enqueueAutoPendingId] and after [dequeueAutoPendingId]. *)
Definition pushId (id : string) (l : list string) : list string :=
  if Js.falsy id then l else if Js.includes id l then l else l ++ [id].

Definition dropId (id : string) (l : list string) : list string :=
  if Js.falsy id then l
  else match Js.indexOf id l with Some i => delete i l | None => l end.

(** The map entry after [enqueueAutoPendingId] and [dequeueAutoPendingId]:
    for an empty id the functions return before they touch the map. *)
Definition pushOpt (id : string) (o : option (list string)) : option (list string) :=
  if Js.falsy id then o else Some (pushId id (default [] o)).

Definition dropOpt (id : string) (o : option (list string)) : option (list string) :=
  if Js.falsy id then o else Some (dropId id (default [] o)).

(** The seen registry after the eviction pass of [wasRecentlyAutoProcessed]
    at time [t], and the answer of that function on a registry. *)
Definition evict (t ttl : Z) (m : gmap string Z) : gmap string Z :=
  filter (λ kv : string * Z, ¬ (t - kv.2 > ttl)) m.

Definition recentIn (id : string) (t ttl : Z) (m : gmap string Z) : bool :=
  negb (Js.falsy id) &&
  match evict t ttl m !! id with
  | Some ts => negb (ts =? 0) && (t - ts <=? ttl)
  | None => false
  end.

Definition recent (id : string) (s : TabState) : bool :=
  match seenByTab s with
  | Some m => recentIn id (now s) ttlMs m
  | None => false
  end.

(** The address [getAutoUploadStats] returns and the heap it leaves. *)
Definition statAddr (s : TabState) : nat := default (length (heap s)) (statsByTab s).

Definition heapWithStats (s : TabState) : list Stats :=
  match statsByTab s with
  | Some _ => heap s
  | None => heap s ++ [newStats (now s)]
  end.

(** The counters of the tab's stats entry, those of a fresh object when the
    map has no entry. *)
Definition curStats (s : TabState) : Stats :=
  match statsByTab s with
  | Some addr => stat s addr
  | None => newStats (now s)
  end.

(** How one step may change the pending-id list. *)
Definition pendNext (l l' : list string) : Prop :=
  l' = l ∨ l' = [] ∨ ∃ id, l' = pushId id l ∨ l' = dropId id l.

(** What a step adds to the log. *)
Definition newEffects (s s' : TabState) : list Effect := drop (length (log s)) (log s').

(** The seen registry after [markAutoProcessed] and [unmarkAutoProcessed]. *)
Definition markSeen (id : string) (t : Z) (seen : option (gmap string Z))
    : option (gmap string Z) :=
  if Js.falsy id then seen else Some (<[id := t]> (default ∅ seen)).

Definition unmarkSeen (id : string) (seen : option (gmap string Z))
    : option (gmap string Z) :=
  if Js.falsy id then seen else delete id <$> seen.

(** [if (markedSeen) unmarkAutoProcessed(tabId, attachmentId)]. *)
Definition unmarkIf (b : bool) (id : string) (seen : option (gmap string Z))
    : option (gmap string Z) :=
  if b then unmarkSeen id seen else seen.

(** The kinds of suspension points: before the job is chained, chained and
    waiting, inside the job, the job promise settled, after the job. *)
Inductive Kind := Pre | Waiting | Running | Settling | Post.

Definition kind (pc : PC) : Kind :=
  match pc with
  | HCfg | HFuseProgress _ | HFuseLog _ | HQueuedProgress => Pre
  | JWait => Waiting
  | JPauseSleep _ | JLogStart | JProcessingProgress | JAnalysis | JApplySend _
  | JApplySleep _ _ | JDeselect | JDoneItemProgress | JDoneAllProgress | JLogDone => Running
  | JSettled _ => Settling
  | HCancelledItemProgress | HCancelledProgress | HErrorItemProgress _
  | HErrDoneAllProgress _ | HErrCfg _ | HErrLog _ | HErrMetrics _ | Finished => Post
  end.

#[global] Instance Kind_eq_dec : EqDecision Kind.
Proof. solve_decision. Defined.
















(** * Concrete runs *)

(** A well-formed message of the content script for attachment [id]. *)
Definition mkMsg (id : string) : AutoMsg := {|
  msg_attachmentId := id;
  msg_imageUrl := "https://example.org/wp-content/uploads/a.png";
  msg_tabUrl := "https://example.org/wp-admin/upload.php";
  msg_pageUrl := "https://example.org/wp-admin/upload.php"
|}.

(** The tab's answers to MACA_APPLY_TO_ATTACHMENT: the alt field was set; no
    field was set. *)
Definition appliedAlt : Retry.TabReply :=
  Retry.Reply (Some {| Retry.alt := true; Retry.title := false; Retry.leyenda := false |}).

(** The message of activation [a] arrives and is admitted with [cfg]: the
    configuration is read, the [queued] message is sent, the job is chained
    (its start is a microtask only when the chain is idle). *)
Definition admitEvents (a : nat) (id : string) (cfg : Cfg) : list Event :=
  [AutoProcess (mkMsg id); Wake a (RCfg cfg); Wake a RDone].

(** The job of activation [a] from its start to the answer of the first
    apply attempt, which succeeds: start log, [processing] message, analysis,
    apply. *)
Definition jobToApplied (a : nat) : list Event :=
  [Wake a RDone; Wake a RDone; Wake a RAnalysisOk; Wake a (RApply appliedAlt false)].

(** The state after a run from the initial state at time 1000 (the initial
    state itself if the run is not possible). *)
Definition after (tr : list Event) : TabState :=
  default (init 1000) (run (init 1000) tr).



(** Attachment "1" is admitted and its job started; the message for
    attachment "2" has arrived and waits for the configuration. *)
Definition previewRun : list Event :=
  admitEvents 0 "1" defaultCfg ++ [RunMicro; AutoProcess (mkMsg "2")].

(** The [queued] message that the admission of "2" sends. *)
Definition previewMsg : ProgressMsg := {|
  queue := ["1"; "2"];
  paused := false;
  payload := {| phase := "queued"; attachmentId := Some "2"; p_queued := 2; p_done := 0;
                p_ok := 0; p_error := 0; p_fuseMax := None; errorMessage := None |}
|}.

(** * Well-formedness of the reachable states *)

(** The map entry for the stats, when there is one, is an object of the heap. *)
Definition statsValid (s : TabState) : Prop :=
  match statsByTab s with
  | Some addr => (addr < length (heap s))%nat
  | None => True
  end.

(** An activation with an empty attachment id or image URL went from the
    arrival of its message straight into the [catch] block. *)
Definition actOk (x : Act) : Prop :=
  a_id x = EmptyString ∨ a_imageUrl x = EmptyString →
  a_markedSeen x = false ∧ kind (a_pc x) = Post.

Definition seenOk (t : Z) (seen : option (gmap string Z)) : Prop :=
  ∀ m id ts, seen = Some m → m !! id = Some ts → 0 < ts ≤ t ∧ id ≠ EmptyString.

Record BasicInv (s : TabState) : Prop := {
  bi_stats : statsValid s;
  bi_now : 0 < now s;
  bi_seen : seenOk (now s) (seenByTab s);
  bi_acts : Forall actOk (acts s)
}.

(** * Failure of one item *)


(** The [error_item] message for attachment [id], sent in state [s'] with
    the counters [st]. *)
Definition errorItemMsg (id msg : string) (st : Stats) (s' : TabState) : ProgressMsg := {|
  queue := take 8 (pend s');
  paused := isTrue (pausedByTab s');
  payload := withErrorMessage (errText msg) (payloadOf "error_item" (Some id) st)
|}.

Definition cancelledItemMsg (id : string) (st : Stats) (s' : TabState) : ProgressMsg := {|
  queue := take 8 (pend s');
  paused := isTrue (pausedByTab s');
  payload := payloadOf "cancelled_item" (Some id) st
|}.



Definition failingSecond (pc : PC) : Act := {|
  a_id := "2"; a_imageUrl := "https://example.org/wp-content/uploads/a.png";
  a_st := 0; a_markedSeen := true; a_prev := Some 0%nat; a_next := Some 1%nat;
  a_pc := pc |}.


(** * The seen registry after a job *)

(** The registry has no entry for [id]. *)
Definition unseen (id : string) (s : TabState) : Prop :=
  ∀ m, seenByTab s = Some m → m !! id = None.

(** What the handler's continuation does after the job of activation [a]
    was rejected with [msg]: the entry and the pending id are gone when the
    outcome is reported, and an admission of the same id, then or at any
    later time, is not taken for a duplicate. *)
Definition unmarkedAt (s : TabState) (a : nat) (x : Act) (msg : string) : Prop :=
  ∃ s' pm,
    step s RunMicro = Some s' ∧
    unseen (a_id x) s' ∧ (a_id x ∉ pend s') ∧
    newEffects s s' = [Progress pm] ∧
    phase (payload pm) =
      (if bool_decide (msg = cancelledMsg) then "cancelled_item" else "error_item") ∧
    attachmentId (payload pm) = Some (a_id x) ∧
    (a_id x ∉ queue pm) ∧
    (∀ d : N, (wasRecentlyAutoProcessed (a_id x) ttlMs
                 (set_now (now s' + Z.of_N d) s')).1 = false).

(** The first of two attachments is cancelled while it waits for the
    Analysis Pipeline: the state in which the continuation of its handler is
    the next microtask. *)
Definition cancelledRun : list Event :=
  admitEvents 0 "1" defaultCfg ++ [RunMicro] ++ admitEvents 1 "2" defaultCfg ++
  [Wake 0 RDone; Wake 0 RDone; Cancel; Wake 0 RAnalysisOk].

Definition cancelledFirst : Act := {|
  a_id := "1"; a_imageUrl := "https://example.org/wp-content/uploads/a.png";
  a_st := 0; a_markedSeen := true; a_prev := None; a_next := Some 0%nat;
  a_pc := JSettled (Some cancelledMsg) |}.

(** * The retry wrapper *)




(** * The upload signal tracker (context_helper.js) *)

(** The tracker's settings and clock-independent members stay as [boot]
    leaves them: the window is 45 seconds. *)
Definition trackerOk (u : Tracker.AutoUpload) : Prop :=
  Tracker.uploadSignalWindowMs u = 45000.


(** A scenario: the script boots at [trackerBootAt]; ten seconds later a file is
    dropped on the uploader; two attachments appear with an uploading class
    100ms and 200ms after that; the first is looked at again two seconds
    after the drop. *)
Definition uploadingEl (id : string) : Tracker.El :=
  {| Tracker.data_id := id; Tracker.className := "attachment uploading save-ready";
     Tracker.isSelected := false |}.

Definition trackerBootAt : Z := 1700000000000.

Definition uploadingRun : Tracker.AutoUpload :=
  let u0 := Tracker.boot trackerBootAt in
  let u1 := Tracker.markUploadSignal (trackerBootAt + 10000) u0 in
  let u2 := (Tracker.noteAttachmentMeta (trackerBootAt + 10100) (uploadingEl "41") false u1).2 in
  (Tracker.noteAttachmentMeta (trackerBootAt + 10200) (uploadingEl "42") false u2).2.

(** * The counters of the stats entry *)

(** The job of activation [a] from the answer of the Field Applier on:
    [done_item] and [done_all] are sent, the reset timer is set, the job
    promise is fulfilled and the handler answers. *)
Definition finishOk (a : nat) : list Event :=
  jobToApplied a ++ [Wake a RDone; Wake a RDone; Wake a RDone; RunMicro].

(** Well-formed traffic only.  The first attachment is processed to its end,
    which sets the reset timer of 14 seconds; the second is admitted right
    after and its analysis is still running when the timer fires 14 seconds
    later, with no activity on the stats entry for more than 13.5 seconds:
    the entry is deleted.  Then the analysis fails. *)
Definition resetRun : list Event :=
  admitEvents 0 "1" defaultCfg ++ [RunMicro] ++ finishOk 0 ++
  admitEvents 1 "2" defaultCfg ++ [RunMicro; Wake 1 RDone; Wake 1 RDone] ++
  [Tick 14000; ResetTimer 0; Wake 1 (RAnalysisFail "HTTP 500"); RunMicro].

(** The configuration cannot be read for a well-formed message. *)
Definition cfgFailRun : list Event :=
  [AutoProcess (mkMsg "1"); Wake 0 (RCfgFail "storage unavailable")].

(** A message without image URL. *)
Definition missingDataRun : list Event :=
  [AutoProcess {| msg_attachmentId := "7"; msg_imageUrl := "";
                  msg_tabUrl := "https://example.org/wp-admin/upload.php";
                  msg_pageUrl := "" |}].

(** The tab's stats entry, when the map has one. *)
Definition statsEntry (s : TabState) : option Stats :=
  addr ← statsByTab s; heap s !! addr.

(** The entry counts one item done and none queued. *)
Definition oneDoneNoneQueued (s : TabState) : Prop :=
  ∃ st, statsEntry s = Some st ∧ queued st = 0 ∧ done st = 1 ∧ ok st = 0 ∧ error st = 1.

(** * Counting activations and messages *)

Fixpoint countIf {A} (P : A → bool) (l : list A) : nat :=
  match l with
  | [] => 0
  | x :: l' => Nat.b2n (P x) + countIf P l'
  end.



(** * The admission checks *)

(** The state in which the handler takes its decisions: the stats entry
    exists, its [lastAt] is refreshed, and the activation holds it as [st]. *)
Definition withStats (a : nat) (s : TabState) : TabState :=
  upd_act a (set_st (statAddr s))
    (set_heap (alter (touch (now s)) (statAddr s) (heapWithStats s))
       (set_statsByTab (Some (statAddr s)) s)).

(** The cancel gate answers: the flag is set and the queue is not settled.
    (The stats entry was touched just before, so it is never stale.) *)
Definition gateCancels (s : TabState) : bool :=
  isTrue (cancelByTab s) && negb (queued (curStats s) <=? done (curStats s)).

(** The state after the cancel gate has let the message through and the
    duplicate check has evicted the expired entries. *)
Definition pastGates (a : nat) (s : TabState) : TabState :=
  set_seenByTab (evict (now s) ttlMs <$> seenByTab s)
    (if isTrue (cancelByTab s) then set_cancelByTab None (withStats a s)
     else withStats a s).

(** The fuse trips. *)
Definition fuseTrips (cfg : Cfg) (s : TabState) : bool :=
  fuseEnabled cfg && (fuseMax cfg <=? queued (curStats s)).

(** The five ways out of the admission. *)
Definition tripped (a : nat) (x : Act) (cfg : Cfg) (s : TabState) : TabState :=
  let s4 := set_pendingIdsByTab None
              (set_pausedByTab None (set_cancelByTab (Some true) (pastGates a s))) in
  goto a (HFuseProgress (fuseMax cfg))
    (sendAutoUploadProgress
       (withFuseMax (fuseMax cfg)
          (payloadOf "safety_stop" (Some (a_id x)) (touch (now s) (curStats s)))) s4).

Definition accepted (a : nat) (x : Act) (s : TabState) : TabState :=
  let s5 := enqueueAutoPendingId (a_id x)
              (upd_stat (statAddr s) incQueued (pastGates a s)) in
  goto a HQueuedProgress
    (sendAutoUploadProgress
       (payloadOf "queued" (Some (a_id x)) (incQueued (touch (now s) (curStats s)))) s5).

Definition decided (a : nat) (x : Act) (cfg : Cfg) (s : TabState) : TabState :=
  if negb (wpAutoAnalyzeOnUpload cfg) then respond a (Skipped false "disabled" None) s
  else if gateCancels s then respond a (Skipped false "cancelled" None) (withStats a s)
  else if recent (a_id x) s then respond a (Skipped true "duplicate" None) (pastGates a s)
  else if fuseTrips cfg s then tripped a x cfg s
  else accepted a x s.



(** * The safety fuse *)



















Definition fuseSixth : Act := {|
  a_id := "6"; a_imageUrl := "https://example.org/wp-content/uploads/a.png";
  a_st := 0; a_markedSeen := false; a_prev := None; a_next := None; a_pc := HCfg |}.



(** * Duplicate triggers *)















(** * Cancel *)



(** The job of the activation is admitted and has a checkpoint ahead: it is
    not chained yet, has not started, sleeps in the pause loop, or is on the
    way to the check that follows the analysis. *)
Definition cancellable (x : Act) : bool :=
  match a_pc x with
  | HQueuedProgress | JWait | JPauseSleep _ | JLogStart | JProcessingProgress
  | JAnalysis => true
  | _ => false
  end.

(** [queued] counts the activation and [done] does not yet: the job is
    cancellable, or rejected as cancelled with the continuation of its
    handler still in the microtask queue. *)
Definition owed (x : Act) : bool :=
  match a_pc x with
  | JSettled (Some msg) => String.eqb msg cancelledMsg
  | _ => cancellable x
  end.

(** The handler has sent [cancelled_item] and waits for the send. *)
Definition atItem (x : Act) : bool :=
  match a_pc x with HCancelledItemProgress => true | _ => false end.







(** Every owed job was cancelled and every handler is past its last check. *)
Definition drained (s : TabState) : Prop :=
  countIf owed (acts s) = 0%nat ∧ countIf atItem (acts s) = 0%nat.












(** Five candidates are queued and the first two processed to their end;
    the job of the third waits for the Analysis Pipeline, the fourth and the
    fifth have not started, when the user cancels: queued 5, done 2. *)
Definition jobDone (a : nat) : list Event :=
  jobToApplied a ++ [Wake a RDone; Wake a RDone; RunMicro; RunMicro].

Definition fiveQueued : list Event :=
  admitEvents 0 "1" defaultCfg ++ [RunMicro] ++ admitEvents 1 "2" defaultCfg ++
  admitEvents 2 "3" defaultCfg ++ admitEvents 3 "4" defaultCfg ++
  admitEvents 4 "5" defaultCfg ++ jobDone 0 ++ jobDone 1.

Definition cancelRun : list Event := fiveQueued ++ [Wake 2 RDone; Wake 2 RDone; Cancel].

(** The drain: the analysis of the third answers, the microtasks run, and
    the three handlers resume after their [cancelled_item] message. *)
Definition drainRun : list Event :=
  [Wake 2 RAnalysisOk; RunMicro; RunMicro; RunMicro; RunMicro; RunMicro;
   Wake 2 RDone; Wake 3 RDone; Wake 4 RDone].



(** * Further invariants of the coordinator *)

(** ** The counters *)

(** What the code keeps true of a stats object: no counter is negative and
    every [ok] and every [error] was counted as [done]. *)
Definition countersOk (st : Stats) : Prop :=
  0 ≤ queued st ∧ 0 ≤ ok st ∧ 0 ≤ error st ∧ ok st + error st ≤ done st.

Definition payloadOk (p : Payload) : Prop :=
  0 ≤ p_queued p ∧ 0 ≤ p_ok p ∧ 0 ≤ p_error p ∧ p_ok p + p_error p ≤ p_done p.

Definition progressOk (e : Effect) : Prop :=
  match e with Progress m => payloadOk (payload m) | _ => True end.

Record CountInv (s : TabState) : Prop := {
  cn_heap : Forall countersOk (heap s);
  cn_log : Forall progressOk (log s)
}.

(** ** The answers *)

(** The calls of [sendResponse] by activation [a]. *)
Definition isAnswerTo (a : nat) (e : Effect) : bool :=
  match e with Respond b _ => bool_decide (b = a) | _ => false end.

Definition answers (a : nat) (l : list Effect) : nat := countIf (isAnswerTo a) l.

(** 1 when the handler activation [a] has run to its end, 0 when it is
    suspended or does not exist. *)
Definition ended (a : nat) (s : TabState) : nat :=
  match acts s !! a with
  | Some x => Nat.b2n (bool_decide (a_pc x = Finished))
  | None => 0
  end.

(** ** The cancel gate *)

(** The message of activation [a] is answered [cancelled] by the cancel
    gate: nothing is queued, the flag stays, and only [lastAt] of the stats
    entry is refreshed. *)
Definition gateAnswers (s : TabState) (a : nat) (cfg : Cfg) : Prop :=
  ∃ s',
    step s (Wake a (RCfg cfg)) = Some s' ∧
    newEffects s s' = [Respond a (Skipped false "cancelled" None)] ∧
    cancelByTab s' = cancelByTab s ∧ pend s' = pend s ∧
    seenByTab s' = seenByTab s ∧ proms s' = proms s ∧
    queued (curStats s') = queued (curStats s) ∧
    done (curStats s') = done (curStats s) ∧
    lastAt (curStats s') = now s.

(** The queue of [cancelRun] a minute later, when a sixth candidate
    arrives. *)
Definition staleCancelRun : list Event :=
  cancelRun ++ [Tick 60000; AutoProcess (mkMsg "6")].

(** ** The seen registry *)

(** The answer of [wasRecentlyAutoProcessed] for [id], asked [d]
    milliseconds after the state [s]. *)
Definition recentAfter (d : N) (id : string) (s : TabState) : bool :=
  (wasRecentlyAutoProcessed id ttlMs (set_now (now s + Z.of_N d) s)).1.

(** * Text helpers of the Analysis Pipeline (util.js, background.js)

    What [analyzeImage] does to the texts of the model before it returns
    them to the job.  A JavaScript string is the list of its UTF-16 code
    units: [length], [slice], [trim] and the regular expressions used here
    (without the [u] flag) all work on code units. *)

Module Text.

Definition jstr := list N.

(** A literal of the source, written in ASCII. *)
Definition lit (s : string) : jstr :=
  (λ c, N.of_nat (Ascii.nat_of_ascii c)) <$> String.list_ascii_of_string s.

(** White space and line terminators: what [trim] removes and what [\s]
    matches. *)
Definition isSpace (c : N) : bool :=
  ((9 <=? c) && (c <=? 13) || (c =? 32) || (c =? 160) || (c =? 5760) ||
   (8192 <=? c) && (c <=? 8202) || (c =? 8232) || (c =? 8233) || (c =? 8239) ||
   (c =? 8287) || (c =? 12288) || (c =? 65279))%N.

Fixpoint trimStart (s : jstr) : jstr :=
  match s with
  | c :: s' => if isSpace c then trimStart s' else s
  | [] => []
  end.

Definition trimEnd (s : jstr) : jstr := reverse (trimStart (reverse s)).

(** [s.trim()]. *)
Definition trim (s : jstr) : jstr := trimEnd (trimStart s).

(** [s.replace(/\s+/g, " ")]; [inRun]: the code unit before was white
    space. *)
Fixpoint collapseFrom (inRun : bool) (s : jstr) : jstr :=
  match s with
  | [] => []
  | c :: s' =>
      if isSpace c then (if inRun then [] else [32%N]) ++ collapseFrom true s'
      else c :: collapseFrom false s'
  end.

Definition collapseSpaces (s : jstr) : jstr := collapseFrom false s.

(** A letter of a pattern with the flag [i] and without the flag [u]: of
    the code units only the letter itself and its ASCII capital match. *)
Definition eqCI (p c : N) : bool := ((c =? p) || (c =? p - 32))%N.

(** The rest of [s] after the letters [p], matched with the flag [i]. *)
Fixpoint afterCI (p : jstr) (s : jstr) : option jstr :=
  match p, s with
  | [], _ => Some s
  | a :: p', c :: s' => if eqCI a c then afterCI p' s' else None
  | _ :: _, [] => None
  end.

(** The rest of [s] after [\s+]. *)
Definition afterSpaces (s : jstr) : option jstr :=
  match s with
  | c :: s' => if isSpace c then Some (trimStart s') else None
  | [] => None
  end.

Definition andThen (o : option jstr) (f : jstr → option jstr) : option jstr :=
  match o with
  | Some r => f r
  | None => None
  end.

(** [s.replace(/^\s*(imagen|foto)\s+de\s+/i, empty)]: the match is cut off.
    The classes of the pattern are disjoint, so the greedy match is the
    only one. *)
Definition stripImagePrefix (s : jstr) : jstr :=
  let s0 := trimStart s in
  let word :=
    match afterCI (lit "imagen") s0 with
    | Some r => Some r
    | None => afterCI (lit "foto") s0
    end in
  match andThen (andThen (andThen word afterSpaces) (afterCI (lit "de"))) afterSpaces with
  | Some r => r
  | None => s
  end.

(** [normalizeAltText(alt, maxLen, avoidPrefix)] of util.js; [maxLen] is
    [Number(maxLen)], [None] when that is not finite, and integral. *)
Definition normalizeAltText (alt : jstr) (maxLen : option Z) (avoidPrefix : bool) : jstr :=
  let s := trim alt in
  let s := if avoidPrefix then stripImagePrefix s else s in
  let s := collapseSpaces s in
  match maxLen with
  | Some n =>
      if (0 <? n) && (n <? Z.of_nat (length s)) then trim (take (Z.to_nat n) s) else s
  | None => s
  end.

(** [normalizeCaptionText(caption)] of util.js. *)
Definition normalizeCaptionText (caption : jstr) : jstr := collapseSpaces (trim caption).

(** The test [/[.!?…]$/]. *)
Definition isStop (c : N) : bool := ((c =? 46) || (c =? 33) || (c =? 63) || (c =? 8230))%N.

Definition endsSentence (s : jstr) : bool :=
  match last s with
  | Some c => isStop c
  | None => false
  end.

(** [ensureTrailingPeriod(text)]. *)
Definition ensureTrailingPeriod (text : jstr) : jstr :=
  let s := trim text in
  match s with
  | [] => []
  | _ => if endsSentence s then s else s ++ [46%N]
  end.

(** [ensureAltTrailingPeriodWithinLimit(text, maxLen)]. *)
Definition ensureAltTrailingPeriodWithinLimit (text : jstr) (maxLen : option Z) : jstr :=
  let s := trim text in
  match s with
  | [] => []
  | _ =>
      if endsSentence s then s
      else
        let s' :=
          match maxLen with
          | Some n =>
              if (0 <? n) && (n <? Z.of_nat (length s) + 1)
              then trim (take (Z.to_nat (Z.max 0 (n - 1))) s)
              else s
          | None => s
          end in
        s' ++ [46%N]
  end.

(** The ALT that [analyzeImage] returns for the provider [openrouter], from
    the ALT of the model: normalised, then normalised again and closed with
    a period when that leaves a text. *)
Definition openRouterAlt (alt : jstr) (maxLen : option Z) (avoidPrefix : bool) : jstr :=
  let altFinal := normalizeAltText alt maxLen avoidPrefix in
  match altFinal with
  | [] => altFinal
  | _ =>
      let noPrefixAlt := normalizeAltText altFinal maxLen avoidPrefix in
      match noPrefixAlt with
      | [] => altFinal
      | _ => ensureAltTrailingPeriodWithinLimit noPrefixAlt maxLen
      end
  end.

(** *** Shapes of texts *)

(** The text does not begin, does not end, with white space. *)
Definition headOk (s : jstr) : bool :=
  match s with [] => true | c :: _ => negb (isSpace c) end.

Definition lastOk (s : jstr) : bool := headOk (reverse s).

(** Every white-space code unit of the text is a space that follows a code
    unit other than white space ([inRun]: the code unit before the text was
    white space). *)
Fixpoint collapsedFrom (inRun : bool) (s : jstr) : bool :=
  match s with
  | [] => true
  | c :: s' =>
      if isSpace c then (c =? 32)%N && negb inRun && collapsedFrom true s'
      else collapsedFrom false s'
  end.

(** A text as [normalizeCaptionText] leaves it. *)
Definition tidy (s : jstr) : Prop :=
  headOk s = true ∧ lastOk s = true ∧ collapsedFrom false s = true.

End Text.

(** * Post-validation of the texts (background.js)

    [countWords], [isGenericText] and [applyPostValidation], which
    [analyzeImage] calls on the final texts. *)

Module Validation.

Import Text.

(** [s.split(/\s+/)]: [cur] is the piece being read, [inRun] says that the
    code unit before was white space. *)
Fixpoint splitFrom (cur : jstr) (inRun : bool) (s : jstr) : list jstr :=
  match s with
  | [] => [cur]
  | c :: s' =>
      if isSpace c then (if inRun then [] else [cur]) ++ splitFrom [] true s'
      else splitFrom (cur ++ [c]) false s'
  end.

Definition splitSpaces (s : jstr) : list jstr := splitFrom [] false s.

(** [parts.join(" ")]. *)
Fixpoint joinSpace (l : list jstr) : jstr :=
  match l with
  | [] => []
  | [x] => x
  | x :: l' => x ++ [32%N] ++ joinSpace l'
  end.

(** [!!s] for a string. *)
Definition truthy (s : jstr) : bool :=
  match s with [] => false | _ => true end.

(** [countWords(s)]. *)
Definition countWords (s : jstr) : Z :=
  let t := trim s in
  if truthy t then Z.of_nat (length (filter (λ w, truthy w = true) (splitSpaces t)))
  else 0.

Definition banned : list jstr :=
  lit <$> ["imagen de"; "foto de"; "escena principal de la imagen";
           "contenido multimedia"; "imagen"; "foto"]%string.

(** The configuration members that [applyPostValidation] reads: the two
    switches as [!!cfg?.member], the four numbers as [Number(cfg?.member)]
    when that is finite ([None]: it is not), and integral. *)
Record VCfg := {
  postValidationEnabled : bool;
  postValidationRejectGeneric : bool;
  postValidationTitleMinWords : option Z;
  postValidationTitleMaxWords : option Z;
  postValidationAltMinChars : option Z;
  postValidationCaptionMinChars : option Z
}.

Record Fields := { alt : jstr; title : jstr; leyenda : jstr }.

(** The errors that [applyPostValidation] throws. *)
Inductive Invalid :=
| AltTooShort (n : Z)
| AltGeneric
| TitleTooShort (n : Z)
| TitleGeneric
| CaptionTooShort (n : Z)
| CaptionGeneric.

Section Generic.

(** [String.prototype.toLowerCase], the Unicode case mapping of the
    engine, is left open. *)
Variable toLowerCase : jstr → jstr.

(** [isGenericText(s)]. *)
Definition isGenericText (s : jstr) : bool :=
  let t := toLowerCase (trim s) in
  if truthy t then bool_decide (t ∈ banned) else true.

(** The checks of the ALT and of the title, run when the mode is not
    [caption]: the title to return, or the error thrown. *)
Definition checkAltTitle (cfg : VCfg) (f : Fields) (altAllowedEmpty : bool)
    : Invalid + jstr :=
  let rejectGeneric := postValidationRejectGeneric cfg in
  let titleMinWords := default 2 (postValidationTitleMinWords cfg) in
  let titleMaxWords := default 8 (postValidationTitleMaxWords cfg) in
  let altMinChars := default 0 (postValidationAltMinChars cfg) in
  if negb altAllowedEmpty && (0 <? altMinChars) && (Z.of_nat (length (alt f)) <? altMinChars)
  then inl (AltTooShort altMinChars)
  else if rejectGeneric && truthy (alt f) && isGenericText (alt f) then inl AltGeneric
  else
    let tw := countWords (title f) in
    if (0 <? tw) && (tw <? Z.max 1 titleMinWords) then inl (TitleTooShort titleMinWords)
    else
      let title' :=
        if Z.max titleMinWords titleMaxWords <? tw
        then joinSpace (take (Z.to_nat (Z.max 1 titleMaxWords)) (splitSpaces (title f)))
        else title f in
      if rejectGeneric && truthy title' && isGenericText title' then inl TitleGeneric
      else inr title'.

(** The checks of the caption, run when the mode is not [alt]. *)
Definition checkCaption (cfg : VCfg) (f : Fields) : option Invalid :=
  let captionMinChars := default 0 (postValidationCaptionMinChars cfg) in
  if (0 <? captionMinChars) && (Z.of_nat (length (leyenda f)) <? captionMinChars)
  then Some (CaptionTooShort captionMinChars)
  else if postValidationRejectGeneric cfg && truthy (leyenda f) && isGenericText (leyenda f)
  then Some CaptionGeneric
  else None.

(** [applyPostValidation(cfg, { mode, alt, title, leyenda, decorative,
    altAllowedEmpty })]: the texts to use, or the error thrown. *)
Definition applyPostValidation (cfg : VCfg) (mode : string) (f : Fields)
    (altAllowedEmpty : bool) : Invalid + Fields :=
  if negb (postValidationEnabled cfg) then inr f
  else
    let m := Js.or_else mode "both" in
    let titled :=
      if String.eqb m "caption" then inr (title f)
      else checkAltTitle cfg f altAllowedEmpty in
    match titled with
    | inl e => inl e
    | inr title' =>
        let out := {| alt := alt f; title := title'; leyenda := leyenda f |} in
        if String.eqb m "alt" then inr out
        else
          match checkCaption cfg f with
          | Some e => inl e
          | None => inr out
          end
    end.

End Generic.

(** The words of a text: its maximal pieces without white space. *)
Fixpoint wordsFrom (cur : jstr) (s : jstr) : list jstr :=
  match s with
  | [] => if truthy cur then [cur] else []
  | c :: s' =>
      if isSpace c then (if truthy cur then [cur] else []) ++ wordsFrom [] s'
      else wordsFrom (cur ++ [c]) s'
  end.

Definition words (s : jstr) : list jstr := wordsFrom [] s.

(** Pieces without white space. *)
Definition solid (w : jstr) : Prop := Forall (λ c, isSpace c = false) w.

(** The ASCII case mapping, for running the functions. *)
Definition lowerAscii (s : jstr) : jstr :=
  (λ c, if (65 <=? c) && (c <=? 90) then c + 32 else c)%N <$> s.

(** A configuration and texts to run the validation on. *)
Definition strictCfg : VCfg := {|
  postValidationEnabled := true; postValidationRejectGeneric := true;
  postValidationTitleMinWords := Some 2; postValidationTitleMaxWords := Some 3;
  postValidationAltMinChars := Some 0; postValidationCaptionMinChars := Some 0 |}.

Definition longTitle : Fields :=
  {| alt := lit "Un gato"; title := lit " uno dos tres cuatro cinco"; leyenda := lit "Foto" |}.

Definition cutTitle : Fields :=
  {| alt := lit "Un gato"; title := lit " uno dos"; leyenda := lit "Foto" |}.

End Validation.

(** * The history of results (util.js, background.js) *)

Module History.

(** [clampHistory(items, maxLen)] of util.js for an array [items];
    [maxLen] is [Number(maxLen)], [None] when that is not finite, and
    integral. *)
Definition clampHistory {A} (items : list A) (maxLen : option Z) : list A :=
  match maxLen with
  | None => items
  | Some n =>
      if (n <? 0) || (n =? 0) then items
      else Js.slice0 items (Z.max 0 (Js.toInt32 n))
  end.

(** What [analyzeImage] stores as the history when it is enabled:
    [clampHistory([record, ...stored], limit)], with the limit
    [Number(cfg.historyLimit)] when that is finite and 20 otherwise; and
    what it stores instead when the first write fails (quota):
    [clampHistory(history, 50)]. *)
Definition limitOf (historyLimit : option Z) : option Z := Some (default 20 historyLimit).

Definition storedHistory {A} (record : A) (stored : list A) (historyLimit : option Z)
    : list A :=
  clampHistory (record :: stored) (limitOf historyLimit).

Definition fallbackHistory {A} (record : A) (stored : list A) (historyLimit : option Z)
    : list A :=
  clampHistory (storedHistory record stored historyLimit) (Some 50).

End History.

(** * The debug log (background.js)

    [truncateStrings] and [addDebugLog], which the handlers call at every
    stage of a job. *)

Module DebugLog.

Import Text.

(** The values that the callers log: JSON-like trees.  An object is the
    list of its own enumerable properties in the order of
    [Object.entries]; no name occurs twice in it.  (The functions here do
    not look inside a number.) *)
#[local] Unset Elimination Schemes.
Inductive JVal :=
| JUndefined
| JNull
| JBool (b : bool)
| JNum (n : Z)
| JStr (s : jstr)
| JArr (items : list JVal)
| JObj (props : list (jstr * JVal)).
#[local] Set Elimination Schemes.

(** [!v]. *)
Definition falsyV (v : JVal) : bool :=
  match v with
  | JUndefined | JNull | JBool false | JNum 0 | JStr [] => true
  | _ => false
  end.

(** [s.includes(p)] for strings. *)
Fixpoint startsWith (p s : jstr) : bool :=
  match p, s with
  | [], _ => true
  | a :: p', c :: s' => (a =? c)%N && startsWith p' s'
  | _ :: _, [] => false
  end.

Fixpoint includesStr (p s : jstr) : bool :=
  startsWith p s ||
  match s with
  | [] => false
  | _ :: s' => includesStr p s'
  end.

(** [v.length > maxLen ? (v.slice(0, maxLen) + "...") : v], for an
    integral [maxLen]. *)
Definition truncateString (maxLen : Z) (v : jstr) : jstr :=
  if maxLen <? Z.of_nat (length v) then Js.slice0 v maxLen ++ lit "..." else v.

Section Truncate.

(** [String.prototype.toLowerCase], the Unicode case mapping of the
    engine, is left open. *)
Variable toLowerCase : jstr → jstr.

(** [k.toLowerCase().includes("apikey") || k.toLowerCase().includes("api_key")]. *)
Definition isSecretName (k : jstr) : bool :=
  includesStr (lit "apikey") (toLowerCase k) || includesStr (lit "api_key") (toLowerCase k).

(** [truncateStrings(obj, maxLen)]. *)
Fixpoint truncateStrings (maxLen : Z) (obj : JVal) : JVal :=
  match obj with
  | JArr items =>
      (* [obj.slice(0, 50).map(v => truncateStrings(v, maxLen))] *)
      JArr ((fix first (n : nat) (l : list JVal) : list JVal :=
               match n, l with
               | S n', v :: l' => truncateStrings maxLen v :: first n' l'
               | _, _ => []
               end) 50%nat items)
  | JObj props =>
      JObj ((fix go (l : list (jstr * JVal)) : list (jstr * JVal) :=
               match l with
               | [] => []
               | (k, v) :: l' =>
                   if isSecretName k then go l'
                   else
                     (k, match v with
                         | JStr s => JStr (truncateString maxLen s)
                         | JArr _ | JObj _ => truncateStrings maxLen v
                         | _ => v
                         end) :: go l'
               end) props)
  | _ => obj
  end.

(** One entry of the stored log: [{ ts, event, data }]. *)
Record Entry := { ts : string; event : string; data : JVal }.

(** [addDebugLog(cfg, event, data)]: what is written to the storage,
    [None] when nothing is.  [debugEnabled] is [cfg?.debugEnabled] as a
    boolean, [stored] the array read from the storage (empty when the
    stored value is not an array), [now] the value of [nowIso()]. *)
Definition addDebugLog (debugEnabled : bool) (stored : list Entry) (now : string)
    (ev : string) (d : JVal) : option (list Entry) :=
  if negb debugEnabled then None
  else
    let entry := {| ts := now; event := ev;
                    data := truncateStrings 500 (if falsyV d then JObj [] else d) |} in
    Some (take 50 (entry :: stored)).

End Truncate.

(** Does an object with a property of a secret name occur in the value? *)
Fixpoint leaks (secret : jstr → bool) (v : JVal) : bool :=
  match v with
  | JArr items =>
      (fix any (l : list JVal) : bool :=
         match l with
         | [] => false
         | w :: l' => leaks secret w || any l'
         end) items
  | JObj props =>
      (fix any (l : list (jstr * JVal)) : bool :=
         match l with
         | [] => false
         | (k, w) :: l' => secret k || leaks secret w || any l'
         end) props
  | _ => false
  end.

(** Is every string that is a property of an object in the value at most
    [n] code units long, and has every array at most 50 items? *)
Fixpoint bounded (n : Z) (v : JVal) : bool :=
  match v with
  | JArr items =>
      (length items <=? 50)%nat &&
      (fix all (l : list JVal) : bool :=
         match l with
         | [] => true
         | w :: l' => bounded n w && all l'
         end) items
  | JObj props =>
      (fix all (l : list (jstr * JVal)) : bool :=
         match l with
         | [] => true
         | (_, w) :: l' =>
             match w with
             | JStr s => Z.of_nat (length s) <=? n
             | _ => bounded n w
             end && all l'
         end) props
  | _ => true
  end.

(** The ASCII case mapping, and a value to run the functions on. *)
Definition lowerAscii (s : jstr) : jstr :=
  (λ c, if (65 <=? c) && (c <=? 90) then c + 32 else c)%N <$> s.

Definition loggedSample : JVal :=
  JObj [(lit "a", JStr (lit "abcdef")); (lit "myApiKey", JStr (lit "s"));
        (lit "l", JArr [JStr (lit "abcdef");
                        JObj [(lit "api_key", JNum 1); (lit "b", JStr (lit "xyzw"))]])].

Definition loggedResult : JVal :=
  JObj [(lit "a", JStr (lit "abc..."));
        (lit "l", JArr [JStr (lit "abcdef"); JObj [(lit "b", JStr (lit "xyz..."))]])].

End DebugLog.

(** * The metrics (background.js, [addMetricsSample])

    The counters that the handlers add to after every analysis or failed
    job, and that the options page shows. *)

Module Metrics.

(** [{ calls, ok, error }]: an entry of [bySource] and of [byMode]. *)
Record Counts := { calls : Z; ok : Z; error : Z }.

(** [metrics.total]. *)
Record Totals := { t_calls : Z; t_ok : Z; t_error : Z; t_totalMs : Z }.

(** An entry of [byProviderModel]. *)
Record PerModel := {
  provider : string;
  model : string;
  pm_calls : Z;
  pm_ok : Z;
  pm_error : Z;
  pm_totalMs : Z;
  pm_lastAt : Z;
  pm_lastError : string
}.

(** The stored [metrics] object; a member that is absent is [None].  The
    three tables are objects used as maps: the names [source] and [mode]
    that index them are taken not to be members of [Object.prototype]
    (the names of [byProviderModel] contain [::] and never are). *)
Record Stored := {
  total : option Totals;
  byProviderModel : option (gmap string PerModel);
  bySource : option (gmap string Counts);
  byMode : option (gmap string Counts);
  updatedAt : option string
}.

(** [{}]: what is used when the storage holds no metrics. *)
Definition noMetrics : Stored :=
  {| total := None; byProviderModel := None; bySource := None; byMode := None;
     updatedAt := None |}.

(** The members of [cfg] and of [sample] that are read; a string member
    that is absent or empty is the empty string, [s_ok] is [!!sample?.ok],
    [s_ms] is [Number(sample?.ms || 0)], integral. *)
Record MCfg := { cfg_provider : string; cfg_model : string; cfg_localModel : string }.

Record Sample := {
  s_provider : string;
  s_model : string;
  s_ok : bool;
  s_ms : Z;
  s_mode : string;
  s_source : string;
  s_error : string
}.

Definition isLocal (p : string) : bool :=
  String.eqb p "local_ollama" || String.eqb p "local_openai".

Definition providerOf (cfg : MCfg) (sample : Sample) : string :=
  Js.or_else (s_provider sample) (Js.or_else (cfg_provider cfg) "unknown").

Definition modelOf (cfg : MCfg) (sample : Sample) : string :=
  Js.or_else (s_model sample)
    (if isLocal (providerOf cfg sample)
     then Js.or_else (cfg_localModel cfg) (cfg_model cfg)
     else cfg_model cfg).

Definition keyOf (cfg : MCfg) (sample : Sample) : string :=
  providerOf cfg sample +:+ "::" +:+ modelOf cfg sample.

(** [c.calls += 1; if (ok) c.ok += 1; else c.error += 1]. *)
Definition count (isOk : bool) (c : Counts) : Counts :=
  {| calls := calls c + 1;
     ok := if isOk then ok c + 1 else ok c;
     error := if isOk then error c else error c + 1 |}.

Definition noCounts : Counts := {| calls := 0; ok := 0; error := 0 |}.

Definition countIn (isOk : bool) (name : string) (m : option (gmap string Counts))
    : option (gmap string Counts) :=
  let tbl := default ∅ m in
  Some (<[name := count isOk (default noCounts (tbl !! name))]> tbl).

(** [addMetricsSample(cfg, sample)]: the [metrics] object that is written
    back; [now] is [Date.now()] and [iso] is [nowIso()]. *)
Definition addMetricsSample (cfg : MCfg) (sample : Sample) (now : Z) (iso : string)
    (metrics : Stored) : Stored :=
  let provider := providerOf cfg sample in
  let model := modelOf cfg sample in
  let isOk := s_ok sample in
  let ms := Z.max 0 (s_ms sample) in
  let mode := Js.or_else (s_mode sample) "both" in
  let source := Js.or_else (s_source sample) "manual" in
  let key := keyOf cfg sample in
  let t := default {| t_calls := 0; t_ok := 0; t_error := 0; t_totalMs := 0 |}
                   (total metrics) in
  let t' := {| t_calls := t_calls t + 1;
               t_ok := if isOk then t_ok t + 1 else t_ok t;
               t_error := if isOk then t_error t else t_error t + 1;
               t_totalMs := t_totalMs t + ms |} in
  let tbl := default ∅ (byProviderModel metrics) in
  let pm := default {| provider := provider; model := model; pm_calls := 0; pm_ok := 0;
                       pm_error := 0; pm_totalMs := 0; pm_lastAt := 0;
                       pm_lastError := "" |} (tbl !! key) in
  let pm' := {| provider := Metrics.provider pm; model := Metrics.model pm;
                pm_calls := pm_calls pm + 1;
                pm_ok := if isOk then pm_ok pm + 1 else pm_ok pm;
                pm_error := if isOk then pm_error pm else pm_error pm + 1;
                pm_totalMs := pm_totalMs pm + ms;
                pm_lastAt := now;
                pm_lastError := if isOk then pm_lastError pm else s_error sample |} in
  {| total := Some t';
     byProviderModel := Some (<[key := pm']> tbl);
     bySource := countIn isOk source (bySource metrics);
     byMode := countIn isOk mode (byMode metrics);
     updatedAt := Some iso |}.

(** The sums over a table. *)
Definition sumOver {A} (f : A → Z) (m : option (gmap string A)) : Z :=
  map_fold (λ _ x acc, f x + acc) 0 (default ∅ m).

Definition totalOf (f : Totals → Z) (metrics : Stored) : Z :=
  match total metrics with Some t => f t | None => 0 end.

(** The stored metrics add up: in the total and in every entry
    [calls = ok + error], no counter is negative, and each of the three
    tables breaks the totals down. *)
Record Consistent (m : Stored) : Prop := {
  co_total : totalOf t_calls m = totalOf t_ok m + totalOf t_error m ∧
             0 ≤ totalOf t_ok m ∧ 0 ≤ totalOf t_error m ∧ 0 ≤ totalOf t_totalMs m;
  co_model : sumOver pm_calls (byProviderModel m) = totalOf t_calls m ∧
             sumOver pm_ok (byProviderModel m) = totalOf t_ok m ∧
             sumOver pm_error (byProviderModel m) = totalOf t_error m ∧
             sumOver pm_totalMs (byProviderModel m) = totalOf t_totalMs m;
  co_source : sumOver calls (bySource m) = totalOf t_calls m ∧
              sumOver ok (bySource m) = totalOf t_ok m ∧
              sumOver error (bySource m) = totalOf t_error m;
  co_mode : sumOver calls (byMode m) = totalOf t_calls m ∧
            sumOver ok (byMode m) = totalOf t_ok m ∧
            sumOver error (byMode m) = totalOf t_error m
}.

(** The sample of a failed auto-upload job, and one of a successful
    analysis. *)
Definition failedSample : Sample :=
  {| s_provider := ""; s_model := ""; s_ok := false; s_ms := 0; s_mode := "both";
     s_source := "auto_upload"; s_error := "boom" |}.

Definition okSample : Sample :=
  {| s_provider := "openai"; s_model := "gpt-5-mini"; s_ok := true; s_ms := 1200;
     s_mode := "both"; s_source := "auto_upload"; s_error := "" |}.

Definition someCfg : MCfg :=
  {| cfg_provider := "openai"; cfg_model := "gpt-5-mini"; cfg_localModel := "" |}.

End Metrics.

(** * The trigger of the content script and the answers to it
    (context_helper.js, [maybeAutoProcessUploadedAttachment]) *)

Module Trigger.

Import Tracker.

(** What the callback of [chrome.runtime.sendMessage] reads:
    [!!chrome.runtime.lastError], [!!res?.skipped], [String(res?.reason ||
    empty)] and [!!res?.ok]. *)
Record Answer := {
  hadRuntimeError : bool;
  isSkipped : bool;
  reason : string;
  resOk : bool
}.

Definition set_trigger (t : bool) (r : Z) (m : Meta) : Meta :=
  {| firstSeenAt := firstSeenAt m; sawUploading := sawUploading m; triggered := t;
     retries := r; initialScan := initialScan m |}.

(** The callback, on the [meta] object of the attachment: the object after
    it, and whether a new attempt is scheduled for 900 ms later. *)
Definition onAnswer (a : Answer) (m : Meta) : Meta * bool :=
  if isSkipped a then
    (set_trigger (if negb (String.eqb (reason a) "duplicate") then false else triggered m) 0 m,
     false)
  else if hadRuntimeError a || negb (resOk a) then
    (set_trigger false (retries m + 1) m, retries m + 1 <=? 3)
  else (set_trigger (triggered m) 0 m, false).

(** The callback for the message sent for attachment [id]: [meta] is the
    entry of [AUTO_UPLOAD.byId], which is never removed or replaced. *)
Definition answered (id : string) (a : Answer) (u : AutoUpload) : AutoUpload * bool :=
  match byId u !! id with
  | Some m => (set_byId (<[id := (onAnswer a m).1]> (byId u)) u, (onAnswer a m).2)
  | None => (u, false)
  end.

(** A message for the attachment has been sent and not answered in a way
    that allows another. *)
Definition inFlight (id : string) (u : AutoUpload) : Prop :=
  ∃ m, byId u !! id = Some m ∧ triggered m = true.

Definition failure : Answer :=
  {| hadRuntimeError := false; isSkipped := false; reason := ""; resOk := false |}.

Definition skippedAs (r : string) : Answer :=
  {| hadRuntimeError := false; isSkipped := true; reason := r; resOk := false |}.

Definition success : Answer :=
  {| hadRuntimeError := false; isSkipped := false; reason := ""; resOk := true |}.

(** The [meta] object after [k] failures in a row, and whether the last of
    them scheduled a new attempt. *)
Fixpoint afterFailures (k : nat) (m : Meta) : Meta * bool :=
  match k with
  | O => (m, false)
  | S k' => onAnswer failure (afterFailures k' m).1
  end.

(** The [meta] object of an attachment whose message was just sent. *)
Definition freshMeta : Meta :=
  {| firstSeenAt := 1700000010100; sawUploading := true; triggered := true;
     retries := 0; initialScan := false |}.

End Trigger.

(** The tracker of [uploadingRun] after the message for attachment 41 is
    sent. *)
Definition sentRun : Tracker.AutoUpload :=
  (Tracker.maybeAutoProcessUploadedAttachment (trackerBootAt + 12000) (uploadingEl "41")
     (Some "https://example.org/a.jpg") uploadingRun).2.

(** * The configuration and its cache (background.js)

    [readConfigFromStorage] and the [chrome.storage.onChanged] listener
    that keeps the cached configuration, which every handler reads through
    [getConfigCached], up to date. *)

Module Config.

Import Text DebugLog.

(** An object of the storage is the map of its members by name. *)

Definition DEFAULT_SYNC_CFG : gmap string JVal :=
  list_to_map
    [("language", JStr (lit "es-ES")); ("languageAutoEsEs", JBool false);
     ("seoProfile", JStr (lit "blog")); ("wpAutoApply", JBool false);
     ("wpAutoApplyRequireMedia", JBool true); ("wpAutoAnalyzeOnUpload", JBool false);
     ("autoAnalyzeOnSelectMedia", JBool false);
     ("autoDeselectProcessedOnAutoFill", JBool false);
     ("onCompleteAction", JStr (lit "none")); ("onCompleteScope", JStr (lit "wp"));
     ("historyLimit", JNum 20); ("historyEnabled", JBool true);
     ("generateMode", JStr (lit "both")); ("altMaxLength", JNum 125);
     ("avoidImagePrefix", JBool true); ("allowDecorativeAltEmpty", JBool false);
     ("captionTemplateEnabled", JBool false);
     ("captionTemplate", JStr (lit "{{caption}}")); ("captionSignatureText", JStr []);
     ("autoCaptionSignatureOnAutoFill", JBool false); ("autoQueueModeVisible", JBool true);
     ("autoUploadSafetyFuseEnabled", JBool true); ("autoUploadSafetyFuseMaxQueued", JNum 24);
     ("postValidationEnabled", JBool false); ("postValidationRejectGeneric", JBool true);
     ("postValidationTitleMinWords", JNum 2); ("postValidationTitleMaxWords", JNum 8);
     ("postValidationAltMinChars", JNum 0); ("postValidationCaptionMinChars", JNum 0);
     ("debugEnabled", JBool false); ("shortcutEnabled", JBool false);
     ("syncApiKey", JBool false); ("provider", JStr (lit "openai"));
     ("model", JStr (lit "gpt-5-mini")); ("prompt", JStr []);
     ("localEndpoint", JStr []); ("localModel", JStr [])]%string.

Definition DEFAULT_LOCAL_CFG : gmap string JVal :=
  list_to_map [("apiKey", JStr []); ("metrics", JObj [])]%string.

(** [chrome.storage.local.get(defaults)]: for every name of [defaults] the
    stored value, or the default when nothing is stored under the name. *)
Definition getWithDefaults (defaults stored : (gmap string JVal)) : gmap string JVal :=
  map_imap (λ k d, Some (default d (stored !! k))) defaults.

(** [o?.name || empty string]. *)
Definition orEmpty (o : option JVal) : JVal :=
  match o with
  | Some v => if falsyV v then JStr [] else v
  | None => JStr []
  end.

(** [!!o.name]. *)
Definition truthyAt (o : gmap string JVal) (name : string) : bool :=
  match o !! name with
  | Some v => negb (falsyV v)
  | None => false
  end.

(** The API key that [readConfigFromStorage] chooses. *)
Definition effectiveApiKey (syncStored localStored : gmap string JVal) : JVal :=
  let syncCfg := syncStored ∪ DEFAULT_SYNC_CFG in
  let localCfg := getWithDefaults DEFAULT_LOCAL_CFG localStored in
  let apiKeySync := orEmpty (syncStored !! "apiKey"%string) in
  let apiKeyLocal := orEmpty (localCfg !! "apiKey"%string) in
  let apiKey := if truthyAt syncCfg "syncApiKey" then apiKeySync else apiKeyLocal in
  if falsyV apiKey then (if falsyV apiKeySync then apiKeyLocal else apiKeySync)
  else apiKey.

(** [readConfigFromStorage()], from what [chrome.storage.sync.get(null)]
    returns and what the local area stores. *)
Definition readConfigFromStorage (syncStored localStored : gmap string JVal) : gmap string JVal :=
  let syncCfg := syncStored ∪ DEFAULT_SYNC_CFG in
  let localCfg := getWithDefaults DEFAULT_LOCAL_CFG localStored in
  <["apiKey"%string := effectiveApiKey syncStored localStored]> (localCfg ∪ syncCfg).

(** One member of the [changes] object of a storage event: ["newValue" in
    change] and [change.newValue]. *)
Record Change := { hasNewValue : bool; newValue : JVal }.

Definition allowedKey (key : string) : bool :=
  bool_decide (is_Some (DEFAULT_SYNC_CFG !! key)) ||
  bool_decide (is_Some (DEFAULT_LOCAL_CFG !! key)).

Section Listener.

(** [String(v)] for a value that is not a string is left open. *)
Variable toString : JVal → jstr.

Definition stringOf (v : JVal) : jstr :=
  match v with
  | JStr s => s
  | _ => toString v
  end.

(** The body of the loop of the listener for one member of [changes]:
    [None] when the cache is dropped and the listener returns. *)
Definition applyChange (area : string) (cache : gmap string JVal) (key : string) (change : Change)
    : option (gmap string JVal) :=
  if String.eqb key "syncApiKey" then None
  else if String.eqb key "apiKey" then
    let useSync :=
      match cache !! "syncApiKey"%string with Some (JBool true) => true | _ => false end in
    let shouldApply :=
      String.eqb area "sync" && useSync || String.eqb area "local" && negb useSync in
    if shouldApply then
      let nv := newValue change in
      Some (<["apiKey"%string :=
                JStr (match nv with
                      | JUndefined | JNull => []
                      | _ => stringOf nv
                      end)]> cache)
    else Some cache
  else if negb (allowedKey key) then Some cache
  else if hasNewValue change then
    match newValue change with
    | JUndefined =>
        match DEFAULT_SYNC_CFG !! key with
        | Some d => Some (<[key := d]> cache)
        | None =>
            match DEFAULT_LOCAL_CFG !! key with
            | Some d => Some (<[key := d]> cache)
            | None => Some (delete key cache)
            end
        end
    | nv => Some (<[key := nv]> cache)
    end
  else Some cache.

Fixpoint applyChanges (area : string) (cache : gmap string JVal) (changes : list (string * Change))
    : option (gmap string JVal) :=
  match changes with
  | [] => Some cache
  | (key, change) :: rest =>
      match applyChange area cache key change with
      | Some cache' => applyChanges area cache' rest
      | None => None
      end
  end.

(** The listener: the cache after the event ([None]: not populated);
    [changes] are the members of the event's object in the order of
    [Object.entries]. *)
Definition onChanged (area : string) (changes : list (string * Change))
    (cache : option (gmap string JVal)) : option (gmap string JVal) :=
  if negb (String.eqb area "sync" || String.eqb area "local") then cache
  else
    match cache with
    | None => None
    | Some c => applyChanges area c changes
    end.

End Listener.

(** The storage area after the changes of an event: a member with a new
    value is stored, a member without is removed. *)
Definition store (changes : list (string * Change)) (stored : (gmap string JVal)) : gmap string JVal :=
  foldl (λ m kc, match newValue kc.2 with
                 | JUndefined => delete kc.1 m
                 | nv => <[kc.1 := nv]> m
                 end) stored changes.

(** A change of a setting, as the options page writes it: a name of
    [DEFAULT_SYNC_CFG] other than [syncApiKey], with a new value or
    removed. *)
Definition settingChange (kc : string * Change) : Prop :=
  is_Some (DEFAULT_SYNC_CFG !! kc.1) ∧ kc.1 ≠ "syncApiKey"%string ∧
  hasNewValue kc.2 = true.

(** A sync area with a language and an API key, while [syncApiKey] is off;
    and an event that removes the language and sets the ALT limit. *)
Definition syncOnly : gmap string JVal :=
  list_to_map [("language", JStr (lit "en-GB")); ("apiKey", JStr (lit "sk-1"))]%string.

Definition languageChanges : list (string * Change) :=
  [("language", {| hasNewValue := true; newValue := JUndefined |});
   ("altMaxLength", {| hasNewValue := true; newValue := JNum 90 |})]%string.

End Config.

(** * Facts about the helpers *)

Section JsFacts.

Lemma falsy_true x : Js.falsy x = true ↔ x = EmptyString.
Proof. unfold Js.falsy. apply bool_decide_eq_true. Qed.

Lemma falsy_false x : Js.falsy x = false ↔ x ≠ EmptyString.
Proof. unfold Js.falsy. apply bool_decide_eq_false. Qed.

Lemma includes_spec x l : Js.includes x l = true ↔ x ∈ l.
Proof.
  unfold Js.includes. rewrite bool_decide_eq_true.
  induction l as [|y l IH]; simpl.
  - split; [intros [? [=]] | inversion 1].
  - case_bool_decide; subst.
    + split; [intros _; left | eauto].
    + rewrite fmap_is_Some, IH. split; [by right | inversion 1; subst; done].
Qed.

Lemma indexOf_Some x l i :
  Js.indexOf x l = Some i → l !! i = Some x ∧ x ∉ take i l.
Proof.
  revert i. induction l as [|y l IH]; simpl; intros i; [done|].
  case_bool_decide; subst.
  - intros [= <-]. split; [done|]. simpl. inversion 1.
  - destruct (Js.indexOf x l) eqn:E; simpl; [|done]. intros [= <-].
    destruct (IH _ eq_refl) as [? ?]. split; [done|]. simpl.
    rewrite not_elem_of_cons. done.
Qed.

Lemma indexOf_None x l : Js.indexOf x l = None → x ∉ l.
Proof.
  induction l as [|y l IH]; simpl; [inversion 2|].
  case_bool_decide; [done|]. destruct (Js.indexOf x l); [done|].
  intros _. rewrite not_elem_of_cons. auto.
Qed.

Lemma toInt32_small n : - 2 ^ 31 ≤ n < 2 ^ 31 → Js.toInt32 n = n.
Proof. intros H. unfold Js.toInt32. rewrite Z.mod_small; lia. Qed.

Lemma slice0_8 {A} (l : list A) : Js.slice0 l (Z.max 1 (Js.toInt32 8)) = take 8 l.
Proof. reflexivity. Qed.

End JsFacts.

(** ** The pending-id list *)

Lemma goodIds_nil : goodIds [].
Proof. split; [constructor | inversion 1]. Qed.

Lemma goodIds_delete i l : goodIds l → goodIds (delete i l).
Proof.
  intros [Hnd Hne]. split.
  - eapply sublist_NoDup; [exact Hnd | apply sublist_delete].
  - intros Hin. apply Hne. eapply elem_of_sublist; [apply Hin | apply sublist_delete].
Qed.

Lemma goodIds_snoc x l : goodIds l → x ≠ EmptyString → x ∉ l → goodIds (l ++ [x]).
Proof.
  intros [Hnd Hne] Hx Hin. split.
  - apply NoDup_app. split_and!; [done | | apply NoDup_singleton].
    intros y Hy ->%list_elem_of_singleton. done.
  - rewrite elem_of_app, list_elem_of_singleton. intros [?|?]; [done | by subst].
Qed.


(** ** The stateful helpers as compositions of field updates *)

Lemma getAutoPendingIds_eq s :
  getAutoPendingIds s = (pend s, set_pendingIdsByTab (Some (pend s)) s).
Proof. unfold getAutoPendingIds, pend. destruct s as [? ? ? ? ? [l|]]; reflexivity. Qed.

Lemma enqueueAutoPendingId_eq id s :
  enqueueAutoPendingId id s = set_pendingIdsByTab (pushOpt id (pendingIdsByTab s)) s.
Proof.
  unfold enqueueAutoPendingId, pushOpt, pushId. rewrite getAutoPendingIds_eq.
  destruct (Js.falsy id); [by destruct s|]. unfold pend.
  destruct (Js.includes id _); reflexivity.
Qed.

Lemma dequeueAutoPendingId_eq id s :
  dequeueAutoPendingId id s = set_pendingIdsByTab (dropOpt id (pendingIdsByTab s)) s.
Proof.
  unfold dequeueAutoPendingId, dropOpt, dropId. rewrite getAutoPendingIds_eq.
  destruct (Js.falsy id); [by destruct s|]. unfold pend.
  destruct (Js.indexOf id _); reflexivity.
Qed.

Lemma pushOpt_default id o : default [] (pushOpt id o) = pushId id (default [] o).
Proof. unfold pushOpt, pushId. by destruct (Js.falsy id). Qed.

Lemma dropOpt_default id o : default [] (dropOpt id o) = dropId id (default [] o).
Proof. unfold dropOpt, dropId. by destruct (Js.falsy id). Qed.

Lemma queuePreviewFromTab_eq s :
  queuePreviewFromTab 8 s = (take 8 (pend s), set_pendingIdsByTab (Some (pend s)) s).
Proof. unfold queuePreviewFromTab. rewrite getAutoPendingIds_eq. reflexivity. Qed.

Lemma sendAutoUploadProgress_eq p s :
  sendAutoUploadProgress p s =
  set_log (log s ++ [Progress {| queue := take 8 (pend s);
                                 paused := isTrue (pausedByTab s);
                                 payload := p |}])
          (set_pendingIdsByTab (Some (pend s)) s).
Proof. unfold sendAutoUploadProgress. rewrite queuePreviewFromTab_eq. reflexivity. Qed.

Lemma getAutoUploadStats_eq s :
  getAutoUploadStats s =
  (statAddr s,
   set_heap (alter (touch (now s)) (statAddr s) (heapWithStats s))
            (set_statsByTab (Some (statAddr s)) s)).
Proof.
  unfold getAutoUploadStats, statAddr, heapWithStats, upd_stat.
  destruct s as [? [addr|]]; reflexivity.
Qed.

Lemma wasRecentlyAutoProcessed_eq id s :
  wasRecentlyAutoProcessed id ttlMs s =
  (recent id s, set_seenByTab (evict (now s) ttlMs <$> seenByTab s) s).
Proof.
  unfold wasRecentlyAutoProcessed, recent, recentIn, evict.
  destruct s as [[m|]]; cbn; [|reflexivity].
  destruct (Js.falsy id); cbn; [reflexivity|]. case_match; reflexivity.
Qed.

Lemma pushId_good id l : goodIds l → goodIds (pushId id l).
Proof.
  intros H. unfold pushId. destruct (Js.falsy id) eqn:Hf; [done|].
  destruct (Js.includes id l) eqn:Hi; [done|].
  apply goodIds_snoc; [done | by apply falsy_false |].
  intros Hin%includes_spec. congruence.
Qed.

Lemma dropId_good id l : goodIds l → goodIds (dropId id l).
Proof.
  intros H. unfold dropId. destruct (Js.falsy id); [done|].
  case_match; [by apply goodIds_delete | done].
Qed.

(** Without duplicates, [dequeueAutoPendingId] leaves no occurrence. *)
Lemma dropId_gone id l : NoDup l → id ≠ EmptyString → id ∉ dropId id l.
Proof.
  intros Hnd Hid. unfold dropId. rewrite (proj2 (falsy_false id) Hid).
  destruct (Js.indexOf id l) as [i|] eqn:E; [|by apply indexOf_None].
  apply indexOf_Some in E as [Hi Hpre].
  rewrite delete_take_drop. rewrite elem_of_app. intros [?|Hin]; [done|].
  rewrite <- (take_drop_middle l i id Hi) in Hnd.
  apply NoDup_app in Hnd as (_ & _ & Hnd). apply NoDup_cons in Hnd as [? _]. done.
Qed.

Lemma markAutoProcessed_eq id s :
  markAutoProcessed id s = set_seenByTab (markSeen id (now s) (seenByTab s)) s.
Proof.
  unfold markAutoProcessed, markSeen. destruct (Js.falsy id); [|reflexivity].
  by destruct s.
Qed.

Lemma unmarkAutoProcessed_eq id s :
  unmarkAutoProcessed id s = set_seenByTab (unmarkSeen id (seenByTab s)) s.
Proof.
  unfold unmarkAutoProcessed, unmarkSeen. destruct (Js.falsy id); [by destruct s|].
  by destruct s as [[m|]].
Qed.

Lemma unmarkIf_eq (b : bool) id s :
  (if b then unmarkAutoProcessed id s else s) =
  set_seenByTab (unmarkIf b id (seenByTab s)) s.
Proof.
  unfold unmarkIf. destruct b; [apply unmarkAutoProcessed_eq | by destruct s].
Qed.

Lemma alter_insert {A} (f : A → A) (l : list A) i x :
  l !! i = Some x → alter f i l = <[i := f x]> l.
Proof.
  revert i. induction l as [|y l IH]; intros [|i]; simpl; try done.
  - by intros [= ->].
  - intros H. f_equal. by apply IH.
Qed.

Lemma alter_snoc {A} (f : A → A) (l : list A) x :
  alter f (length l) (l ++ [x]) = l ++ [f x].
Proof. induction l as [|y l IH]; simpl; [done|]. by f_equal. Qed.

(** * Case analysis of a step *)

Ltac canon_in H :=
  rewrite ?unmarkIf_eq, ?markAutoProcessed_eq,
    ?sendAutoUploadProgress_eq, ?getAutoUploadStats_eq, ?wasRecentlyAutoProcessed_eq,
    ?enqueueAutoPendingId_eq, ?dequeueAutoPendingId_eq in H.

Ltac unseg_in H :=
  unfold receive, onCancel, onPause, onResume, fireReset, resetCallback, wake, runMicro,
    admission, catch, catchCancelled, catchError, chainJob, enqueueAutoUploadJob, startJob,
    waitIfAutoUploadPaused, afterPause, throwCancelled, settle, afterAttempt, doneItem,
    closeQueue, resetAutoUploadStatsLater, respond, goto, emit, upd_act, upd_stat in H.

Ltac split_in H :=
  match type of H with
  | context [match ?x with _ => _ end] =>
      is_var x; destruct x
  | context [match ?x with _ => _ end] =>
      lazymatch x with
      | context [match _ with _ => _ end] => fail
      | _ => destruct x eqn:?
      end
  end.

(** Every branch of [step], with the helpers in the form of field updates:
    [Hs : step s e = Some s'] is taken apart and [s'] replaced by what the
    branch computes. *)
Ltac step_cases Hs :=
  unfold step in Hs;
  repeat (unseg_in Hs; canon_in Hs; cbn in Hs; try discriminate Hs; try split_in Hs);
  try discriminate Hs;
  apply (inj Some) in Hs; subst.

(** * The pending-id list and the queue preview *)

Lemma newEffects_app s s' l : log s' = log s ++ l → newEffects s s' = l.
Proof. unfold newEffects. intros ->. by rewrite drop_app_length. Qed.

Lemma step_pend s e s' :
  step s e = Some s' →
  pendNext (pend s) (pend s') ∧
  log s' = log s ++ newEffects s s' ∧
  ∀ m, Progress m ∈ newEffects s s' → queue m = take 8 (pend s').
Proof.
  intros Hs. step_cases Hs.
  all: unfold pendNext, pend, newEffects in *; cbn.
  all: rewrite ?drop_app_length, ?drop_all, ?app_nil_r, ?pushOpt_default, ?dropOpt_default.
  all: split_and!; [eauto 6 | done |].
  all: intros pm; rewrite ?elem_of_nil, ?list_elem_of_singleton; try done.
  all: try (intros [= <-]; cbn; done).
  all: rewrite ?elem_of_cons, ?elem_of_nil; naive_solver.
Qed.

Lemma pendNext_good l l' : pendNext l l' → goodIds l → goodIds l'.
Proof.
  intros [->|[->|[id [->| ->]]]] H;
    eauto using goodIds_nil, pushId_good, dropId_good.
Qed.

Lemma run_snoc s tr e :
  run s (tr ++ [e]) = match run s tr with Some s' => step s' e | None => None end.
Proof.
  revert s. induction tr as [|e' tr IH]; intros s; simpl.
  - by destruct (step s e).
  - destruct (step s e'); [apply IH | done].
Qed.

(** Induction on the way a state was reached. *)
Lemma reachable_ind (P : TabState → Prop) :
  (∀ t0, P (init t0)) →
  (∀ s e s', reachable s → P s → step s e = Some s' → P s') →
  ∀ s, reachable s → P s.
Proof.
  intros Hinit Hstep s (t0 & tr & Hrun). revert s Hrun.
  induction tr as [|e tr IH] using rev_ind; intros s Hrun.
  - simpl in Hrun. by simplify_eq.
  - rewrite run_snoc in Hrun. destruct (run (init t0) tr) as [s0|] eqn:E; [|done].
    eapply Hstep; [by exists t0, tr | by apply IH | done].
Qed.

Lemma reachable_step s e s' : reachable s → step s e = Some s' → reachable s'.
Proof.
  intros (t0 & tr & Hrun) Hs. exists t0, (tr ++ [e]). by rewrite run_snoc, Hrun.
Qed.

Lemma reachable_goodIds s : reachable s → goodIds (pend s).
Proof.
  induction 1 as [t0|s e s' _ IH Hs] using reachable_ind.
  - apply goodIds_nil.
  - eapply pendNext_good; [by apply (step_pend s e s') | done].
Qed.

(** * The job chain *)

Ltac bool_hyps :=
  repeat match goal with
  | H : bool_decide _ = true |- _ => apply bool_decide_eq_true in H
  | H : bool_decide _ = false |- _ => apply bool_decide_eq_false in H
  end.




(** * The chain invariant *)






















(** * First in, first out *)













Lemma reachable_after tr : run (init 1000) tr ≠ None → reachable (after tr).
Proof.
  intros H. exists 1000%positive, tr. unfold after.
  by destruct (run (init 1000) tr).
Qed.


(** * The pending-id list and the queue preview *)

Lemma pend_enqueueAutoPendingId id s :
  pend (enqueueAutoPendingId id s) = pushId id (pend s).
Proof.
  rewrite enqueueAutoPendingId_eq. unfold pend. cbn. apply pushOpt_default.
Qed.

Lemma pushId_noop id l : id = EmptyString ∨ id ∈ l → pushId id l = l.
Proof.
  unfold pushId. intros [->|Hin]; [done|].
  destruct (Js.falsy id); [done|]. by rewrite (proj2 (includes_spec id l) Hin).
Qed.

(** C10. In every state the tab can reach the pending-id list holds no empty
    id and no id twice, [enqueueAutoPendingId] does nothing for an empty id
    or an id already in the list, and the queue preview of every progress
    message a step sends is a prefix, of length at most 8, of the list as
    the step leaves it. *)
Theorem pending_ids_and_preview s e s' m :
  reachable s → step s e = Some s' →
  goodIds (pend s) ∧ goodIds (pend s') ∧
  (∀ id, id = EmptyString ∨ id ∈ pend s → pend (enqueueAutoPendingId id s) = pend s) ∧
  (Progress m ∈ newEffects s s' →
   queue m `prefix_of` pend s' ∧ (length (queue m) ≤ 8)%nat).
Proof.
  intros Hr Hs. split_and!.
  - by apply reachable_goodIds.
  - apply reachable_goodIds. by eapply reachable_step.
  - intros id Hid. rewrite pend_enqueueAutoPendingId. by apply pushId_noop.
  - intros Hm. apply step_pend in Hs as (_ & _ & Hq). rewrite (Hq m Hm).
    split; [apply prefix_take | rewrite length_take; lia].
Qed.

Lemma pending_ids_and_preview_witness :
  reachable (after previewRun) ∧
  step (after previewRun) (Wake 1 (RCfg defaultCfg)) =
    Some (after (previewRun ++ [Wake 1 (RCfg defaultCfg)])) ∧
  Progress previewMsg ∈
    newEffects (after previewRun) (after (previewRun ++ [Wake 1 (RCfg defaultCfg)])) ∧
  goodIds (pend (after (previewRun ++ [Wake 1 (RCfg defaultCfg)]))) ∧
  queue previewMsg `prefix_of` pend (after (previewRun ++ [Wake 1 (RCfg defaultCfg)])) ∧
  (length (queue previewMsg) ≤ 8)%nat.
Proof.
  assert (reachable (after previewRun)) as Hr
    by (apply reachable_after; vm_compute; discriminate).
  assert (step (after previewRun) (Wake 1 (RCfg defaultCfg)) =
            Some (after (previewRun ++ [Wake 1 (RCfg defaultCfg)]))) as Hs
    by (vm_compute; reflexivity).
  assert (Progress previewMsg ∈
            newEffects (after previewRun) (after (previewRun ++ [Wake 1 (RCfg defaultCfg)])))
    as Hm by (vm_compute; apply list_elem_of_singleton; reflexivity).
  destruct (pending_ids_and_preview _ _ _ previewMsg Hr Hs) as (_ & Hg & _ & Hp).
  split; [exact Hr|]. split; [exact Hs|]. split; [exact Hm|]. split; [exact Hg|].
  exact (Hp Hm).
Defined.

(** * Well-formedness of the reachable states *)

Lemma statAddr_lt s : statsValid s → (statAddr s < length (heapWithStats s))%nat.
Proof.
  unfold statsValid, statAddr, heapWithStats. destruct (statsByTab s); cbn; [done|].
  rewrite length_app. cbn. lia.
Qed.

Lemma statAddr_lt_gen s s' :
  statsValid s → statsByTab s' = statsByTab s → heap s' = heap s →
  (default (length (heap s)) (statsByTab s) < length (heapWithStats s'))%nat.
Proof.
  intros Hv H1 H2. unfold statsValid, heapWithStats in *. rewrite H1, H2.
  destruct (statsByTab s); cbn; [done|]. rewrite length_app. cbn. lia.
Qed.

Lemma seenOk_mono t t' seen : seenOk t seen → t ≤ t' → seenOk t' seen.
Proof. intros H Ht m id ts Hm Hid. destruct (H m id ts Hm Hid). split; [lia | done]. Qed.

Lemma seenOk_evict t t0 ttl seen : seenOk t seen → seenOk t (evict t0 ttl <$> seen).
Proof.
  intros H m id ts Hm Hid. destruct seen as [m0|]; [|done]. cbn in Hm. simplify_eq.
  unfold evict in Hid. apply map_lookup_filter_Some in Hid as [Hid _]. eauto.
Qed.

Lemma seenOk_mark t id seen : seenOk t seen → 0 < t → seenOk t (markSeen id t seen).
Proof.
  intros H Ht m id' ts Hm Hid. unfold markSeen in Hm.
  destruct (Js.falsy id) eqn:E; [eauto|]. simplify_eq.
  destruct (decide (id' = id)) as [->|Hne].
  - rewrite lookup_insert_eq in Hid. simplify_eq. split; [lia | by apply falsy_false].
  - rewrite lookup_insert_ne in Hid by done. destruct seen as [m0|]; cbn in Hid; [eauto|].
    by rewrite lookup_empty in Hid.
Qed.

Lemma seenOk_unmarkIf t b id seen : seenOk t seen → seenOk t (unmarkIf b id seen).
Proof.
  intros H m id' ts Hm Hid. unfold unmarkIf, unmarkSeen in Hm.
  destruct b; [|eauto]. destruct (Js.falsy id); [eauto|].
  destruct seen as [m0|]; cbn in Hm; [|done]. simplify_eq.
  apply lookup_delete_Some in Hid as [_ Hid]. eauto.
Qed.

Lemma Forall_alter_act (P : Act → Prop) (f : Act → Act) (l : list Act) a x :
  Forall P l → l !! a = Some x → P (f x) → Forall P (alter f a l).
Proof.
  intros Hl Hx Hf. rewrite (alter_insert f l a x Hx). apply Forall_insert; done.
Qed.

Lemma actOk_lookup (l : list Act) a x : Forall actOk l → l !! a = Some x → actOk x.
Proof. intros Hl Hx. by eapply Forall_lookup_1. Qed.

Ltac bi_acts_solve :=
  cbn; rewrite ?list_alter_alter_eq, ?alter_snoc;
  first
    [ assumption
    | apply Forall_app; split; [assumption|];
      apply Forall_singleton; unfold actOk; cbn;
      repeat match goal with
      | H : Js.falsy _ = false |- _ => apply falsy_false in H
      | H : _ || _ = false |- _ => apply orb_false_elim in H as [? ?]
      end; naive_solver
    | match goal with
      | Hx : acts ?s !! ?a = Some ?x, HF : Forall actOk (acts ?s) |- _ =>
          eapply Forall_alter_act; [exact HF | exact Hx |];
          pose proof (actOk_lookup _ _ _ HF Hx) as Hok;
          unfold actOk in *; cbn;
          repeat match goal with H : a_pc x = _ |- _ => rewrite H in Hok; clear H end;
          cbn in Hok; naive_solver
      end ].

Lemma step_BasicInv s e s' : BasicInv s → step s e = Some s' → BasicInv s'.
Proof.
  intros [Hst Hnow Hseen Hacts] Hs. step_cases Hs.
  all: bool_hyps.
  all: split;
    [ first [ exact Hst
            | unfold statsValid; cbn; rewrite ?length_alter;
              first [ done | by apply statAddr_lt_gen ] ]
    | cbn; try lia
    | cbn; eauto using seenOk_mono, seenOk_evict, seenOk_mark, seenOk_unmarkIf;
      try (eapply seenOk_mono; [eassumption | lia])
    | try bi_acts_solve ].
Qed.

Lemma BasicInv_init t0 : BasicInv (init t0).
Proof. split; cbn; try done; lia. Qed.

Lemma reachable_BasicInv s : reachable s → BasicInv s.
Proof.
  induction 1 as [t0|s e s' _ IH Hs] using reachable_ind.
  - apply BasicInv_init.
  - by eapply step_BasicInv.
Qed.

(** * The [catch] block *)

Lemma stat_lookup s addr st : heap s !! addr = Some st → stat s addr = st.
Proof. unfold stat. by intros ->. Qed.

Lemma heapWithStats_lookup s :
  statsValid s → heapWithStats s !! statAddr s = Some (curStats s).
Proof.
  unfold statsValid, heapWithStats, statAddr, curStats, stat.
  destruct (statsByTab s) as [addr|]; cbn.
  - intros Hlt. destruct (heap s !! addr) eqn:E; [done|].
    apply lookup_ge_None in E. lia.
  - intros _. by rewrite lookup_app_r, Nat.sub_diag.
Qed.

Section Catch.

Variables (a : nat) (x : Act) (s : TabState).

Let addr := statAddr s.

Lemma catchError_fields msg :
  let s' := catchError a x msg s in
  seenByTab s' = unmarkIf (a_markedSeen x) (a_id x) (seenByTab s) ∧
  pend s' = dropId (a_id x) (pend s) ∧
  statsByTab s' = Some addr ∧
  heap s' = alter (λ st, touch (now s) (incError (incDone st))) addr
              (alter (touch (now s)) addr (heapWithStats s)) ∧
  cancelByTab s' = cancelByTab s ∧ pausedByTab s' = pausedByTab s ∧
  queueByTab s' = queueByTab s ∧ proms s' = proms s ∧ micro s' = micro s ∧
  timers s' = timers s ∧ now s' = now s ∧
  acts s' = alter (λ y, set_pc (HErrorItemProgress msg) (set_st addr y)) a (acts s) ∧
  log s' = log s ++ [Progress (errorItemMsg (a_id x) msg (stat s' addr) s')].
Proof.
  intros s'. subst s'. unfold catchError, addr, errorItemMsg.
  rewrite unmarkIf_eq, dequeueAutoPendingId_eq, getAutoUploadStats_eq.
  cbv zeta beta iota.
  rewrite sendAutoUploadProgress_eq.
  split_and!; try reflexivity. apply dropOpt_default.
Qed.

Lemma catchCancelled_fields :
  let s' := catchCancelled a x s in
  seenByTab s' = unmarkIf (a_markedSeen x) (a_id x) (seenByTab s) ∧
  pend s' = dropId (a_id x) (pend s) ∧
  statsByTab s' = Some addr ∧
  heap s' = alter (λ st, touch (now s) (incDone st)) addr
              (alter (touch (now s)) addr (heapWithStats s)) ∧
  cancelByTab s' = cancelByTab s ∧ pausedByTab s' = pausedByTab s ∧
  queueByTab s' = queueByTab s ∧ proms s' = proms s ∧ micro s' = micro s ∧
  timers s' = timers s ∧ now s' = now s ∧
  acts s' = alter (λ y, set_pc HCancelledItemProgress (set_st addr y)) a (acts s) ∧
  log s' = log s ++ [Progress (cancelledItemMsg (a_id x) (stat s' addr) s')].
Proof.
  intros s'. subst s'. unfold catchCancelled, addr, cancelledItemMsg.
  rewrite unmarkIf_eq, dequeueAutoPendingId_eq, getAutoUploadStats_eq.
  cbv zeta beta iota.
  rewrite sendAutoUploadProgress_eq.
  split_and!; try reflexivity. apply dropOpt_default.
Qed.

End Catch.





(** The handler's continuation after a rejection that is not a cancellation. *)
Lemma rejected_handler s a x msg rest :
  micro s = MHandler a :: rest → acts s !! a = Some x → a_pc x = JSettled (Some msg) →
  msg ≠ cancelledMsg →
  step s RunMicro = Some (catchError a x msg (set_micro rest s)).
Proof.
  intros Hm Hx Hpc Hmsg. unfold step, runMicro. rewrite Hm, Hx, Hpc. unfold catch.
  by rewrite bool_decide_eq_false_2.
Qed.

Lemma cancelled_handler s a x rest :
  micro s = MHandler a :: rest → acts s !! a = Some x →
  a_pc x = JSettled (Some cancelledMsg) →
  step s RunMicro = Some (catchCancelled a x (set_micro rest s)).
Proof.
  intros Hm Hx Hpc. unfold step, runMicro. rewrite Hm, Hx, Hpc. unfold catch.
  by rewrite bool_decide_eq_true_2.
Qed.







(** * The seen registry after a job *)

Lemma evict_lookup_None t ttl (m : gmap string Z) id :
  m !! id = None → evict t ttl m !! id = None.
Proof. intros H. unfold evict. apply map_lookup_filter_None. by left. Qed.

Lemma unseen_not_recent id s t :
  unseen id s → (wasRecentlyAutoProcessed id ttlMs (set_now t s)).1 = false.
Proof.
  intros Hu. rewrite wasRecentlyAutoProcessed_eq. cbn. unfold recent, recentIn. cbn.
  destruct (seenByTab s) as [m|] eqn:E; [|done].
  rewrite (evict_lookup_None _ _ m id (Hu m E)). by rewrite andb_false_r.
Qed.

Lemma unmarkIf_unseen id seen s' :
  id ≠ EmptyString → seenByTab s' = unmarkIf true id seen → unseen id s'.
Proof.
  intros Hid Hs m Hm. rewrite Hs in Hm. unfold unmarkIf, unmarkSeen in Hm.
  rewrite (proj2 (falsy_false id) Hid) in Hm. destruct seen as [m0|]; cbn in Hm; [|done].
  simplify_eq. apply lookup_delete_eq.
Qed.

(** C9. When the job of an activation that has marked its attachment id is
    rejected, by cancellation or by an error, the handler's continuation
    removes the id from the seen registry and from the pending-id list
    before it reports the outcome: the [cancelled_item] or [error_item]
    message is what the step sends, its queue preview no longer shows the
    id, and an admission of the same id, at once or later, is not taken for
    a duplicate.  The continuation after a fulfilled job leaves the registry
    as it is. *)
Theorem unmark_on_failure s a x msg rest :
  reachable s → micro s = MHandler a :: rest → acts s !! a = Some x →
  a_markedSeen x = true →
  (a_pc x = JSettled (Some msg) → unmarkedAt s a x msg) ∧
  (a_pc x = JSettled None →
   ∃ s', step s RunMicro = Some s' ∧ seenByTab s' = seenByTab s).
Proof.
  intros Hr Hm Hx Hmk.
  pose proof (reachable_BasicInv s Hr) as HB.
  pose proof (reachable_goodIds s Hr) as [Hnd _].
  assert (a_id x ≠ EmptyString) as Hid.
  { intros Hid. destruct (actOk_lookup _ _ _ (bi_acts s HB) Hx); [by left | congruence]. }
  split.
  - intros Hpc. unfold unmarkedAt. destruct (decide (msg = cancelledMsg)) as [->|Hmsg].
    + destruct (catchCancelled_fields a x (set_micro rest s))
        as (Hseen & Hpend & _ & _ & _ & _ & _ & _ & _ & _ & _ & _ & Hlog).
      pose proof (cancelled_handler s a x rest Hm Hx Hpc) as Hstep.
      remember (catchCancelled a x (set_micro rest s)) as s' eqn:Es'. clear Es'.
      rewrite Hmk in Hseen.
      assert (a_id x ∉ pend s') as Hgone.
      { rewrite Hpend. by apply dropId_gone. }
      eexists s', _. split_and!; [done | by eapply unmarkIf_unseen | done
        | by apply newEffects_app | by rewrite bool_decide_eq_true_2 | done | |].
      * cbn. intros Hin. apply Hgone. eapply elem_of_sublist; [exact Hin|apply sublist_take].
      * intros d. apply unseen_not_recent. by eapply unmarkIf_unseen.
    + destruct (catchError_fields a x (set_micro rest s) msg)
        as (Hseen & Hpend & _ & _ & _ & _ & _ & _ & _ & _ & _ & _ & Hlog).
      pose proof (rejected_handler s a x msg rest Hm Hx Hpc Hmsg) as Hstep.
      remember (catchError a x msg (set_micro rest s)) as s' eqn:Es'. clear Es'.
      rewrite Hmk in Hseen.
      assert (a_id x ∉ pend s') as Hgone.
      { rewrite Hpend. by apply dropId_gone. }
      eexists s', _. split_and!; [done | by eapply unmarkIf_unseen | done
        | by apply newEffects_app | by rewrite bool_decide_eq_false_2 | done | |].
      * cbn. intros Hin. apply Hgone. eapply elem_of_sublist; [exact Hin|apply sublist_take].
      * intros d. apply unseen_not_recent. by eapply unmarkIf_unseen.
  - intros Hpc. eexists. split.
    + unfold step, runMicro. rewrite Hm, Hx, Hpc. reflexivity.
    + reflexivity.
Qed.

Lemma unmark_on_failure_witness :
  reachable (after cancelledRun) ∧
  micro (after cancelledRun) = [MHandler 0; MStart 1] ∧
  acts (after cancelledRun) !! 0%nat = Some cancelledFirst ∧
  a_markedSeen cancelledFirst = true ∧
  (a_pc cancelledFirst = JSettled (Some cancelledMsg) →
   unmarkedAt (after cancelledRun) 0 cancelledFirst cancelledMsg).
Proof.
  assert (reachable (after cancelledRun)) as Hr
    by (apply reachable_after; vm_compute; discriminate).
  assert (micro (after cancelledRun) = [MHandler 0; MStart 1]) as Hm
    by (vm_compute; reflexivity).
  assert (acts (after cancelledRun) !! 0%nat = Some cancelledFirst) as Hx
    by (vm_compute; reflexivity).
  split; [exact Hr|]. split; [exact Hm|]. split; [exact Hx|]. split; [reflexivity|].
  exact (proj1 (unmark_on_failure _ _ _ cancelledMsg _ Hr Hm Hx eq_refl)).
Defined.

(** * The retry wrapper *)

Section RetryLoop.

Variables (n : nat) (delayMs : Z) (tab : nat → Retry.TabReply).




End RetryLoop.




(** * The upload signal tracker *)

Lemma trackerOk_boot trackerBootAt : trackerOk (Tracker.boot trackerBootAt).
Proof. reflexivity. Qed.

Lemma trackerOk_markUploadSignal now u :
  trackerOk u → trackerOk (Tracker.markUploadSignal now u).
Proof. done. Qed.

Lemma trackerOk_noteAttachmentMeta now el initial u :
  trackerOk u → trackerOk (Tracker.noteAttachmentMeta now el initial u).2.
Proof.
  unfold Tracker.noteAttachmentMeta. intros H.
  destruct (Js.falsy _); [done|]. by destruct (Tracker.classSaysUpload _).
Qed.

Lemma trackerOk_maybeAutoProcessUploadedAttachment now el cand u :
  trackerOk u → trackerOk (Tracker.maybeAutoProcessUploadedAttachment now el cand u).2.
Proof.
  intros H. unfold Tracker.maybeAutoProcessUploadedAttachment.
  pose proof (trackerOk_noteAttachmentMeta now el false u H) as H1.
  destruct (Tracker.noteAttachmentMeta now el false u) as [[id|] u1]; [|done].
  cbn [snd] in H1. repeat case_match; done.
Qed.







(** * The counters of the stats entry *)

(** C5. The stats entry does not keep [done <= queued].  In each of three
    runs from the initial state the entry ends with [queued = 0] and
    [done = 1]: the reset timer deletes the entry while a job is waiting
    for the Analysis Pipeline, and the failure of that job is counted in a
    fresh entry; the configuration cannot be read, or the message has no
    image URL, and the handler counts the message as a settled job although
    it was never admitted. *)
Theorem done_exceeds_queued :
  (reachable (after resetRun) ∧ oneDoneNoneQueued (after resetRun)) ∧
  (reachable (after cfgFailRun) ∧ oneDoneNoneQueued (after cfgFailRun)) ∧
  (reachable (after missingDataRun) ∧ oneDoneNoneQueued (after missingDataRun)).
Proof.
  split_and!; try (apply reachable_after; vm_compute; discriminate).
  all: eexists; split; [vm_compute; reflexivity|]; done.
Qed.

(** * Counting *)

Section Count.

Context {A : Type} (P : A → bool).

Lemma countIf_app l1 l2 : countIf P (l1 ++ l2) = (countIf P l1 + countIf P l2)%nat.
Proof. induction l1 as [|x l1 IH]; simpl; [done|]. rewrite IH. lia. Qed.



Lemma countIf_le l : (countIf P l ≤ length l)%nat.
Proof. induction l as [|x l IH]; simpl; [done|]. destruct (P x); simpl; lia. Qed.

Lemma countIf_zero l : countIf P l = 0%nat ↔ Forall (λ x, P x = false) l.
Proof.
  induction l as [|x l IH]; simpl; [by split; [constructor|]|].
  rewrite Forall_cons, <- IH. destruct (P x); simpl; split; try lia; naive_solver.
Qed.


End Count.


(** * Moves of one activation *)





(** * The admission checks *)

Lemma stat_withStats a s :
  statsValid s → stat (withStats a s) (statAddr s) = touch (now s) (curStats s).
Proof.
  intros Hv. unfold stat, withStats. cbn.
  by rewrite list_lookup_alter_eq, (heapWithStats_lookup s Hv).
Qed.

Lemma admission_eq a x cfg s :
  statsValid s → admission a x cfg s = decided a x cfg s.
Proof.
  intros Hv. unfold admission, decided.
  destruct (negb (wpAutoAnalyzeOnUpload cfg)); [done|].
  rewrite getAutoUploadStats_eq. cbv zeta beta iota.
  change (upd_act a (set_st (statAddr s)) _) with (withStats a s).
  rewrite (stat_withStats a s Hv).
  change (now (withStats a s)) with (now s).
  change (cancelByTab (withStats a s)) with (cancelByTab s).
  change (lastAt (touch (now s) (curStats s))) with (now s).
  change (queued (touch (now s) (curStats s))) with (queued (curStats s)).
  change (done (touch (now s) (curStats s))) with (done (curStats s)).
  replace (30000 <? now s - now s) with false by (symmetry; apply Z.ltb_ge; lia).
  rewrite orb_false_r. fold (gateCancels s).
  destruct (gateCancels s); [done|].
  rewrite wasRecentlyAutoProcessed_eq.
  assert (recent (a_id x) (if isTrue (cancelByTab s) then set_cancelByTab None (withStats a s)
                           else withStats a s) = recent (a_id x) s) as ->
    by (by destruct (isTrue (cancelByTab s))).
  assert (set_seenByTab
            (evict (now (if isTrue (cancelByTab s) then set_cancelByTab None (withStats a s)
                         else withStats a s)) ttlMs <$>
             seenByTab (if isTrue (cancelByTab s) then set_cancelByTab None (withStats a s)
                        else withStats a s))
            (if isTrue (cancelByTab s) then set_cancelByTab None (withStats a s)
             else withStats a s) = pastGates a s) as ->
    by (unfold pastGates; by destruct (isTrue (cancelByTab s))).
  destruct (recent (a_id x) s); [done|].
  assert (stat (pastGates a s) (statAddr s) = touch (now s) (curStats s)) as Hst.
  { rewrite <- (stat_withStats a s Hv). unfold pastGates.
    by destruct (isTrue (cancelByTab s)). }
  rewrite Hst. change (queued (touch (now s) (curStats s))) with (queued (curStats s)).
  fold (fuseTrips cfg s). destruct (fuseTrips cfg s).
  - unfold tripped. cbv zeta. do 3 f_equal.
    rewrite <- Hst. reflexivity.
  - unfold accepted. cbv zeta. do 3 f_equal.
    rewrite enqueueAutoPendingId_eq. unfold stat. cbn.
    rewrite list_lookup_alter_eq.
    assert (heap (if isTrue (cancelByTab s) then set_cancelByTab None (withStats a s)
                  else withStats a s) !! statAddr s
            = Some (touch (now s) (curStats s))) as ->.
    { destruct (isTrue (cancelByTab s)); cbn;
        by rewrite list_lookup_alter_eq, (heapWithStats_lookup s Hv). }
    reflexivity.
Qed.

(** * The counters after a step *)



Lemma cur_touched0 s s' :
  statsValid s → statsByTab s' = Some (statAddr s) →
  heap s' = alter (touch (now s)) (statAddr s) (heapWithStats s) →
  curStats s' = touch (now s) (curStats s).
Proof.
  intros Hv H1 H2. unfold curStats at 1. rewrite H1. unfold stat. rewrite H2.
  by rewrite list_lookup_alter_eq, (heapWithStats_lookup s Hv).
Qed.





Ltac fields :=
  cbn [seenByTab statsByTab heap cancelByTab pausedByTab pendingIdsByTab queueByTab
       proms acts micro timers now log
       set_seenByTab set_statsByTab set_heap set_cancelByTab set_pausedByTab
       set_pendingIdsByTab set_queueByTab set_proms set_acts set_micro set_timers
       set_now set_log].





(** * What a step does to the activations and to the seen registry *)










(** * The safety fuse *)


Lemma decision_step s a x cfg :
  statsValid s → micro s = [] → acts s !! a = Some x → a_pc x = HCfg →
  step s (Wake a (RCfg cfg)) = Some (decided a x cfg s).
Proof.
  intros Hv Hm Hx Hpc. unfold step. rewrite bool_decide_eq_true_2 by done.
  rewrite Hx. unfold wake. rewrite Hpc. by rewrite admission_eq.
Qed.
























(** * Duplicate triggers *)




Lemma withStats_fields a s :
  let s' := withStats a s in
  statsByTab s' = Some (statAddr s) ∧
  heap s' = alter (touch (now s)) (statAddr s) (heapWithStats s) ∧
  acts s' = alter (set_st (statAddr s)) a (acts s) ∧
  pausedByTab s' = pausedByTab s ∧ pendingIdsByTab s' = pendingIdsByTab s ∧
  queueByTab s' = queueByTab s ∧ proms s' = proms s ∧ micro s' = micro s ∧
  timers s' = timers s ∧ now s' = now s ∧ log s' = log s ∧
  seenByTab s' = seenByTab s ∧ cancelByTab s' = cancelByTab s.
Proof. cbn. split_and!; reflexivity. Qed.














(** * Cancel *)











(** * The microtasks of the chain *)





(** * The drain comes to an end *)

















(** * Further invariants of the coordinator *)

Lemma countersOk_new t : countersOk (newStats t).
Proof. unfold countersOk. cbn. lia. Qed.

Lemma countersOk_stat s addr : Forall countersOk (heap s) → countersOk (stat s addr).
Proof.
  intros H. unfold stat. destruct (heap s !! addr) as [st|] eqn:E; cbn.
  - by eapply Forall_lookup_1.
  - apply countersOk_new.
Qed.

Lemma countersOk_alter (f : Stats → Stats) i h :
  (∀ st, countersOk st → countersOk (f st)) →
  Forall countersOk h → Forall countersOk (alter f i h).
Proof.
  intros Hf Hh. apply Forall_lookup_2. intros j st Hj.
  destruct (decide (i = j)) as [->|Hne].
  - rewrite list_lookup_alter_eq in Hj. destruct (h !! j) as [st0|] eqn:E; [|done].
    cbn in Hj. simplify_eq. apply Hf. by eapply Forall_lookup_1.
  - rewrite list_lookup_alter_ne in Hj by done. by eapply Forall_lookup_1.
Qed.

Lemma countersOk_withStats s :
  Forall countersOk (heap s) → Forall countersOk (heapWithStats s).
Proof.
  intros H. unfold heapWithStats. destruct (statsByTab s); [done|].
  apply Forall_app. split; [done|]. apply Forall_singleton, countersOk_new.
Qed.

Lemma payloadOk_of ph id st : countersOk st → payloadOk (payloadOf ph id st).
Proof. done. Qed.

Lemma payloadOk_fuse fm p : payloadOk p → payloadOk (withFuseMax fm p).
Proof. done. Qed.

Lemma payloadOk_error msg p : payloadOk p → payloadOk (withErrorMessage msg p).
Proof. done. Qed.

Ltac heap_ok :=
  repeat first
    [ assumption
    | apply countersOk_alter; [intros ? ?; unfold countersOk in *; cbn; lia|]
    | apply countersOk_withStats; cbn
    | apply Forall_app; split
    | apply Forall_singleton, countersOk_new ].

Ltac log_ok :=
  repeat first
    [ assumption
    | apply Forall_app; split
    | apply Forall_cons; split
    | apply Forall_nil_2
    | progress cbn [progressOk payload]
    | exact I
    | apply payloadOk_fuse
    | apply payloadOk_error
    | apply payloadOk_of, countersOk_stat; cbn; heap_ok ].

Lemma step_CountInv s e s' : CountInv s → step s e = Some s' → CountInv s'.
Proof.
  intros [Hh Hl] Hs. step_cases Hs.
  all: split; cbn; [heap_ok | log_ok].
Qed.

Lemma reachable_CountInv s : reachable s → CountInv s.
Proof.
  induction 1 as [t0|s e s' _ IH Hs] using reachable_ind.
  - split; cbn; constructor.
  - by eapply step_CountInv.
Qed.

(** X1. In every state the tab can reach, no counter of a stats object is
    negative and [ok + error <= done]; the same holds of the tab's current
    entry and of the counters that every progress message sent so far
    reports. *)
Theorem counters_consistent s :
  reachable s →
  Forall countersOk (heap s) ∧ countersOk (curStats s) ∧
  ∀ m, Progress m ∈ log s → payloadOk (payload m).
Proof.
  intros [Hh Hl]%reachable_CountInv. split_and!; [done | |].
  - unfold curStats. destruct (statsByTab s); [by apply countersOk_stat|].
    apply countersOk_new.
  - intros m Hm. by apply (proj1 (Forall_forall _ _) Hl (Progress m)).
Qed.

Lemma counters_consistent_witness :
  reachable (after cancelRun) ∧
  queued (curStats (after cancelRun)) = 5 ∧ done (curStats (after cancelRun)) = 2 ∧
  countersOk (curStats (after cancelRun)) ∧
  ∀ m, Progress m ∈ log (after cancelRun) → payloadOk (payload m).
Proof.
  assert (reachable (after cancelRun)) as Hr
    by (apply reachable_after; vm_compute; discriminate).
  split; [exact Hr|]. split; [vm_compute; reflexivity|].
  split; [vm_compute; reflexivity|].
  exact (proj2 (counters_consistent (after cancelRun) Hr)).
Defined.

Lemma step_answers s e s' :
  (∀ b, answers b (log s) = ended b s) → step s e = Some s' →
  ∀ b, answers b (log s') = ended b s'.
Proof.
  intros H Hs. step_cases Hs.
  all: intros b; specialize (H b); unfold answers, ended in *; cbn.
  all: rewrite ?countIf_app; cbn [countIf isAnswerTo Nat.b2n]; rewrite ?Nat.add_0_r.
  all: rewrite ?list_alter_alter_eq, ?alter_snoc.
  all: try done.
  all: try match goal with
       | |- context [alter ?f ?a (acts ?s) !! ?b0] =>
           destruct (decide (b0 = a)) as [->|Hne];
           [ rewrite list_lookup_alter_eq | rewrite list_lookup_alter_ne by done ]
       end.
  all: try done.
  all: try match goal with
       | Hx : acts ?s !! ?a = Some ?x |- _ => try rewrite Hx in H; try rewrite Hx; cbn
       end.
  all: bool_hyps.
  all: repeat match goal with Hp : a_pc ?x = _ |- _ => rewrite Hp in *; clear Hp end.
  all: cbn; rewrite ?bool_decide_eq_true_2 by done; rewrite ?bool_decide_eq_false_2 by done.
  all: cbn; try lia.
  all: try match goal with
       | |- context [(acts ?s ++ [_]) !! ?b0] =>
           destruct (decide (b0 < length (acts s))%nat);
           [ rewrite lookup_app_l by done
           | rewrite (lookup_ge_None_2 (acts s) b0) in H by lia;
             destruct (decide (b0 = length (acts s))) as [->|];
             [ rewrite lookup_app_r, Nat.sub_diag by lia; cbn
             | rewrite lookup_ge_None_2 by (rewrite length_app; cbn; lia) ] ]
       end.
  all: cbn; rewrite ?bool_decide_eq_true_2 by done;
    rewrite ?bool_decide_eq_false_2 by (done || lia).
  all: cbn; try lia.
  all: rewrite bool_decide_eq_false_2 in H by done; cbn in H; lia.
Qed.

(** X2. Every MACA_AUTO_PROCESS_ATTACHMENT message is answered exactly once,
    when its handler ends: in every reachable state the number of
    [sendResponse] calls of an activation is 1 if the activation has run to
    its end and 0 otherwise; no message is answered twice, and no handler
    ends without an answer. *)
Theorem answered_once s a :
  reachable s →
  answers a (log s) = ended a s ∧ (answers a (log s) ≤ 1)%nat ∧
  (∀ x, acts s !! a = Some x → a_pc x = Finished → answers a (log s) = 1%nat) ∧
  (∀ x, acts s !! a = Some x → a_pc x ≠ Finished → answers a (log s) = 0%nat).
Proof.
  intros Hr.
  assert (∀ b, answers b (log s) = ended b s) as H.
  { clear a. induction Hr as [t0|s e s' _ IH Hs] using reachable_ind.
    - intros b. unfold ended. cbn. by rewrite lookup_nil.
    - by eapply step_answers. }
  rewrite H. unfold ended. split_and!; [done | | |].
  - destruct (acts s !! a) as [x|]; [|lia]. case_bool_decide; cbn; lia.
  - intros x -> Hpc. by rewrite bool_decide_eq_true_2.
  - intros x -> Hpc. by rewrite bool_decide_eq_false_2.
Qed.

Lemma answered_once_witness :
  reachable (after (cancelRun ++ drainRun)) ∧
  answers 0 (log (after (cancelRun ++ drainRun))) = 1%nat ∧
  answers 2 (log (after (cancelRun ++ drainRun))) = 0%nat ∧
  ended 2 (after (cancelRun ++ drainRun)) = 0%nat.
Proof.
  assert (reachable (after (cancelRun ++ drainRun))) as Hr
    by (apply reachable_after; vm_compute; discriminate).
  split; [exact Hr|].
  pose proof (answered_once (after (cancelRun ++ drainRun)) 0 Hr) as (H0 & _).
  pose proof (answered_once (after (cancelRun ++ drainRun)) 2 Hr) as (H2 & _).
  split; [rewrite H0; vm_compute; reflexivity|].
  split; [rewrite H2; vm_compute; reflexivity | vm_compute; reflexivity].
Defined.

(** X3. The cancel gate of the admission has no way out by age.  With the
    cancel flag set and [done < queued], a new candidate is answered
    [cancelled], whatever the age of the last activity: the handler fetches
    the entry with [getAutoUploadStats], which sets [lastAt] to the present
    time, before it computes [stale], so the test [Date.now() - lastAt >
    30000] never holds there.  The flag is left set; only [lastAt] moves. *)
Theorem cancel_gate_never_stale s a x cfg :
  reachable s → micro s = [] → acts s !! a = Some x → a_pc x = HCfg →
  wpAutoAnalyzeOnUpload cfg = true → isTrue (cancelByTab s) = true →
  done (curStats s) < queued (curStats s) → gateAnswers s a cfg.
Proof.
  intros Hr Hm Hx Hpc Hon Hc Hq.
  pose proof (reachable_BasicInv s Hr) as [Hv _ _ _].
  exists (decided a x cfg s). split; [by apply decision_step|].
  unfold decided, gateCancels. rewrite Hon, Hc. cbn [negb andb].
  rewrite (proj2 (Z.leb_gt _ _) Hq). cbn [negb].
  unfold respond, goto, emit, upd_act, withStats, upd_act, newEffects, pend. fields.
  rewrite drop_app_length. split_and!; try reflexivity.
  all: match goal with |- context [curStats ?s'] =>
         pose proof (cur_touched0 s s' Hv eq_refl eq_refl) as ->  end; reflexivity.
Qed.


Lemma cancel_gate_never_stale_witness :
  reachable (after staleCancelRun) ∧ micro (after staleCancelRun) = [] ∧
  acts (after staleCancelRun) !! 5%nat = Some (set_pc HCfg fuseSixth) ∧
  isTrue (cancelByTab (after staleCancelRun)) = true ∧
  done (curStats (after staleCancelRun)) < queued (curStats (after staleCancelRun)) ∧
  30000 < now (after staleCancelRun) - lastAt (curStats (after staleCancelRun)) ∧
  gateAnswers (after staleCancelRun) 5 defaultCfg.
Proof.
  assert (reachable (after staleCancelRun)) as Hr
    by (apply reachable_after; vm_compute; discriminate).
  assert (micro (after staleCancelRun) = []) as Hm by (vm_compute; reflexivity).
  assert (acts (after staleCancelRun) !! 5%nat = Some (set_pc HCfg fuseSixth)) as Hx
    by (vm_compute; reflexivity).
  assert (isTrue (cancelByTab (after staleCancelRun)) = true) as Hc
    by (vm_compute; reflexivity).
  assert (done (curStats (after staleCancelRun)) < queued (curStats (after staleCancelRun)))
    as Hq by (vm_compute; reflexivity).
  split; [exact Hr|]. split; [exact Hm|]. split; [exact Hx|]. split; [exact Hc|].
  split; [exact Hq|]. split; [vm_compute; reflexivity|].
  exact (cancel_gate_never_stale _ 5 _ defaultCfg Hr Hm Hx eq_refl eq_refl Hc Hq).
Defined.

(** ** The seen registry *)

Lemma recentIn_lookup id t ttl m :
  recentIn id t ttl m =
  negb (Js.falsy id) &&
  match m !! id with
  | Some ts => negb (ts =? 0) && (t - ts <=? ttl)
  | None => false
  end.
Proof.
  unfold recentIn, evict. f_equal.
  destruct (m !! id) as [ts|] eqn:E.
  - destruct (decide (t - ts > ttl)) as [Hold|Hyoung].
    + rewrite (proj2 (map_lookup_filter_None _ _ _)).
      * rewrite (proj2 (Z.leb_gt _ _)) by lia. by rewrite andb_false_r.
      * right. intros ts' Hts'. simplify_eq. cbn. by intros [].
    + by rewrite (proj2 (map_lookup_filter_Some _ _ _ _) (conj E Hyoung)).
  - rewrite (proj2 (map_lookup_filter_None _ _ _)); [done|]. by left.
Qed.

Lemma recentAfter_eq d id s :
  recentAfter d id s =
  negb (Js.falsy id) &&
  match seenByTab s ≫= (.!! id) with
  | Some ts => negb (ts =? 0) && (now s + Z.of_N d - ts <=? ttlMs)
  | None => false
  end.
Proof.
  unfold recentAfter. rewrite wasRecentlyAutoProcessed_eq. cbn [fst].
  unfold recent. cbn [seenByTab now set_now].
  destruct (seenByTab s) as [m|]; cbn; [apply recentIn_lookup|].
  by rewrite andb_false_r.
Qed.

(** X4. The seen registry, for a non-empty id: once marked, the id is
    reported as recently processed for exactly the 5 minutes of the TTL
    (inclusive) and not after; unmarking it ends that at once; marking or
    unmarking one id does not change the answer for another; and a call of
    [wasRecentlyAutoProcessed] leaves in the registry only entries of the
    registry that are no older than the TTL. *)
Theorem seen_registry_round_trip id s :
  id ≠ EmptyString → 0 < now s →
  (∀ d, recentAfter d id (markAutoProcessed id s) = (Z.of_N d <=? ttlMs)) ∧
  (∀ d, recentAfter d id (unmarkAutoProcessed id (markAutoProcessed id s)) = false) ∧
  (∀ d id', id' ≠ id →
     recentAfter d id' (markAutoProcessed id s) = recentAfter d id' s ∧
     recentAfter d id' (unmarkAutoProcessed id s) = recentAfter d id' s) ∧
  (∀ id' m' k ts,
     seenByTab (wasRecentlyAutoProcessed id' ttlMs s).2 = Some m' → m' !! k = Some ts →
     now s - ts ≤ ttlMs ∧ ∃ m, seenByTab s = Some m ∧ m !! k = Some ts).
Proof.
  intros Hid Hnow. pose proof (proj2 (falsy_false id) Hid) as Hf.
  split_and!.
  - intros d. rewrite recentAfter_eq, markAutoProcessed_eq. cbn [seenByTab now set_seenByTab].
    unfold markSeen. rewrite Hf. cbn. rewrite lookup_insert_eq.
    rewrite (proj2 (Z.eqb_neq _ _)) by lia. cbn.
    f_equal. lia.
  - intros d. rewrite recentAfter_eq, unmarkAutoProcessed_eq, markAutoProcessed_eq.
    cbn [seenByTab now set_seenByTab]. unfold unmarkSeen, markSeen. rewrite Hf. cbn.
    by rewrite lookup_delete_eq.
  - intros d id' Hne.
    rewrite !recentAfter_eq, unmarkAutoProcessed_eq, markAutoProcessed_eq.
    cbn [seenByTab now set_seenByTab]. unfold unmarkSeen, markSeen. rewrite Hf.
    destruct (seenByTab s) as [m|]; cbn.
    + by rewrite lookup_insert_ne, lookup_delete_ne.
    + by rewrite lookup_insert_ne, lookup_empty.
  - intros id' m' k ts. rewrite wasRecentlyAutoProcessed_eq. cbn [snd seenByTab set_seenByTab].
    destruct (seenByTab s) as [m|]; cbn; [|done]. intros [= <-].
    unfold evict. intros [Hk Hy]%map_lookup_filter_Some. cbn in Hy.
    split; [lia | eauto].
Qed.

Lemma seen_registry_round_trip_witness :
  "7" ≠ EmptyString ∧ 0 < now (init 1000) ∧
  recentAfter 300000 "7" (markAutoProcessed "7" (init 1000)) = true ∧
  recentAfter 300001 "7" (markAutoProcessed "7" (init 1000)) = false.
Proof.
  assert ("7" ≠ EmptyString) as Hid by discriminate.
  assert (0 < now (init 1000)) as Hnow by (cbn; lia).
  split; [exact Hid|]. split; [exact Hnow|].
  pose proof (proj1 (seen_registry_round_trip "7" (init 1000) Hid Hnow)) as H.
  split; [exact (H 300000%N) | exact (H 300001%N)].
Defined.

(** * Text helpers of the Analysis Pipeline *)

Module TextFacts.
Import Text.

Lemma trimStart_split s :
  ∃ w, s = w ++ trimStart s ∧ Forall (λ c, isSpace c = true) w.
Proof.
  induction s as [|c s IH]; [by exists []|]. cbn. destruct (isSpace c) eqn:E.
  - destruct IH as (w & Hs & Hw). exists (c :: w). split; [by cbn; f_equal|].
    by constructor.
  - by exists [].
Qed.

Lemma trimStart_headOk s : headOk (trimStart s) = true.
Proof. induction s as [|c s IH]; [done|]. cbn. destruct (isSpace c) eqn:E; [done|]. cbn. by rewrite E. Qed.

Lemma trimStart_id s : headOk s = true → trimStart s = s.
Proof. destruct s as [|c s]; [done|]. cbn. by intros ->%negb_true_iff. Qed.

Lemma trimStart_length s : (length (trimStart s) ≤ length s)%nat.
Proof. destruct (trimStart_split s) as (w & Hs & _). rewrite Hs at 2. rewrite length_app. lia. Qed.

Lemma trimEnd_split s :
  ∃ w, s = trimEnd s ++ w ∧ Forall (λ c, isSpace c = true) w.
Proof.
  unfold trimEnd. destruct (trimStart_split (reverse s)) as (w & Hs & Hw).
  exists (reverse w). split.
  - rewrite <- reverse_app, <- Hs. by rewrite reverse_involutive.
  - by apply Forall_reverse.
Qed.

Lemma trimEnd_lastOk s : lastOk (trimEnd s) = true.
Proof. unfold lastOk, trimEnd. rewrite reverse_involutive. apply trimStart_headOk. Qed.

Lemma trimEnd_id s : lastOk s = true → trimEnd s = s.
Proof. unfold lastOk, trimEnd. intros H. by rewrite trimStart_id, reverse_involutive. Qed.

Lemma trimEnd_length s : (length (trimEnd s) ≤ length s)%nat.
Proof. destruct (trimEnd_split s) as (w & Hs & _). rewrite Hs at 2. rewrite length_app. lia. Qed.

Lemma headOk_prefix s w : headOk (s ++ w) = true → headOk s = true.
Proof. by destruct s. Qed.

Lemma lastOk_snoc s c : lastOk (s ++ [c]) = negb (isSpace c).
Proof. unfold lastOk. by rewrite reverse_snoc. Qed.

Lemma lastOk_app s w : w ≠ [] → lastOk (s ++ w) = lastOk w.
Proof.
  intros Hw. destruct w as [|c w _] using rev_ind; [done|].
  by rewrite app_assoc, !lastOk_snoc.
Qed.

Lemma trimEnd_headOk s : headOk s = true → headOk (trimEnd s) = true.
Proof. destruct (trimEnd_split s) as (w & Hs & _). rewrite Hs at 1. apply headOk_prefix. Qed.

Lemma trim_headOk s : headOk (trim s) = true.
Proof. apply trimEnd_headOk, trimStart_headOk. Qed.

Lemma trim_lastOk s : lastOk (trim s) = true.
Proof. apply trimEnd_lastOk. Qed.

Lemma trim_id s : headOk s = true → lastOk s = true → trim s = s.
Proof. intros H1 H2. unfold trim. rewrite (trimStart_id s H1). by apply trimEnd_id. Qed.

Lemma trim_length s : (length (trim s) ≤ length s)%nat.
Proof. unfold trim. etrans; [apply trimEnd_length | apply trimStart_length]. Qed.

Lemma trim_trim s : trim (trim s) = trim s.
Proof. apply trim_id; [apply trim_headOk | apply trim_lastOk]. Qed.

(** Collapsed texts. *)
Lemma collapsedFrom_weaken s : collapsedFrom true s = true → collapsedFrom false s = true.
Proof. destruct s as [|c s]; [done|]. cbn. destruct (isSpace c); [|done]. by rewrite andb_false_r. Qed.

Lemma collapseFrom_collapsed b s : collapsedFrom b (collapseFrom b s) = true.
Proof.
  revert b. induction s as [|c s IH]; intros b; [done|]. cbn.
  destruct (isSpace c) eqn:E.
  - destruct b; cbn; [apply IH|]. by rewrite (IH true).
  - cbn. rewrite E. apply IH.
Qed.

Lemma collapseFrom_id b s : collapsedFrom b s = true → collapseFrom b s = s.
Proof.
  revert b. induction s as [|c s IH]; intros b; [done|]. cbn.
  destruct (isSpace c) eqn:E.
  - intros [[->%N.eqb_eq ->%negb_true_iff]%andb_true_iff H]%andb_true_iff. cbn. f_equal. by apply IH.
  - intros H. f_equal. by apply IH.
Qed.

Lemma collapsedFrom_prefix b s w : collapsedFrom b (s ++ w) = true → collapsedFrom b s = true.
Proof.
  revert b. induction s as [|c s IH]; intros b; [done|]. cbn.
  destruct (isSpace c); [|apply IH].
  intros [H1 H2]%andb_true_iff. rewrite H1. by apply IH.
Qed.

Lemma collapsedFrom_suffix b w s : collapsedFrom b (w ++ s) = true → collapsedFrom false s = true.
Proof.
  revert b. induction w as [|c w IH]; intros b; cbn.
  - destruct b; [apply collapsedFrom_weaken | done].
  - destruct (isSpace c); [|apply IH]. intros [_ H]%andb_true_iff. by apply (IH true).
Qed.

Lemma collapsed_trim s : collapsedFrom false s = true → collapsedFrom false (trim s) = true.
Proof.
  intros H. unfold trim.
  destruct (trimStart_split s) as (w & Hs & _).
  destruct (trimEnd_split (trimStart s)) as (w' & Hs' & _).
  rewrite Hs in H. apply collapsedFrom_suffix in H. rewrite Hs' in H.
  by apply collapsedFrom_prefix in H.
Qed.

Lemma collapsed_take n s : collapsedFrom false s = true → collapsedFrom false (take n s) = true.
Proof. intros H. rewrite <- (take_drop n s) in H. by apply collapsedFrom_prefix in H. Qed.

Lemma collapseFrom_headOk s : headOk s = true → headOk (collapseFrom false s) = true.
Proof. destruct s as [|c s]; [done|]. cbn. intros H. apply negb_true_iff in H as E. by rewrite E. Qed.

Lemma collapseFrom_snoc b s c :
  isSpace c = false → collapseFrom b (s ++ [c]) = collapseFrom b s ++ [c].
Proof.
  intros E. revert b. induction s as [|d s IH]; intros b; cbn; [by rewrite E|].
  destruct (isSpace d); [by rewrite IH, app_assoc | by rewrite IH].
Qed.

Lemma collapseFrom_lastOk b s : lastOk s = true → lastOk (collapseFrom b s) = true.
Proof.
  destruct s as [|c s _] using rev_ind; [done|].
  rewrite lastOk_snoc. intros E%negb_true_iff. by rewrite collapseFrom_snoc, lastOk_snoc, E.
Qed.

Lemma tidy_fix s : tidy s → normalizeCaptionText s = s.
Proof.
  intros (H1 & H2 & H3). unfold normalizeCaptionText, collapseSpaces.
  rewrite trim_id by done. by apply collapseFrom_id.
Qed.

Lemma tidy_collapse s : headOk s = true → lastOk s = true → tidy (collapseSpaces s).
Proof.
  intros H1 H2. split_and!; [by apply collapseFrom_headOk | by apply collapseFrom_lastOk |].
  apply collapseFrom_collapsed.
Qed.

Lemma tidy_caption s : tidy (normalizeCaptionText s).
Proof. apply tidy_collapse; [apply trim_headOk | apply trim_lastOk]. Qed.

Lemma tidy_trim_take n s : tidy s → tidy (trim (take n s)).
Proof.
  intros (_ & _ & H). split_and!; [apply trim_headOk | apply trim_lastOk |].
  by apply collapsed_trim, collapsed_take.
Qed.


(** The prefix pattern. *)
Lemma afterCI_split p s r : afterCI p s = Some r → ∃ w, s = w ++ r.
Proof.
  revert s. induction p as [|a p IH]; intros s; cbn.
  - intros [= ->]. by exists [].
  - destruct s as [|c s]; [done|]. destruct (eqCI a c); [|done].
    intros (w & ->)%IH. by exists (c :: w).
Qed.

Lemma afterSpaces_split s r :
  afterSpaces s = Some r →
  ∃ w, s = w ++ r ∧ w ≠ [] ∧ Forall (λ c, isSpace c = true) w ∧ headOk r = true.
Proof.
  destruct s as [|c s]; [done|]. cbn. destruct (isSpace c) eqn:E; [|done].
  intros [= <-]. destruct (trimStart_split s) as (w & Hs & Hw).
  exists (c :: w). split_and!; [by cbn; f_equal | done | by constructor |].
  apply trimStart_headOk.
Qed.

Lemma lastOk_spaces w : w ≠ [] → Forall (λ c, isSpace c = true) w → lastOk w = false.
Proof.
  destruct w as [|c w _] using rev_ind; [done|]. intros _ H.
  rewrite Forall_app, Forall_singleton in H. destruct H as [_ H].
  by rewrite lastOk_snoc, H.
Qed.

Lemma stripImagePrefix_cases s :
  stripImagePrefix s = s ∨
  ∃ pre w, s = pre ++ w ++ stripImagePrefix s ∧ w ≠ [] ∧
           Forall (λ c, isSpace c = true) w ∧ headOk (stripImagePrefix s) = true.
Proof.
  unfold stripImagePrefix.
  destruct (trimStart_split s) as (w0 & Hs & _).
  set (word := match afterCI (lit "imagen") (trimStart s) with
               | Some r => Some r
               | None => afterCI (lit "foto") (trimStart s)
               end).
  assert (∀ r, word = Some r → ∃ w, trimStart s = w ++ r) as Hword.
  { intros r. unfold word. destruct (afterCI (lit "imagen") (trimStart s)) eqn:E.
    - intros [= <-]. by eapply afterCI_split.
    - apply afterCI_split. }
  destruct word as [r1|]; [|by left]. cbn [andThen].
  destruct (afterSpaces r1) as [r2|] eqn:E2; [|by left]. cbn [andThen].
  destruct (afterCI (lit "de") r2) as [r3|] eqn:E3; [|by left]. cbn [andThen].
  destruct (afterSpaces r3) as [r4|] eqn:E4; [|by left].
  right. destruct (Hword r1 eq_refl) as (w1 & H1).
  apply afterSpaces_split in E2 as (w2 & H2 & _).
  apply afterCI_split in E3 as (w3 & H3).
  apply afterSpaces_split in E4 as (w4 & H4 & Hne & Hsp & Hh).
  exists (w0 ++ w1 ++ w2 ++ w3), w4. split_and!; try done.
  rewrite Hs at 1. rewrite H1, H2, H3, H4. by rewrite <- !app_assoc.
Qed.

Lemma stripImagePrefix_ok s :
  headOk s = true → lastOk s = true →
  headOk (stripImagePrefix s) = true ∧ lastOk (stripImagePrefix s) = true ∧
  (s ≠ [] → stripImagePrefix s ≠ []).
Proof.
  intros H1 H2. destruct (stripImagePrefix_cases s) as [->|(pre & w & Hs & Hne & Hsp & Hh)].
  - done.
  - assert (stripImagePrefix s ≠ []) as Hr.
    { intros Hr. rewrite Hr, app_nil_r in Hs. rewrite Hs, lastOk_app in H2 by done.
      by rewrite lastOk_spaces in H2. }
    split_and!; [done | | done].
    rewrite Hs, app_assoc, lastOk_app in H2; done.
Qed.

Lemma collapseFrom_nonempty s : headOk s = true → s ≠ [] → collapseFrom false s ≠ [].
Proof. destruct s as [|c s]; [done|]. cbn. intros E%negb_true_iff _. by rewrite E. Qed.

Lemma trim_nonempty s : headOk s = true → s ≠ [] → trim s ≠ [].
Proof.
  intros H Hne. unfold trim. rewrite trimStart_id by done.
  destruct (trimEnd_split s) as (w & Hs & Hw). intros E. rewrite E in Hs. cbn in Hs.
  subst w. destruct s as [|c s]; [done|]. apply Forall_cons in Hw as [Hc _].
  cbn in H. by rewrite Hc in H.
Qed.

(** What [normalizeAltText] returns. *)
Lemma normalizeAltText_tidy alt m p : tidy (normalizeAltText alt m p).
Proof.
  unfold normalizeAltText.
  set (s2 := if p then stripImagePrefix (trim alt) else trim alt).
  assert (headOk s2 = true ∧ lastOk s2 = true) as [H1 H2].
  { unfold s2. destruct p; [|by split; [apply trim_headOk | apply trim_lastOk]].
    destruct (stripImagePrefix_ok (trim alt) (trim_headOk _) (trim_lastOk _)) as (? & ? & _).
    done. }
  pose proof (tidy_collapse s2 H1 H2) as Ht.
  destruct m as [n|]; [|done].
  destruct ((0 <? n) && (n <? Z.of_nat (length (collapseSpaces s2)))); [|done].
  by apply tidy_trim_take.
Qed.

Lemma normalizeAltText_length alt n p :
  0 < n → Z.of_nat (length (normalizeAltText alt (Some n) p)) ≤ n.
Proof.
  intros Hn. unfold normalizeAltText.
  set (s3 := collapseSpaces _). rewrite (proj2 (Z.ltb_lt 0 n) Hn). cbn [andb].
  destruct (n <? Z.of_nat (length s3)) eqn:E.
  - pose proof (trim_length (take (Z.to_nat n) s3)). rewrite length_take in H. lia.
  - apply Z.ltb_ge in E. lia.
Qed.

Lemma normalizeAltText_nonempty alt m p :
  tidy alt → alt ≠ [] → normalizeAltText alt m p ≠ [].
Proof.
  intros (H1 & H2 & H3) Hne. unfold normalizeAltText. rewrite (trim_id alt H1 H2).
  set (s2 := if p then stripImagePrefix alt else alt).
  assert (headOk s2 = true ∧ s2 ≠ []) as [Hh Hs2].
  { unfold s2. destruct p; [|done].
    destruct (stripImagePrefix_ok alt H1 H2) as (? & ? & ?). auto. }
  pose proof (collapseFrom_nonempty s2 Hh Hs2) as Hc.
  pose proof (collapseFrom_headOk s2 Hh) as Hch.
  fold (collapseSpaces s2) in Hc, Hch.
  destruct m as [n|]; [|done].
  destruct ((0 <? n) && (n <? Z.of_nat (length (collapseSpaces s2)))) eqn:E; [|done].
  apply andb_true_iff in E as [Hn%Z.ltb_lt _].
  destruct (collapseSpaces s2) as [|c s3]; [done|].
  apply trim_nonempty.
  - destruct (Z.to_nat n) eqn:En; [lia|]. done.
  - destruct (Z.to_nat n) eqn:En; [lia|]. done.
Qed.

(** Closing a text with a period. *)
Lemma endsSentence_snoc s c : endsSentence (s ++ [c]) = isStop c.
Proof. unfold endsSentence. by rewrite last_snoc. Qed.

Lemma headOk_snoc s c : s ≠ [] → headOk (s ++ [c]) = headOk s.
Proof. by destruct s. Qed.

Lemma closed_fix s :
  s ≠ [] → headOk s = true → lastOk s = true → endsSentence s = true →
  ensureTrailingPeriod s = s ∧ ∀ m, ensureAltTrailingPeriodWithinLimit s m = s.
Proof.
  intros Hne H1 H2 He. unfold ensureTrailingPeriod, ensureAltTrailingPeriodWithinLimit.
  rewrite (trim_id s H1 H2), He. by destruct s.
Qed.

Lemma period_closed s :
  headOk s = true →
  (s ++ [46%N]) ≠ [] ∧ headOk (s ++ [46%N]) = true ∧ lastOk (s ++ [46%N]) = true ∧
  endsSentence (s ++ [46%N]) = true.
Proof.
  intros H. split_and!.
  - by destruct s.
  - destruct s; [done|]. done.
  - by rewrite lastOk_snoc.
  - by rewrite endsSentence_snoc.
Qed.

Lemma ensureTrailingPeriod_cases text :
  ensureTrailingPeriod text = [] ∧ trim text = [] ∨
  ensureTrailingPeriod text ≠ [] ∧ headOk (ensureTrailingPeriod text) = true ∧
  lastOk (ensureTrailingPeriod text) = true ∧
  endsSentence (ensureTrailingPeriod text) = true.
Proof.
  unfold ensureTrailingPeriod.
  pose proof (trim_headOk text) as H1. pose proof (trim_lastOk text) as H2.
  destruct (trim text) as [|c s] eqn:E; [by left|]. right.
  destruct (endsSentence (c :: s)) eqn:He; [done|].
  by apply period_closed.
Qed.

Lemma ensureAlt_cases text m :
  ensureAltTrailingPeriodWithinLimit text m = [] ∧ trim text = [] ∨
  ensureAltTrailingPeriodWithinLimit text m ≠ [] ∧
  headOk (ensureAltTrailingPeriodWithinLimit text m) = true ∧
  lastOk (ensureAltTrailingPeriodWithinLimit text m) = true ∧
  endsSentence (ensureAltTrailingPeriodWithinLimit text m) = true.
Proof.
  unfold ensureAltTrailingPeriodWithinLimit.
  pose proof (trim_headOk text) as H1. pose proof (trim_lastOk text) as H2.
  destruct (trim text) as [|c s] eqn:E; [by left|]. right.
  destruct (endsSentence (c :: s)) eqn:He; [done|].
  apply period_closed. destruct m as [n|]; [|done].
  destruct ((0 <? n) && _); [apply trim_headOk | done].
Qed.

Lemma ensureAlt_length text n :
  0 < n → Z.of_nat (length text) ≤ n →
  Z.of_nat (length (ensureAltTrailingPeriodWithinLimit text (Some n))) ≤ n.
Proof.
  intros Hn Hlen. unfold ensureAltTrailingPeriodWithinLimit.
  pose proof (trim_length text) as Ht.
  destruct (trim text) as [|c s] eqn:E; [cbn; lia|].
  destruct (endsSentence (c :: s)); [lia|].
  rewrite (proj2 (Z.ltb_lt 0 n) Hn). cbn [andb].
  destruct (n <? Z.of_nat (length (c :: s)) + 1) eqn:E1.
  - rewrite length_app. cbn [length].
    pose proof (trim_length (take (Z.to_nat (Z.max 0 (n - 1))) (c :: s))) as H.
    rewrite length_take in H. lia.
  - apply Z.ltb_ge in E1. rewrite length_app. cbn [length] in *. lia.
Qed.


Lemma collapseFrom_length b s : (length (collapseFrom b s) ≤ length s)%nat.
Proof.
  revert b. induction s as [|c s IH]; intros b; [done|]. cbn.
  destruct (isSpace c).
  - rewrite length_app. specialize (IH true). destruct b; cbn; lia.
  - cbn. specialize (IH false). lia.
Qed.

(** X5. [normalizeAltText] returns a text without white space at its ends
    and with single spaces (U+0020) for every run of white space inside, so
    that [normalizeCaptionText] leaves it as it is (the title that
    [analyzeImage] derives from the ALT is the ALT itself); without the
    prefix removal the function is idempotent; and for an integral limit
    [n > 0] the text has at most [n] code units. *)
Theorem normalizeAltText_normal alt m p :
  normalizeCaptionText (normalizeAltText alt m p) = normalizeAltText alt m p ∧
  normalizeAltText (normalizeAltText alt m p) m false = normalizeAltText alt m p ∧
  (∀ n, m = Some n → 0 < n → Z.of_nat (length (normalizeAltText alt m p)) ≤ n).
Proof.
  pose proof (normalizeAltText_tidy alt m p) as Ht. split_and!.
  - by apply tidy_fix.
  - pose proof (tidy_fix _ Ht) as Hfix. destruct Ht as (H1 & H2 & H3).
    unfold normalizeAltText at 1. rewrite (trim_id _ H1 H2).
    unfold collapseSpaces. rewrite (collapseFrom_id _ _ H3).
    destruct m as [n|]; [|done].
    destruct (0 <? n) eqn:E0; [|done]. apply Z.ltb_lt in E0.
    pose proof (normalizeAltText_length alt n p E0) as Hlen.
    by rewrite (proj2 (Z.ltb_ge _ _) Hlen).
  - intros n -> Hn. by apply normalizeAltText_length.
Qed.

Lemma normalizeAltText_normal_witness :
  normalizeAltText (lit "  Imagen  de un gato   negro ") (Some 9) true = lit "un gato n" ∧
  Z.of_nat (length (normalizeAltText (lit "  Imagen  de un gato   negro ") (Some 9) true)) ≤ 9.
Proof.
  split; [vm_compute; reflexivity|].
  apply (proj2 (proj2 (normalizeAltText_normal (lit "  Imagen  de un gato   negro ")
                         (Some 9) true)) 9 eq_refl).
  lia.
Defined.

(** X6. The ALT that [analyzeImage] returns for the provider openrouter
    (normalised, normalised once more, then closed by
    [ensureAltTrailingPeriodWithinLimit]) is empty exactly when the
    normalised ALT of the model is; otherwise it ends with one of [. ! ?]
    or the ellipsis; and for an integral limit [n > 0] it has at most [n]
    code units, the period included. *)
Theorem openRouterAlt_closed alt m p :
  (openRouterAlt alt m p = [] ↔ normalizeAltText alt m p = []) ∧
  (openRouterAlt alt m p ≠ [] → endsSentence (openRouterAlt alt m p) = true) ∧
  (∀ n, m = Some n → 0 < n → Z.of_nat (length (openRouterAlt alt m p)) ≤ n).
Proof.
  unfold openRouterAlt.
  pose proof (normalizeAltText_tidy alt m p) as Ht.
  destruct (normalizeAltText alt m p) as [|c s] eqn:E; [by split_and!; [|done|intros; cbn; lia]|].
  pose proof (normalizeAltText_nonempty (c :: s) m p Ht ltac:(done)) as Hne.
  pose proof (normalizeAltText_tidy (c :: s) m p) as Ht2.
  destruct (normalizeAltText (c :: s) m p) as [|c' s'] eqn:E2; [done|].
  destruct (ensureAlt_cases (c' :: s') m) as [[_ Hc]|(Hn & _ & _ & He)].
  { destruct Ht2 as (H1 & H2 & _). by rewrite (trim_id _ H1 H2) in Hc. }
  split_and!; [by split | done |].
  intros n -> Hpos. apply ensureAlt_length; [done|].
  rewrite <- E2. by apply normalizeAltText_length.
Qed.

Lemma openRouterAlt_closed_witness :
  openRouterAlt (lit "imagen de foto de un perro grande") (Some 12) true = lit "un p." ∧
  endsSentence (openRouterAlt (lit "imagen de foto de un perro grande") (Some 12) true) = true ∧
  Z.of_nat (length (openRouterAlt (lit "imagen de foto de un perro grande") (Some 12) true)) ≤ 12.
Proof.
  split; [vm_compute; reflexivity|].
  destruct (openRouterAlt_closed (lit "imagen de foto de un perro grande") (Some 12) true)
    as (_ & He & Hl).
  split; [apply He; vm_compute; discriminate | apply (Hl 12 eq_refl); lia].
Defined.

(** X7. [ensureTrailingPeriod] and [ensureAltTrailingPeriodWithinLimit]
    are idempotent; they return the empty text exactly for a text of white
    space only, and otherwise a text that ends with one of [. ! ?] or the
    ellipsis; a trimmed text that ends so already is returned as it is
    (whatever the limit), and [ensureTrailingPeriod] adds at most one code
    unit to the trimmed text. *)
Theorem trailing_period text m :
  ensureTrailingPeriod (ensureTrailingPeriod text) = ensureTrailingPeriod text ∧
  ensureAltTrailingPeriodWithinLimit (ensureAltTrailingPeriodWithinLimit text m) m =
    ensureAltTrailingPeriodWithinLimit text m ∧
  (ensureTrailingPeriod text = [] ↔ trim text = []) ∧
  (ensureAltTrailingPeriodWithinLimit text m = [] ↔ trim text = []) ∧
  (trim text ≠ [] →
     endsSentence (ensureTrailingPeriod text) = true ∧
     endsSentence (ensureAltTrailingPeriodWithinLimit text m) = true) ∧
  (endsSentence (trim text) = true →
     ensureTrailingPeriod text = trim text ∧
     ensureAltTrailingPeriodWithinLimit text m = trim text) ∧
  (length (ensureTrailingPeriod text) ≤ length (trim text) + 1)%nat.
Proof.
  split_and!.
  - destruct (ensureTrailingPeriod_cases text) as [[-> _]|(H0 & H1 & H2 & H3)]; [done|].
    by apply closed_fix.
  - destruct (ensureAlt_cases text m) as [[-> _]|(H0 & H1 & H2 & H3)]; [done|].
    by apply closed_fix.
  - destruct (ensureTrailingPeriod_cases text) as [[-> ->]|(H0 & _)]; [done|].
    split; [done|]. intros E. unfold ensureTrailingPeriod in H0. by rewrite E in H0.
  - destruct (ensureAlt_cases text m) as [[-> ->]|(H0 & _)]; [done|].
    split; [done|]. intros E. unfold ensureAltTrailingPeriodWithinLimit in H0.
    by rewrite E in H0.
  - intros Hne.
    destruct (ensureTrailingPeriod_cases text) as [[_ ?]|(_ & _ & _ & H3)]; [done|].
    destruct (ensureAlt_cases text m) as [[_ ?]|(_ & _ & _ & H4)]; done.
  - intros He. unfold ensureTrailingPeriod, ensureAltTrailingPeriodWithinLimit.
    rewrite He. by destruct (trim text).
  - unfold ensureTrailingPeriod. destruct (trim text) as [|c s]; [cbn; lia|].
    destruct (endsSentence (c :: s)); [lia|]. rewrite length_app. cbn. lia.
Qed.

Lemma trailing_period_witness :
  trim (lit " Hola mundo  ") ≠ [] ∧
  ensureTrailingPeriod (lit " Hola mundo  ") = lit "Hola mundo." ∧
  endsSentence (ensureTrailingPeriod (lit " Hola mundo  ")) = true.
Proof.
  assert (trim (lit " Hola mundo  ") ≠ []) as Hne by (vm_compute; discriminate).
  split; [exact Hne|]. split; [vm_compute; reflexivity|].
  exact (proj1 (proj1 (proj2 (proj2 (proj2 (proj2
           (trailing_period (lit " Hola mundo  ") None))))) Hne)).
Defined.

Lemma collapsed_space b s i c :
  collapsedFrom b s = true → lastOk s = true → s !! i = Some c → isSpace c = true →
  c = 32%N ∧ ∃ d, s !! S i = Some d ∧ isSpace d = false.
Proof.
  revert b i. induction s as [|e s IH]; intros b i Hb H2 Hi Hc; [done|].
  destruct i as [|i].
  - cbn in Hi. simplify_eq. cbn in Hb. rewrite Hc in Hb.
    apply andb_true_iff in Hb as [[->%N.eqb_eq _]%andb_true_iff Hb]. split; [done|].
    destruct s as [|d s].
    + by vm_compute in H2.
    + exists d. split; [done|]. cbn in Hb. destruct (isSpace d); [|done].
      by rewrite andb_false_r in Hb.
  - cbn in Hi. cbn in Hb.
    assert (s ≠ []) as Hs by (by destruct s).
    apply (IH (isSpace e) i); try done.
    + destruct (isSpace e); [|done]. by apply andb_true_iff in Hb as [_ Hb].
    + change (e :: s) with ([e] ++ s) in H2. by rewrite lastOk_app in H2.
Qed.

(** X8. [normalizeCaptionText] is idempotent, never longer than its
    argument, and leaves no white space at the ends of the text and no
    white space inside other than single spaces (U+0020). *)
Theorem normalizeCaptionText_normal s :
  normalizeCaptionText (normalizeCaptionText s) = normalizeCaptionText s ∧
  (length (normalizeCaptionText s) ≤ length s)%nat ∧
  trim (normalizeCaptionText s) = normalizeCaptionText s ∧
  collapseSpaces (normalizeCaptionText s) = normalizeCaptionText s ∧
  (∀ i c, normalizeCaptionText s !! i = Some c → isSpace c = true →
     c = 32%N ∧ ∃ d, normalizeCaptionText s !! S i = Some d ∧ isSpace d = false).
Proof.
  pose proof (tidy_caption s) as Ht. split_and!.
  - by apply tidy_fix.
  - unfold normalizeCaptionText, collapseSpaces.
    etrans; [apply collapseFrom_length | apply trim_length].
  - destruct Ht as (H1 & H2 & _). by apply trim_id.
  - destruct Ht as (_ & _ & H3). by apply collapseFrom_id.
  - destruct Ht as (_ & H2 & H3). intros i c. by apply (collapsed_space false).
Qed.

Lemma normalizeCaptionText_normal_witness :
  normalizeCaptionText (lit "  a photo 	 of   us ") !! 7%nat = Some 32%N ∧
  isSpace 32 = true ∧
  ∃ d, normalizeCaptionText (lit "  a photo 	 of   us ") !! 8%nat = Some d ∧
       isSpace d = false.
Proof.
  split; [reflexivity|]. split; [reflexivity|].
  destruct (normalizeCaptionText_normal (lit "  a photo 	 of   us ")) as (_ & _ & _ & _ & H).
  exact (proj2 (H 7%nat 32%N eq_refl eq_refl)).
Defined.

End TextFacts.

(** * Post-validation of the texts *)

Module ValidationFacts.
Import Text Validation TextFacts.

Lemma truthy_app_r cur c : truthy (cur ++ [c]) = true.
Proof. by destruct cur. Qed.

Lemma filter_truthy_cons (x : jstr) l :
  filter (λ w, truthy w = true) (x :: l) =
  (if truthy x then [x] else []) ++ filter (λ w, truthy w = true) l.
Proof. rewrite filter_cons. destruct x; cbn; case_decide; done. Qed.

Lemma splitFrom_words cur b s :
  (b = true → cur = []) →
  filter (λ w, truthy w = true) (splitFrom cur b s) = wordsFrom cur s.
Proof.
  revert cur b. induction s as [|c s IH]; intros cur b Hb; cbn [splitFrom wordsFrom].
  - rewrite filter_truthy_cons. by rewrite app_nil_r.
  - destruct (isSpace c).
    + destruct b.
      * rewrite (Hb eq_refl). cbn [app truthy]. by apply IH.
      * cbn [app]. rewrite filter_truthy_cons. f_equal. by apply IH.
    + apply IH. done.
Qed.

Lemma wordsFrom_trimStart s : wordsFrom [] (trimStart s) = wordsFrom [] s.
Proof. induction s as [|c s IH]; [done|]. cbn. destruct (isSpace c) eqn:E; [done|]. cbn. by rewrite E. Qed.

Lemma wordsFrom_spaces cur w :
  Forall (λ c, isSpace c = true) w → wordsFrom cur w = if truthy cur then [cur] else [].
Proof.
  revert cur. induction w as [|c w IH]; intros cur Hw; [done|].
  apply Forall_cons in Hw as [Hc Hw]. cbn. rewrite Hc, (IH [] Hw). cbn. by rewrite app_nil_r.
Qed.

Lemma wordsFrom_app_spaces cur s w :
  Forall (λ c, isSpace c = true) w → wordsFrom cur (s ++ w) = wordsFrom cur s.
Proof.
  intros Hw. revert cur. induction s as [|c s IH]; intros cur; cbn.
  - by apply wordsFrom_spaces.
  - destruct (isSpace c); [by rewrite IH | apply IH].
Qed.

Lemma words_trim s : words (trim s) = words s.
Proof.
  unfold words, trim. rewrite <- (wordsFrom_trimStart s).
  destruct (trimEnd_split (trimStart s)) as (w & Hs & Hw).
  rewrite Hs at 2. by rewrite wordsFrom_app_spaces.
Qed.

Lemma wordsFrom_nil_truthy cur s : truthy cur = true → wordsFrom cur s ≠ [].
Proof.
  revert cur. induction s as [|c s IH]; intros cur Hc; cbn.
  - by rewrite Hc.
  - destruct (isSpace c); [by rewrite Hc|]. apply IH, truthy_app_r.
Qed.

Lemma countWords_words s : countWords s = Z.of_nat (length (words s)).
Proof.
  unfold countWords. rewrite <- (words_trim s).
  pose proof (trim_headOk s) as Hh.
  destruct (trim s) as [|c t] eqn:E; [done|]. cbn [truthy].
  unfold splitSpaces, words. by rewrite splitFrom_words.
Qed.

Lemma wordsFrom_solid cur w rest :
  solid w → wordsFrom cur (w ++ rest) = wordsFrom (cur ++ w) rest.
Proof.
  revert cur. induction w as [|c w IH]; intros cur Hw; cbn.
  - by rewrite app_nil_r.
  - apply Forall_cons in Hw as [Hc Hw]. rewrite Hc, (IH _ Hw). by rewrite <- app_assoc.
Qed.

Lemma words_joinSpace ws :
  Forall solid ws → words (joinSpace ws) = filter (λ w, truthy w = true) ws.
Proof.
  unfold words. induction ws as [|w ws IH]; intros Hws; [done|].
  apply Forall_cons in Hws as [Hw Hws]. rewrite filter_truthy_cons.
  destruct ws as [|w' ws].
  - cbn [joinSpace]. rewrite <- (app_nil_r w) at 1. rewrite wordsFrom_solid by done.
    cbn. by rewrite app_nil_r.
  - change (joinSpace (w :: w' :: ws)) with (w ++ [32%N] ++ joinSpace (w' :: ws)).
    rewrite wordsFrom_solid by done. cbn [app wordsFrom].
    change (isSpace 32) with true. cbn iota. by rewrite IH.
Qed.

Lemma splitFrom_solid cur b s : solid cur → Forall solid (splitFrom cur b s).
Proof.
  revert cur b. induction s as [|c s IH]; intros cur b Hcur; cbn.
  - by apply Forall_singleton.
  - destruct (isSpace c) eqn:E.
    + apply Forall_app. split; [destruct b; [constructor | by apply Forall_singleton]|].
      apply IH. constructor.
    + apply IH. apply Forall_app. split; [done|]. by apply Forall_singleton.
Qed.

Lemma filter_truthy_length (l : list jstr) :
  (length (filter (λ w, truthy w = true) l) ≤ length l)%nat.
Proof. apply length_filter. Qed.

Lemma countWords_truncated k s :
  countWords (joinSpace (take k (splitSpaces s))) ≤ Z.of_nat k.
Proof.
  rewrite countWords_words, words_joinSpace.
  - pose proof (filter_truthy_length (take k (splitSpaces s))) as H.
    rewrite length_take in H. lia.
  - apply Forall_take, splitFrom_solid. constructor.
Qed.

Lemma wordsFrom_collapse cur b s :
  (b = true → cur = []) → wordsFrom cur (collapseFrom b s) = wordsFrom cur s.
Proof.
  revert cur b. induction s as [|c s IH]; intros cur b Hb; [done|]. cbn.
  destruct (isSpace c) eqn:E.
  - destruct b.
    + rewrite (Hb eq_refl). cbn. by apply IH.
    + cbn. change (isSpace 32) with true. cbn iota. f_equal. by apply IH.
  - cbn. rewrite E. by apply IH.
Qed.


(** X9. [countWords] counts the maximal pieces of the text without white
    space.  It gives the same number for a text, for the trimmed text and
    for the text after [normalizeCaptionText]; the pieces of
    [split(/\s+/)] hold no white space; joined again with spaces, [k] of
    them make a text of as many words as there are non-empty pieces among
    them, so at most [k]. *)
Theorem countWords_pieces s :
  countWords s = Z.of_nat (length (words s)) ∧
  countWords (trim s) = countWords s ∧
  countWords (normalizeCaptionText s) = countWords s ∧
  Forall solid (splitSpaces s) ∧
  (∀ ws, Forall solid ws →
     countWords (joinSpace ws) = Z.of_nat (length (filter (λ w, truthy w = true) ws))) ∧
  (∀ k, countWords (joinSpace (take k (splitSpaces s))) ≤ Z.of_nat k).
Proof.
  split_and!.
  - apply countWords_words.
  - by rewrite !countWords_words, words_trim.
  - rewrite !countWords_words. unfold normalizeCaptionText, collapseSpaces, words.
    rewrite wordsFrom_collapse by done. fold (words (trim s)). by rewrite words_trim.
  - apply splitFrom_solid. constructor.
  - intros ws Hws. by rewrite countWords_words, words_joinSpace.
  - intros k. apply countWords_truncated.
Qed.

Lemma countWords_pieces_witness :
  Forall solid [lit "uno"; []; lit "dos"] ∧
  countWords (joinSpace [lit "uno"; []; lit "dos"]) = 2.
Proof.
  assert (Forall solid [lit "uno"; []; lit "dos"]) as Hs.
  { repeat constructor. }
  split; [exact Hs|].
  exact (proj1 (proj2 (proj2 (proj2 (proj2 (countWords_pieces [])))))
           [lit "uno"; []; lit "dos"] Hs).
Defined.

Section Validated.

Variable toLowerCase : jstr → jstr.

Lemma checkAltTitle_ok cfg f e t :
  checkAltTitle toLowerCase cfg f e = inr t →
  let tmin := default 2 (postValidationTitleMinWords cfg) in
  let tmax := default 8 (postValidationTitleMaxWords cfg) in
  let amin := default 0 (postValidationAltMinChars cfg) in
  countWords t ≤ Z.max 1 (Z.max tmin tmax) ∧
  (countWords (title f) ≤ Z.max tmin tmax → t = title f) ∧
  (Z.max tmin tmax < countWords (title f) →
     t = joinSpace (take (Z.to_nat (Z.max 1 tmax)) (splitSpaces (title f)))) ∧
  (countWords (title f) = 0 ∨ Z.max 1 tmin ≤ countWords (title f)) ∧
  (e = false → 0 < amin → amin ≤ Z.of_nat (length (alt f))) ∧
  (postValidationRejectGeneric cfg = true →
     (alt f ≠ [] → isGenericText toLowerCase (alt f) = false) ∧ (t ≠ [] → isGenericText toLowerCase t = false)).
Proof.
  unfold checkAltTitle. cbv zeta.
  set (tmin := default 2 (postValidationTitleMinWords cfg)).
  set (tmax := default 8 (postValidationTitleMaxWords cfg)).
  set (amin := default 0 (postValidationAltMinChars cfg)).
  destruct (negb e && (0 <? amin) && (Z.of_nat (length (alt f)) <? amin)) eqn:E1; [done|].
  destruct (postValidationRejectGeneric cfg && truthy (alt f) && isGenericText toLowerCase (alt f)) eqn:E2;
    [done|].
  destruct ((0 <? countWords (title f)) && (countWords (title f) <? Z.max 1 tmin)) eqn:E3;
    [done|].
  set (t' := if Z.max tmin tmax <? countWords (title f) then _ else _).
  destruct (postValidationRejectGeneric cfg && truthy t' && isGenericText toLowerCase t') eqn:E4; [done|].
  intros [= <-].
  pose proof (countWords_words (title f)) as Hnn.
  assert (countWords (title f) = 0 ∨ Z.max 1 tmin ≤ countWords (title f)) as Htw.
  { apply andb_false_iff in E3 as [E3|E3]; [apply Z.ltb_ge in E3 | apply Z.ltb_ge in E3];
      lia. }
  split_and!.
  - unfold t'. destruct (Z.max tmin tmax <? countWords (title f)) eqn:E5.
    + pose proof (countWords_truncated (Z.to_nat (Z.max 1 tmax)) (title f)). lia.
    + apply Z.ltb_ge in E5. lia.
  - intros H. unfold t'. by rewrite (proj2 (Z.ltb_ge _ _) H).
  - intros H. unfold t'. by rewrite (proj2 (Z.ltb_lt _ _) H).
  - done.
  - intros -> Ha. cbn in E1. rewrite (proj2 (Z.ltb_lt _ _) Ha) in E1. cbn in E1.
    by apply Z.ltb_ge in E1.
  - intros Hr. rewrite Hr in E2, E4. cbn in E2, E4. split.
    + intros Hne. destruct (alt f); [done|]. done.
    + intros Hne. destruct t'; [done|]. done.
Qed.

Lemma checkCaption_ok cfg f :
  checkCaption toLowerCase cfg f = None →
  let cmin := default 0 (postValidationCaptionMinChars cfg) in
  (0 < cmin → cmin ≤ Z.of_nat (length (leyenda f))) ∧
  (postValidationRejectGeneric cfg = true → leyenda f ≠ [] → isGenericText toLowerCase (leyenda f) = false).
Proof.
  unfold checkCaption. cbv zeta.
  set (cmin := default 0 (postValidationCaptionMinChars cfg)).
  destruct ((0 <? cmin) && (Z.of_nat (length (leyenda f)) <? cmin)) eqn:E1; [done|].
  destruct (postValidationRejectGeneric cfg && truthy (leyenda f) && isGenericText toLowerCase (leyenda f))
    eqn:E2; [done|].
  intros _. split.
  - intros Hc. rewrite (proj2 (Z.ltb_lt _ _) Hc) in E1. cbn in E1. by apply Z.ltb_ge in E1.
  - intros Hr Hne. rewrite Hr in E2. cbn in E2. by destruct (leyenda f).
Qed.

(** X10. What [applyPostValidation] guarantees when it returns instead of
    throwing.  The ALT and the caption are returned as given, and with the
    validation switched off so is the title.  With it on and a mode other
    than [caption]: the title has at most [max(1, titleMinWords,
    titleMaxWords)] words, it is the given title unless that had more than
    [max(titleMinWords, titleMaxWords)] words (then it is made of the first
    [max(1, titleMaxWords)] pieces of the split title), a non-empty title
    has at least [max(1, titleMinWords)] words, the ALT has at least
    [altMinChars] code units unless it may be empty, and with
    [rejectGeneric] neither a non-empty ALT nor a non-empty title is a
    generic text.  With a mode other than [alt] the same holds of the
    caption. *)
Theorem post_validation cfg mode f e out :
  applyPostValidation toLowerCase cfg mode f e = inr out →
  let tmin := default 2 (postValidationTitleMinWords cfg) in
  let tmax := default 8 (postValidationTitleMaxWords cfg) in
  let amin := default 0 (postValidationAltMinChars cfg) in
  let cmin := default 0 (postValidationCaptionMinChars cfg) in
  alt out = alt f ∧ leyenda out = leyenda f ∧
  (postValidationEnabled cfg = false → out = f) ∧
  (Js.or_else mode "both" = "caption"%string → title out = title f) ∧
  (postValidationEnabled cfg = true → Js.or_else mode "both" ≠ "caption"%string →
     countWords (title out) ≤ Z.max 1 (Z.max tmin tmax) ∧
     (countWords (title f) ≤ Z.max tmin tmax → title out = title f) ∧
     (Z.max tmin tmax < countWords (title f) →
        title out = joinSpace (take (Z.to_nat (Z.max 1 tmax)) (splitSpaces (title f)))) ∧
     (countWords (title f) = 0 ∨ Z.max 1 tmin ≤ countWords (title f)) ∧
     (e = false → 0 < amin → amin ≤ Z.of_nat (length (alt f))) ∧
     (postValidationRejectGeneric cfg = true →
        (alt f ≠ [] → isGenericText toLowerCase (alt f) = false) ∧
        (title out ≠ [] → isGenericText toLowerCase (title out) = false))) ∧
  (postValidationEnabled cfg = true → Js.or_else mode "both" ≠ "alt"%string →
     (0 < cmin → cmin ≤ Z.of_nat (length (leyenda f))) ∧
     (postValidationRejectGeneric cfg = true → leyenda f ≠ [] →
        isGenericText toLowerCase (leyenda f) = false)).
Proof.
  unfold applyPostValidation. cbv zeta.
  destruct (postValidationEnabled cfg) eqn:En; cbn [negb].
  2: { intros [= <-]. by split_and!. }
  set (m := Js.or_else mode "both").
  destruct (String.eqb m "caption") eqn:Ec.
  - apply String.eqb_eq in Ec.
    destruct (String.eqb m "alt") eqn:Ea.
    { apply String.eqb_eq in Ea. congruence. }
    destruct (checkCaption toLowerCase cfg f) as [err|] eqn:Ek; [done|].
    intros [= <-]. cbn. apply checkCaption_ok in Ek. split_and!; try done.
  - apply String.eqb_neq in Ec.
    destruct (checkAltTitle toLowerCase cfg f e) as [err|t] eqn:Et; [done|].
    apply checkAltTitle_ok in Et.
    destruct (String.eqb m "alt") eqn:Ea.
    + apply String.eqb_eq in Ea. intros [= <-]. cbn. split_and!; try done.
    + destruct (checkCaption toLowerCase cfg f) as [err|] eqn:Ek; [done|].
      intros [= <-]. cbn. apply checkCaption_ok in Ek. split_and!; try done.
Qed.

End Validated.

Lemma post_validation_witness :
  applyPostValidation lowerAscii strictCfg "alt" longTitle false = inr cutTitle ∧
  applyPostValidation lowerAscii strictCfg "both" longTitle false = inl CaptionGeneric ∧
  countWords (title cutTitle) ≤ 3.
Proof.
  assert (applyPostValidation lowerAscii strictCfg "alt" longTitle false = inr cutTitle)
    as H by (vm_compute; reflexivity).
  split; [exact H|]. split; [vm_compute; reflexivity|].
  destruct (post_validation lowerAscii strictCfg "alt" longTitle false cutTitle H)
    as (_ & _ & _ & _ & Ht & _).
  exact (proj1 (Ht eq_refl ltac:(discriminate))).
Defined.

End ValidationFacts.

(** * The history of results *)

Module HistoryFacts.
Import History.

Lemma clampHistory_small {A} (items : list A) n :
  0 < n < 2 ^ 31 → clampHistory items (Some n) = take (Z.to_nat n) items.
Proof.
  intros Hn. unfold clampHistory.
  rewrite (proj2 (Z.ltb_ge n 0)), (proj2 (Z.eqb_neq n 0)) by lia. cbn [orb].
  rewrite toInt32_small by lia. unfold Js.slice0.
  rewrite (proj2 (Z.ltb_ge _ 0)) by lia. f_equal. lia.
Qed.

Lemma clampHistory_prefix {A} (items : list A) m : ∃ k, clampHistory items m = take k items.
Proof.
  unfold clampHistory. destruct m as [n|]; [|exists (length items); by rewrite firstn_all].
  destruct ((n <? 0) || (n =? 0)); [exists (length items); by rewrite firstn_all|].
  unfold Js.slice0. rewrite (proj2 (Z.ltb_ge _ 0)) by lia. eauto.
Qed.

(** X11. [clampHistory] returns a prefix of the array.  A limit that is
    not finite, zero or negative keeps everything; an integral limit [n]
    with [0 < n < 2^31] keeps the first [n] items; and, the limit being
    cut to 32 bits by [n | 0], a limit from [2^31] to [2^32] empties the
    history.  So the history that [analyzeImage] stores begins with the new
    record whenever it is not empty, holds at most [historyLimit] records
    for such a limit below [2^31] (20 when the setting is not a number),
    and the history written after a failed write holds at most 50. *)
Theorem history_clamped {A} (record : A) (stored : list A) (limit : option Z) :
  (∀ (items : list A) m, ∃ k, clampHistory items m = take k items) ∧
  (∀ (items : list A) n, n ≤ 0 → clampHistory items (Some n) = items) ∧
  (∀ items : list A, clampHistory items None = items) ∧
  (∀ (items : list A) n, 0 < n < 2 ^ 31 →
     clampHistory items (Some n) = take (Z.to_nat n) items) ∧
  (∀ (items : list A) n, 2 ^ 31 ≤ n ≤ 2 ^ 32 → clampHistory items (Some n) = []) ∧
  (storedHistory record stored limit = [] ∨
   head (storedHistory record stored limit) = Some record) ∧
  (∀ n, limit = Some n → 0 < n < 2 ^ 31 →
     Z.of_nat (length (storedHistory record stored limit)) ≤ n) ∧
  (limit = None → (length (storedHistory record stored limit) ≤ 20)%nat) ∧
  (length (fallbackHistory record stored limit) ≤ 50)%nat.
Proof.
  split_and!.
  - intros items m. apply (clampHistory_prefix (A:=A)).
  - intros items n Hn. unfold clampHistory.
    destruct (Z.ltb_spec n 0); [done|]. by rewrite (proj2 (Z.eqb_eq n 0)) by lia.
  - done.
  - intros items n. apply clampHistory_small.
  - intros items n Hn. unfold clampHistory.
    rewrite (proj2 (Z.ltb_ge n 0)), (proj2 (Z.eqb_neq n 0)) by lia. cbn [orb].
    assert (Js.toInt32 n ≤ 0) as Hw.
    { unfold Js.toInt32. change (2 ^ 31) with 2147483648 in *.
      change (2 ^ 32) with 4294967296 in *.
      destruct (decide (n = 4294967296)) as [->|]; [by vm_compute|].
      replace (n + 2147483648) with (n - 2147483648 + 1 * 4294967296) by lia.
      rewrite Z.mod_add by lia. rewrite Z.mod_small; lia. }
    unfold Js.slice0. rewrite (proj2 (Z.ltb_ge _ 0)) by lia.
    by replace (Z.max 0 (Js.toInt32 n)) with 0 by lia.
  - unfold storedHistory. destruct (clampHistory_prefix (record :: stored) (limitOf limit))
      as (k & ->). destruct k; [by left | by right].
  - intros n -> Hn. unfold storedHistory, limitOf. cbn [default].
    rewrite clampHistory_small by done. rewrite length_take. unfold id. lia.
  - intros ->. unfold storedHistory, limitOf. cbn [default].
    rewrite clampHistory_small by lia. rewrite length_take. lia.
  - unfold fallbackHistory. rewrite clampHistory_small by lia. rewrite length_take. lia.
Qed.

Lemma history_clamped_witness :
  0 < 3 < 2 ^ 31 ∧ 2 ^ 31 ≤ 3000000000 ≤ 2 ^ 32 ∧
  storedHistory 9 [8; 7; 6; 5] (Some 3) = [9; 8; 7] ∧
  Z.of_nat (length (storedHistory 9 [8; 7; 6; 5] (Some 3))) ≤ 3 ∧
  clampHistory [9; 8; 7; 6; 5] (Some 3000000000) = [].
Proof.
  assert (0 < 3 < 2 ^ 31) as H3 by lia.
  assert (2 ^ 31 ≤ 3000000000 ≤ 2 ^ 32) as Hbig by lia.
  split; [exact H3|]. split; [exact Hbig|]. split; [vm_compute; reflexivity|].
  destruct (history_clamped 9 [8; 7; 6; 5] (Some 3)) as (_ & _ & _ & _ & He & _ & Hl & _).
  split; [exact (Hl 3 eq_refl H3) | exact (He [9; 8; 7; 6; 5] 3000000000 Hbig)].
Defined.

End HistoryFacts.

(** * The debug log *)

Module DebugLogFacts.
Import Text DebugLog.

(** Induction on a value, with the hypothesis for every item of an array
    and every property of an object. *)
Lemma JVal_ind' (P : JVal → Prop) :
  P JUndefined → P JNull → (∀ b, P (JBool b)) → (∀ n, P (JNum n)) → (∀ s, P (JStr s)) →
  (∀ items, Forall P items → P (JArr items)) →
  (∀ props, Forall (λ kv, P kv.2) props → P (JObj props)) →
  ∀ v, P v.
Proof.
  intros H1 H2 H3 H4 H5 H6 H7.
  fix IH 1. intros [| | b | n | s | items | props];
    [exact H1 | exact H2 | apply H3 | apply H4 | apply H5 | |].
  - apply H6. induction items as [|w l IHl]; constructor; [apply IH | apply IHl].
  - apply H7. induction props as [|[k w] l IHl]; constructor; [apply IH | apply IHl].
Qed.

Section Truncated.

Variable toLowerCase : jstr → jstr.

Lemma truncateString_length m s :
  0 ≤ m → Z.of_nat (length (truncateString m s)) ≤ m + 3.
Proof.
  intros Hm. unfold truncateString. destruct (m <? Z.of_nat (length s)) eqn:E.
  - apply Z.ltb_lt in E. unfold Js.slice0. rewrite (proj2 (Z.ltb_ge m 0)) by lia.
    rewrite length_app, length_take. cbn. lia.
  - apply Z.ltb_ge in E. lia.
Qed.

Lemma truncateString_idem m s :
  0 ≤ m → truncateString m (truncateString m s) = truncateString m s.
Proof.
  intros Hm. unfold truncateString at 2. destruct (m <? Z.of_nat (length s)) eqn:E.
  - apply Z.ltb_lt in E. unfold truncateString, Js.slice0.
    rewrite (proj2 (Z.ltb_ge m 0)) by lia.
    assert (length (take (Z.to_nat m) s) = Z.to_nat m) as Hl by (rewrite length_take; lia).
    assert ((m <? Z.of_nat (length (take (Z.to_nat m) s ++ lit "..."))) = true) as ->.
    { apply Z.ltb_lt. rewrite length_app, Hl. cbn. lia. }
    rewrite take_app_le by lia.
    by rewrite take_take, Nat.min_id, (proj2 (Z.ltb_lt _ _) E).
  - unfold truncateString. by rewrite E.
Qed.

Lemma truncateStrings_arr m items :
  truncateStrings toLowerCase m (JArr items) =
  JArr (map (truncateStrings toLowerCase m) (take 50 items)).
Proof.
  assert (∀ n l,
    (fix first (n : nat) (l : list JVal) : list JVal :=
       match n, l with
       | S n', v :: l' => truncateStrings toLowerCase m v :: first n' l'
       | _, _ => []
       end) n l = map (truncateStrings toLowerCase m) (take n l)) as H.
  { induction n as [|n IH]; intros [|v l]; try done. cbn. by rewrite <- IH. }
  rewrite <- H. reflexivity.
Qed.

Lemma leaks_arr (secret : jstr → bool) l : leaks secret (JArr l) = existsb (leaks secret) l.
Proof. induction l as [|w l IH]; [done|]. cbn in *. by rewrite IH. Qed.

Lemma bounded_arr n l :
  bounded n (JArr l) = (length l <=? 50)%nat && forallb (bounded n) l.
Proof. reflexivity. Qed.

Lemma existsb_false {A} (f : A → bool) l : Forall (λ x, f x = false) l → existsb f l = false.
Proof. induction 1 as [|x l Hx _ IH]; cbn; rewrite ?Hx, ?IH; done. Qed.

Lemma forallb_true {A} (f : A → bool) l : Forall (λ x, f x = true) l → forallb f l = true.
Proof. induction 1 as [|x l Hx _ IH]; cbn; rewrite ?Hx, ?IH; done. Qed.

Lemma trunc_no_leak m v :
  leaks (isSecretName toLowerCase) (truncateStrings toLowerCase m v) = false.
Proof.
  induction v as [| | | | |items IH|props IH] using JVal_ind'; try done.
  - rewrite truncateStrings_arr, leaks_arr. apply existsb_false.
    apply Forall_map. by apply Forall_take.
  - cbn. induction IH as [|[k w] l Hw _ IHl]; [done|].
    destruct (isSecretName toLowerCase k) eqn:Ek; [done|]. cbn. rewrite Ek, IHl. cbn in Hw.
    destruct w; try done; cbn in *; by rewrite Hw.
Qed.

Lemma trunc_bounded m v : 0 ≤ m → bounded (m + 3) (truncateStrings toLowerCase m v) = true.
Proof.
  intros Hm. induction v as [| | | | |items IH|props IH] using JVal_ind'; try done.
  - rewrite truncateStrings_arr, bounded_arr. apply andb_true_iff. split.
    + apply Nat.leb_le. rewrite length_map, length_take. lia.
    + apply forallb_true, Forall_map. by apply Forall_take.
  - cbn. induction IH as [|[k w] l Hw _ IHl]; [done|].
    destruct (isSecretName toLowerCase k) eqn:Ek; [done|]. cbn. rewrite IHl, andb_true_r.
    cbn in Hw. destruct w; try done.
    apply Z.leb_le. by apply truncateString_length.
Qed.

Lemma trunc_idem m v :
  0 ≤ m →
  truncateStrings toLowerCase m (truncateStrings toLowerCase m v) =
  truncateStrings toLowerCase m v.
Proof.
  intros Hm. induction v as [| | | | |items IH|props IH] using JVal_ind'; try done.
  - rewrite !truncateStrings_arr. f_equal.
    rewrite firstn_all2 by (rewrite length_map, length_take; lia).
    rewrite map_map. apply map_ext_Forall. by apply Forall_take.
  - cbn. f_equal. induction IH as [|[k w] l Hw _ IHl]; [done|].
    destruct (isSecretName toLowerCase k) eqn:Ek; [done|]. cbn. rewrite Ek, IHl.
    f_equal. f_equal. cbn in Hw. destruct w; try done.
    cbn. by rewrite truncateString_idem.
Qed.

(** X12. [truncateStrings] never returns an object with a property whose
    name, in lower case, contains [apikey] or [api_key], at any depth.  For
    a limit [maxLen >= 0] every string that is a property of an object of
    the result has at most [maxLen + 3] code units and every array at most
    50 items, and the function is idempotent.  It does not shorten a string
    that is the value itself or an item of an array. *)
Theorem truncateStrings_safe m v :
  leaks (isSecretName toLowerCase) (truncateStrings toLowerCase m v) = false ∧
  (0 ≤ m →
     bounded (m + 3) (truncateStrings toLowerCase m v) = true ∧
     truncateStrings toLowerCase m (truncateStrings toLowerCase m v) =
       truncateStrings toLowerCase m v) ∧
  (∀ s, truncateStrings toLowerCase m (JStr s) = JStr s ∧
        truncateStrings toLowerCase m (JArr [JStr s]) = JArr [JStr s]).
Proof.
  split_and!.
  - apply trunc_no_leak.
  - intros Hm. split; [by apply trunc_bounded | by apply trunc_idem].
  - intros s. split; reflexivity.
Qed.

(** X13. [addDebugLog] writes nothing when debugging is off.  When it is
    on it writes at most 50 entries: the new entry first, with the time and
    the event given and with the data after [truncateStrings] (so without
    a secret property, every string property at most 503 code units long),
    followed by the first 49 of the entries that were stored. *)
Theorem addDebugLog_bounded debugEnabled stored now ev d :
  (debugEnabled = false → addDebugLog toLowerCase debugEnabled stored now ev d = None) ∧
  (debugEnabled = true →
     ∃ e, addDebugLog toLowerCase debugEnabled stored now ev d = Some (e :: take 49 stored) ∧
          ts e = now ∧ event e = ev ∧
          leaks (isSecretName toLowerCase) (data e) = false ∧
          bounded 503 (data e) = true) ∧
  (∀ log, addDebugLog toLowerCase debugEnabled stored now ev d = Some log →
     (length log ≤ 50)%nat ∧ length log = Nat.min 50 (S (length stored))).
Proof.
  unfold addDebugLog. split_and!.
  - by intros ->.
  - intros ->. cbn [negb]. eexists. split; [reflexivity|]. cbn [ts event data].
    split_and!; [done | done | apply trunc_no_leak |].
    by apply (trunc_bounded 500).
  - intros log. destruct debugEnabled; cbn [negb]; [|done]. intros [= <-].
    change (take 50 (?e :: stored)) with (e :: take 49 stored).
    cbn [length]. rewrite length_take. lia.
Qed.

End Truncated.

Lemma truncateStrings_safe_witness :
  0 ≤ 3 ∧
  truncateStrings lowerAscii 3 loggedSample = loggedResult ∧
  bounded 6 (truncateStrings lowerAscii 3 loggedSample) = true.
Proof.
  assert (0 ≤ 3) as H3 by lia.
  split; [exact H3|]. split; [vm_compute; reflexivity|].
  exact (proj1 (proj1 (proj2 (truncateStrings_safe lowerAscii 3 loggedSample)) H3)).
Defined.

Lemma addDebugLog_bounded_witness :
  ∃ e, addDebugLog lowerAscii true [] "t" "auto_upload_start" loggedSample = Some [e] ∧
       leaks (isSecretName lowerAscii) (data e) = false.
Proof.
  destruct (proj1 (proj2 (addDebugLog_bounded lowerAscii true [] "t" "auto_upload_start"
                            loggedSample)) eq_refl) as (e & He & _ & _ & Hl & _).
  exists e. split; [exact He | exact Hl].
Defined.
End DebugLogFacts.

(** * The metrics *)

Module MetricsFacts.
Import Metrics.

Lemma fold_insert_fresh {A} (f : A → Z) (m : gmap string A) k x :
  m !! k = None →
  map_fold (λ _ y acc, f y + acc) 0 (<[k := x]> m) = f x + map_fold (λ _ y acc, f y + acc) 0 m.
Proof.
  intros Hk. apply (map_fold_insert_L (λ _ y acc, f y + acc)); [|done].
  intros. lia.
Qed.

Lemma sumOver_Some {A} (f : A → Z) (m : gmap string A) :
  sumOver f (Some m) = map_fold (λ _ y acc, f y + acc) 0 m.
Proof. reflexivity. Qed.

Lemma sumOver_insert {A} (f : A → Z) (m : gmap string A) k x :
  sumOver f (Some (<[k := x]> m)) =
  sumOver f (Some m) - match m !! k with Some y => f y | None => 0 end + f x.
Proof.
  rewrite !sumOver_Some. destruct (m !! k) as [y|] eqn:E.
  - assert (map_fold (λ _ z acc, f z + acc) 0 (<[k := x]> m) =
            f x + map_fold (λ _ z acc, f z + acc) 0 (delete k m)) as ->.
    { rewrite <- insert_delete_eq. apply fold_insert_fresh, lookup_delete_eq. }
    assert (map_fold (λ _ z acc, f z + acc) 0 m =
            f y + map_fold (λ _ z acc, f z + acc) 0 (delete k m)) as ->.
    { rewrite <- (insert_delete_id m k y E) at 1.
      apply fold_insert_fresh, lookup_delete_eq. }
    lia.
  - rewrite fold_insert_fresh by done. lia.
Qed.

Lemma sumOver_none {A} (f : A → Z) : sumOver f None = 0.
Proof. reflexivity. Qed.

Lemma sumOver_default {A} (f : A → Z) (m : option (gmap string A)) :
  sumOver f (Some (default ∅ m)) = sumOver f m.
Proof. by destruct m. Qed.

Lemma countIn_sums isOk name m :
  sumOver calls (countIn isOk name m) = sumOver calls m + 1 ∧
  sumOver ok (countIn isOk name m) = sumOver ok m + (if isOk then 1 else 0) ∧
  sumOver error (countIn isOk name m) = sumOver error m + (if isOk then 0 else 1).
Proof.
  unfold countIn. rewrite !sumOver_insert, !sumOver_default.
  destruct (default ∅ m !! name) as [c|]; destruct isOk; cbn; lia.
Qed.

Lemma noMetrics_consistent : Consistent noMetrics.
Proof.
  split; unfold totalOf; cbn [noMetrics total byProviderModel bySource byMode];
    rewrite ?sumOver_none; lia.
Qed.

(** X14. [addMetricsSample] keeps the stored metrics consistent: if, before,
    [calls = ok + error] holds of the total, no total is negative, and the
    entries of each of the tables [byProviderModel], [bySource] and
    [byMode] add up to the totals, then the same holds after; the total
    number of calls grows by one and the total time by [max(0, ms)]; and
    the empty metrics are consistent. *)
Theorem metrics_consistent cfg sample now iso m :
  Consistent m →
  Consistent (addMetricsSample cfg sample now iso m) ∧
  totalOf t_calls (addMetricsSample cfg sample now iso m) = totalOf t_calls m + 1 ∧
  totalOf t_totalMs (addMetricsSample cfg sample now iso m) =
    totalOf t_totalMs m + Z.max 0 (s_ms sample) ∧
  Consistent noMetrics.
Proof.
  intros [Ht Hm Hs Hd].
  assert (Consistent noMetrics) as H0 by apply noMetrics_consistent.
  split_and!; [|by destruct m as [[t|]] | by destruct m as [[t|]] | done].
  pose proof (countIn_sums (s_ok sample) (Js.or_else (s_source sample) "manual") (bySource m))
    as (Hs1 & Hs2 & Hs3).
  pose proof (countIn_sums (s_ok sample) (Js.or_else (s_mode sample) "both") (byMode m))
    as (Hd1 & Hd2 & Hd3).
  unfold addMetricsSample.
  split; unfold totalOf in *; cbn [total byProviderModel bySource byMode
                                   t_calls t_ok t_error t_totalMs].
  - destruct (total m) as [t|]; cbn [default t_calls t_ok t_error t_totalMs];
      destruct (s_ok sample); unfold id; lia.
  - rewrite !sumOver_insert, !sumOver_default.
    destruct (default ∅ (byProviderModel m) !! keyOf cfg sample) as [pm|];
      cbn [default pm_calls pm_ok pm_error pm_totalMs];
      destruct (total m) as [t|]; cbn [default t_calls t_ok t_error t_totalMs];
      destruct (s_ok sample); unfold id; lia.
  - destruct (total m) as [t|]; cbn [default t_calls t_ok t_error t_totalMs];
      destruct (s_ok sample); unfold id; lia.
  - destruct (total m) as [t|]; cbn [default t_calls t_ok t_error t_totalMs];
      destruct (s_ok sample); unfold id; lia.
Qed.

Lemma metrics_consistent_witness :
  Consistent (addMetricsSample someCfg failedSample 1000 "t" noMetrics) ∧
  Consistent (addMetricsSample someCfg okSample 2000 "u"
                (addMetricsSample someCfg failedSample 1000 "t" noMetrics)) ∧
  totalOf t_calls (addMetricsSample someCfg okSample 2000 "u"
                     (addMetricsSample someCfg failedSample 1000 "t" noMetrics)) = 2.
Proof.
  pose proof noMetrics_consistent as H0.
  pose proof (metrics_consistent someCfg failedSample 1000 "t" noMetrics H0) as (H1 & _).
  pose proof (metrics_consistent someCfg okSample 2000 "u" _ H1) as (H2 & _).
  split; [exact H1|]. split; [exact H2 | reflexivity].
Defined.

End MetricsFacts.

(** * The trigger of the content script *)

Module TriggerFacts.
Import Tracker Trigger.

Lemma markUploadSignal_byId now u : byId (markUploadSignal now u) = byId u.
Proof. reflexivity. Qed.

Lemma noteAttachmentMeta_inFlight now el initial u id :
  inFlight id u → inFlight id (noteAttachmentMeta now el initial u).2.
Proof.
  intros (m & Hm & Ht). unfold inFlight, noteAttachmentMeta.
  destruct (Js.falsy (data_id el)); [by exists m|].
  destruct (decide (data_id el = id)) as [->|Hne].
  - rewrite Hm.
    destruct (classSaysUpload (className el)); cbn [snd];
      rewrite ?markUploadSignal_byId; cbn [byId set_byId]; rewrite lookup_insert_eq;
      eexists; (split; [reflexivity|]); by destruct (initial && initialScan m).
  - destruct (classSaysUpload (className el)); cbn [snd];
      rewrite ?markUploadSignal_byId; cbn [byId set_byId];
      rewrite lookup_insert_ne by done; by exists m.
Qed.

Lemma noteAttachmentMeta_id now el initial u id u1 :
  noteAttachmentMeta now el initial u = (Some id, u1) →
  id = data_id el ∧ id ≠ EmptyString ∧ is_Some (byId u1 !! id) ∧
  (∀ m, byId u !! id = Some m → ∃ m', byId u1 !! id = Some m' ∧ triggered m' = triggered m).
Proof.
  unfold noteAttachmentMeta. destruct (Js.falsy (data_id el)) eqn:Ef; [done|].
  apply falsy_false in Ef.
  destruct (classSaysUpload (className el)); intros [= <- <-];
    rewrite ?markUploadSignal_byId; cbn [byId set_byId]; rewrite lookup_insert_eq;
    (split_and!; [done | done | by eexists |]);
    intros m ->; eexists; (split; [reflexivity|]); by destruct (initial && initialScan m).
Qed.

(** X15. The content script sends at most one message per attachment at a
    time.  When [maybeAutoProcessUploadedAttachment] decides to process an
    element, the attachment is the one of the element's [data-id], the
    image URL is not empty, and the attachment is marked as triggered; and
    as long as it is, every further call, for whatever element, leaves it
    so, and a call for an element of that attachment sends nothing. *)
Theorem triggered_once id u :
  (∀ now el cand url u1,
     maybeAutoProcessUploadedAttachment now el cand u = (Process id url, u1) →
     id = data_id el ∧ url ≠ EmptyString ∧ inFlight id u1) ∧
  (inFlight id u →
     ∀ now el cand,
       inFlight id (maybeAutoProcessUploadedAttachment now el cand u).2 ∧
       (data_id el = id → (maybeAutoProcessUploadedAttachment now el cand u).1 = Skip)).
Proof.
  split.
  - intros now el cand url u1. unfold maybeAutoProcessUploadedAttachment.
    destruct (noteAttachmentMeta now el false u) as [[id'|] u0] eqn:En; [|done].
    apply noteAttachmentMeta_id in En as (-> & _ & _ & _).
    destruct (byId u0 !! data_id el) as [m|]; [|done].
    destruct (triggered m); [done|].
    destruct (negb _); [done|]. destruct (_ <? _); [done|].
    destruct cand as [url'|]; [|done]. destruct (Js.falsy url') eqn:Ef; [done|].
    intros [= <- <- <-]. split_and!; [done | by apply falsy_false |].
    eexists. cbn [byId set_byId]. by rewrite lookup_insert_eq.
  - intros Hin now el cand.
    pose proof (noteAttachmentMeta_inFlight now el false u id Hin) as Hin0.
    unfold maybeAutoProcessUploadedAttachment.
    destruct (noteAttachmentMeta now el false u) as [[id'|] u0] eqn:En; [|by split].
    cbn [snd] in Hin0. apply noteAttachmentMeta_id in En as (-> & _ & _ & _).
    destruct Hin0 as (m0 & Hm0 & Ht0).
    destruct (byId u0 !! data_id el) as [m|] eqn:Em; [|split; [by exists m0|done]].
    destruct (triggered m) eqn:Et; [split; [by exists m0|done]|].
    assert (data_id el ≠ id) as Hne.
    { intros Heq. rewrite Heq in Em. simplify_eq. congruence. }
    destruct (negb _); [split; [by exists m0|done]|].
    destruct (_ <? _); [split; [by exists m0|done]|].
    destruct cand as [url'|]; [|split; [by exists m0|done]].
    destruct (Js.falsy url'); [split; [by exists m0|done]|].
    cbn [fst snd]. split; [|done]. exists m0. cbn [byId set_byId].
    by rewrite lookup_insert_ne.
Qed.

Lemma triggered_once_witness :
  maybeAutoProcessUploadedAttachment (trackerBootAt + 12000) (uploadingEl "41")
    (Some "https://example.org/a.jpg") uploadingRun = (Process "41" "https://example.org/a.jpg", sentRun) ∧
  inFlight "41" sentRun ∧
  (maybeAutoProcessUploadedAttachment (trackerBootAt + 13000) (uploadingEl "41")
     (Some "https://example.org/a.jpg") sentRun).1 = Skip.
Proof.
  assert (maybeAutoProcessUploadedAttachment (trackerBootAt + 12000) (uploadingEl "41")
            (Some "https://example.org/a.jpg") uploadingRun
          = (Process "41" "https://example.org/a.jpg", sentRun)) as Hp
    by (vm_compute; reflexivity).
  destruct (proj1 (triggered_once "41" uploadingRun) _ _ _ _ _ Hp) as (_ & _ & Hin).
  split; [exact Hp|]. split; [exact Hin|].
  exact (proj2 (proj2 (triggered_once "41" sentRun) Hin (trackerBootAt + 13000)
                  (uploadingEl "41") (Some "https://example.org/a.jpg")) eq_refl).
Defined.

Lemma afterFailures_retries k m :
  retries (afterFailures k m).1 = retries m + Z.of_nat k ∧
  ((0 < k)%nat → triggered (afterFailures k m).1 = false ∧
                 (afterFailures k m).2 = (retries m + Z.of_nat k <=? 3)).
Proof.
  induction k as [|k [IH _]]; [split; [cbn; lia | lia]|].
  cbn [afterFailures]. generalize dependent (afterFailures k m).1. intros m' IH.
  unfold onAnswer. cbn. rewrite IH. split; [lia|]. intros _. split; [done|]. f_equal. lia.
Qed.

(** X16. The answers to the content script.  An answer [skipped] with the
    reason [duplicate] leaves the attachment triggered, so that it is not
    sent again; any other [skipped] answer and any failure allow a new
    message; [skipped] and success set the retry counter to 0.  After [k]
    failures in a row the counter has grown by [k], and the last of them
    schedules a new attempt exactly when the counter is at most 3: starting
    from 0, the first three failures do and every later one does not. *)
Theorem answers_rearm m r k :
  (onAnswer (skippedAs "duplicate") m).1 = set_trigger (triggered m) 0 m ∧
  (r ≠ "duplicate"%string → (onAnswer (skippedAs r) m).1 = set_trigger false 0 m) ∧
  (onAnswer (skippedAs r) m).2 = false ∧
  onAnswer success m = (set_trigger (triggered m) 0 m, false) ∧
  retries (afterFailures k m).1 = retries m + Z.of_nat k ∧
  ((0 < k)%nat →
     triggered (afterFailures k m).1 = false ∧
     (afterFailures k m).2 = (retries m + Z.of_nat k <=? 3)) ∧
  (retries m = 0 → (0 < k)%nat → (afterFailures k m).2 = bool_decide (k ≤ 3)%nat).
Proof.
  pose proof (afterFailures_retries k m) as [H1 H2].
  split_and!; try done.
  - intros Hr. unfold onAnswer. cbn. by rewrite (proj2 (String.eqb_neq _ _) Hr).
  - intros H0 Hk. destruct (H2 Hk) as [_ ->]. rewrite H0.
    case_bool_decide; [apply Z.leb_le | apply Z.leb_gt]; lia.
Qed.

Lemma answers_rearm_witness :
  "cancelled" ≠ "duplicate"%string ∧ retries freshMeta = 0 ∧
  (onAnswer (skippedAs "cancelled") freshMeta).1 = set_trigger false 0 freshMeta ∧
  (afterFailures 3 freshMeta).2 = true ∧ (afterFailures 4 freshMeta).2 = false.
Proof.
  assert ("cancelled" ≠ "duplicate"%string) as Hr by discriminate.
  assert (retries freshMeta = 0) as H0 by reflexivity.
  split; [exact Hr|]. split; [exact H0|].
  split; [exact (proj1 (proj2 (answers_rearm freshMeta "cancelled" 0)) Hr)|].
  split.
  - exact (proj2 (proj2 (proj2 (proj2 (proj2 (proj2 (answers_rearm freshMeta "x" 3))))))
             H0 ltac:(lia)).
  - exact (proj2 (proj2 (proj2 (proj2 (proj2 (proj2 (answers_rearm freshMeta "x" 4))))))
             H0 ltac:(lia)).
Defined.

End TriggerFacts.

(** * The configuration and its cache *)

Module ConfigFacts.
Import Text DebugLog Config.

Lemma getWithDefaults_lookup defaults stored k :
  getWithDefaults defaults stored !! k =
  match defaults !! k with
  | Some d => Some (default d (stored !! k))
  | None => None
  end.
Proof. unfold getWithDefaults. rewrite map_lookup_imap. by destruct (defaults !! k). Qed.

Lemma local_keys k :
  is_Some (DEFAULT_LOCAL_CFG !! k) ↔ k = "apiKey"%string ∨ k = "metrics"%string.
Proof.
  unfold DEFAULT_LOCAL_CFG. cbn [list_to_map foldr uncurry fst snd].
  destruct (decide (k = "apiKey"%string)) as [->|H1].
  { rewrite lookup_insert_eq. split; [by left | by eexists]. }
  rewrite lookup_insert_ne by done.
  destruct (decide (k = "metrics"%string)) as [->|H2].
  { rewrite lookup_insert_eq. split; [by right | by eexists]. }
  rewrite lookup_insert_ne, lookup_empty by done. split; [by intros [? ?] | by intros [?|?]].
Qed.

Lemma sync_not_local k :
  is_Some (DEFAULT_SYNC_CFG !! k) → k ≠ "apiKey"%string ∧ k ≠ "metrics"%string.
Proof.
  intros H. split; intros ->; revert H; by vm_compute; intros [? ?].
Qed.


Lemma falsy_orEmpty o : falsyV (orEmpty o) = true ↔ orEmpty o = JStr [].
Proof.
  unfold orEmpty. destruct o as [v|]; [|done].
  destruct (falsyV v) eqn:E; [done|]. rewrite E. split; [done|]. intros ->. done.
Qed.

Lemma readConfig_lookup syncStored localStored k :
  k ≠ "apiKey"%string →
  readConfigFromStorage syncStored localStored !! k =
  match DEFAULT_LOCAL_CFG !! k with
  | Some d => Some (default d (localStored !! k))
  | None => (syncStored ∪ DEFAULT_SYNC_CFG) !! k
  end.
Proof.
  intros Hk. unfold readConfigFromStorage. rewrite lookup_insert_ne by done.
  rewrite lookup_union, getWithDefaults_lookup.
  generalize ((syncStored ∪ DEFAULT_SYNC_CFG) !! k). intros o.
  destruct (DEFAULT_LOCAL_CFG !! k), o; reflexivity.
Qed.

(** X17. [readConfigFromStorage] returns a configuration with every
    setting of the defaults; a value stored in the sync area under a name
    other than [apiKey] and [metrics] is returned as stored, also for a name
    that the defaults do not have; [metrics] is the one of the local area.
    The API key is the key of the area that [syncApiKey] selects whenever
    that key is not empty, else the key of the other area: the
    configuration has no API key only if neither area stores one. *)
Theorem config_merged syncStored localStored :
  let cfg := readConfigFromStorage syncStored localStored in
  let keySync := orEmpty (syncStored !! "apiKey"%string) in
  let keyLocal := orEmpty (localStored !! "apiKey"%string) in
  (∀ k, is_Some (DEFAULT_SYNC_CFG !! k) ∨ is_Some (DEFAULT_LOCAL_CFG !! k) →
        is_Some (cfg !! k)) ∧
  (∀ k v, k ≠ "apiKey"%string → k ≠ "metrics"%string → syncStored !! k = Some v →
          cfg !! k = Some v) ∧
  cfg !! "metrics"%string = Some (default (JObj []) (localStored !! "metrics"%string)) ∧
  cfg !! "apiKey"%string = Some (effectiveApiKey syncStored localStored) ∧
  (falsyV (effectiveApiKey syncStored localStored) = true ↔
     keySync = JStr [] ∧ keyLocal = JStr []) ∧
  (truthyAt (syncStored ∪ DEFAULT_SYNC_CFG) "syncApiKey" = true → keySync ≠ JStr [] →
     effectiveApiKey syncStored localStored = keySync) ∧
  (truthyAt (syncStored ∪ DEFAULT_SYNC_CFG) "syncApiKey" = false → keyLocal ≠ JStr [] →
     effectiveApiKey syncStored localStored = keyLocal).
Proof.
  cbv zeta.
  assert (orEmpty (getWithDefaults DEFAULT_LOCAL_CFG localStored !! "apiKey"%string) =
          orEmpty (localStored !! "apiKey"%string)) as Hloc.
  { rewrite getWithDefaults_lookup.
    change (DEFAULT_LOCAL_CFG !! "apiKey"%string) with (Some (JStr [])).
    by destruct (localStored !! "apiKey"%string). }
  split_and!.
  - intros k Hk. destruct (decide (k = "apiKey"%string)) as [->|Hne].
    { unfold readConfigFromStorage. rewrite lookup_insert_eq. by eexists. }
    rewrite readConfig_lookup by done.
    destruct (DEFAULT_LOCAL_CFG !! k) as [d|] eqn:El; [by eexists|].
    destruct Hk as [[d Hd]|[? ?]]; [|done].
    rewrite lookup_union. rewrite Hd. destruct (syncStored !! k); by eexists.
  - intros k v H1 H2 Hs. rewrite readConfig_lookup by done.
    destruct (DEFAULT_LOCAL_CFG !! k) as [d|] eqn:El.
    { destruct (proj1 (local_keys k)) as [E|E];
        [exists d; exact El | contradiction | contradiction]. }
    by rewrite (lookup_union_Some_l _ _ _ _ Hs).
  - rewrite readConfig_lookup by done. reflexivity.
  - unfold readConfigFromStorage. by rewrite lookup_insert_eq.
  - unfold effectiveApiKey. rewrite Hloc. clear Hloc.
    pose proof (falsy_orEmpty (syncStored !! "apiKey"%string)) as Hs.
    pose proof (falsy_orEmpty (localStored !! "apiKey"%string)) as Hl.
    revert Hs Hl.
    generalize (orEmpty (syncStored !! "apiKey"%string))
      (orEmpty (localStored !! "apiKey"%string))
      (truthyAt (syncStored ∪ DEFAULT_SYNC_CFG) "syncApiKey").
    intros A B T Hs Hl. cbv zeta.
    destruct T; destruct (falsyV A) eqn:E1; destruct (falsyV B) eqn:E2;
      rewrite ?E1, ?E2;
      (split; [intros H; first [discriminate H | split; [by apply Hs | by apply Hl]]
              | intros [Ha Hb]; apply Hs in Ha; apply Hl in Hb; congruence]).
  - intros Hsel Hne. unfold effectiveApiKey. rewrite Hsel.
    pose proof (falsy_orEmpty (syncStored !! "apiKey"%string)) as Hs.
    destruct (falsyV (orEmpty (syncStored !! "apiKey"%string))) eqn:E1; [|done].
    by destruct Hne; apply Hs.
  - intros Hsel Hne. unfold effectiveApiKey. rewrite Hsel, Hloc.
    pose proof (falsy_orEmpty (localStored !! "apiKey"%string)) as Hl.
    destruct (falsyV (orEmpty (localStored !! "apiKey"%string))) eqn:E1; [|done].
    by destruct Hne; apply Hl.
Qed.


Lemma config_merged_witness :
  readConfigFromStorage syncOnly ∅ !! "apiKey"%string = Some (JStr (lit "sk-1")) ∧
  truthyAt (syncOnly ∪ DEFAULT_SYNC_CFG) "syncApiKey" = false ∧
  readConfigFromStorage syncOnly ∅ !! "language"%string = Some (JStr (lit "en-GB")).
Proof.
  destruct (config_merged syncOnly ∅) as (_ & Hs & _ & Hk & _).
  split; [rewrite Hk; vm_compute; reflexivity|].
  split; [vm_compute; reflexivity|].
  apply Hs; [discriminate | discriminate | vm_compute; reflexivity].
Defined.

Lemma effectiveApiKey_ext s1 s2 l :
  s1 !! "apiKey"%string = s2 !! "apiKey"%string →
  s1 !! "syncApiKey"%string = s2 !! "syncApiKey"%string →
  effectiveApiKey s1 l = effectiveApiKey s2 l.
Proof.
  intros H1 H2. unfold effectiveApiKey, truthyAt. rewrite !lookup_union, H1, H2. done.
Qed.

Lemma readConfig_ext s1 s2 l (c : gmap string JVal) :
  s1 !! "apiKey"%string = s2 !! "apiKey"%string →
  s1 !! "syncApiKey"%string = s2 !! "syncApiKey"%string →
  (∀ j, j ≠ "apiKey"%string →
        c !! j = match DEFAULT_LOCAL_CFG !! j with
                 | Some d => Some (default d (l !! j))
                 | None => (s2 ∪ DEFAULT_SYNC_CFG) !! j
                 end) →
  c !! "apiKey"%string = Some (effectiveApiKey s1 l) →
  c = readConfigFromStorage s2 l.
Proof.
  intros H1 H2 Hc Hk. apply map_eq. intros j.
  destruct (decide (j = "apiKey"%string)) as [->|Hne].
  - unfold readConfigFromStorage. rewrite lookup_insert_eq, Hk.
    f_equal. by apply effectiveApiKey_ext.
  - rewrite readConfig_lookup by done. by apply Hc.
Qed.

Section Coherent.

Variable toString : JVal → jstr.

Lemma applyChange_setting syncStored localStored k ch :
  settingChange (k, ch) →
  applyChange toString "sync" (readConfigFromStorage syncStored localStored) k ch =
  Some (readConfigFromStorage (store [(k, ch)] syncStored) localStored).
Proof.
  intros (Hd & Hs & Hn). cbn [fst snd] in *.
  destruct (sync_not_local k Hd) as [Ha Hm].
  assert (DEFAULT_LOCAL_CFG !! k = None) as Hl.
  { destruct (DEFAULT_LOCAL_CFG !! k) as [d0|] eqn:E; [|reflexivity].
    destruct (proj1 (local_keys k)) as [E'|E'];
      [exists d0; exact E | contradiction | contradiction]. }
  unfold applyChange.
  rewrite (proj2 (String.eqb_neq _ _) Hs), (proj2 (String.eqb_neq _ _) Ha).
  assert (allowedKey k = true) as ->.
  { unfold allowedKey. by rewrite bool_decide_eq_true_2. }
  cbn [negb]. rewrite Hn. destruct Hd as [d Hd]. rewrite Hd.
  unfold store. cbn [foldl fst snd].
  assert (∀ (s' : gmap string JVal) v,
            s' !! "apiKey"%string = syncStored !! "apiKey"%string →
            s' !! "syncApiKey"%string = syncStored !! "syncApiKey"%string →
            (∀ j, j ≠ k → s' !! j = syncStored !! j) →
            (s' ∪ DEFAULT_SYNC_CFG) !! k = Some v →
            <[k := v]> (readConfigFromStorage syncStored localStored) =
            readConfigFromStorage s' localStored) as Hgen.
  { intros s' v H1 H2 H3 H4. apply (readConfig_ext syncStored); [done | done | |].
    - intros j Hj. destruct (decide (j = k)) as [->|Hjk].
      + by rewrite lookup_insert_eq, Hl, H4.
      + rewrite lookup_insert_ne by done. rewrite readConfig_lookup by done.
        destruct (DEFAULT_LOCAL_CFG !! j); [done|].
        by rewrite !lookup_union, H3.
    - rewrite lookup_insert_ne by done.
      unfold readConfigFromStorage. by rewrite lookup_insert_eq. }
  destruct (newValue ch) eqn:En; f_equal; apply Hgen;
    rewrite ?lookup_delete_ne, ?lookup_insert_ne by congruence; try reflexivity.
  all: try (intros j Hj; rewrite ?lookup_delete_ne, ?lookup_insert_ne by congruence;
            reflexivity).
  - by rewrite lookup_union, lookup_delete_eq, Hd.
  - by rewrite (lookup_union_Some_l _ _ _ _ (lookup_insert_eq _ _ _)).
  - by rewrite (lookup_union_Some_l _ _ _ _ (lookup_insert_eq _ _ _)).
  - by rewrite (lookup_union_Some_l _ _ _ _ (lookup_insert_eq _ _ _)).
  - by rewrite (lookup_union_Some_l _ _ _ _ (lookup_insert_eq _ _ _)).
  - by rewrite (lookup_union_Some_l _ _ _ _ (lookup_insert_eq _ _ _)).
  - by rewrite (lookup_union_Some_l _ _ _ _ (lookup_insert_eq _ _ _)).
Qed.

Lemma store_cons kc changes stored : store (kc :: changes) stored = store changes (store [kc] stored).
Proof. reflexivity. Qed.

Lemma applyChanges_settings changes syncStored localStored :
  Forall settingChange changes →
  applyChanges toString "sync" (readConfigFromStorage syncStored localStored) changes =
  Some (readConfigFromStorage (store changes syncStored) localStored).
Proof.
  intros H. revert syncStored. induction H as [|[k ch] l Hk _ IH]; intros syncStored; [done|].
  cbn [applyChanges]. rewrite applyChange_setting by done. rewrite IH. by rewrite store_cons.
Qed.

Lemma applyChanges_dropped area cache changes ch :
  ("syncApiKey"%string, ch) ∈ changes → applyChanges toString area cache changes = None.
Proof.
  intros Hin. revert cache. induction changes as [|[k c] l IH]; intros cache.
  - by apply elem_of_nil in Hin.
  - cbn [applyChanges]. apply elem_of_cons in Hin as [[= <- <-]|Hin]; [done|].
    destruct (applyChange toString area cache k c); [by apply IH | done].
Qed.

(** X18. The [chrome.storage.onChanged] listener keeps the cached
    configuration equal to what [readConfigFromStorage] would read again,
    for an event of the sync area whose changes are settings of the
    defaults other than [syncApiKey], each with a [newValue] member (a
    value, or [undefined] for a removed setting, which goes back to its
    default).  An event of another area than [sync] and [local] and an
    event before the cache is populated change nothing; an event with a
    change of [syncApiKey] drops the cache; a change without a [newValue]
    member, of a name other than [apiKey] and [syncApiKey], and a change of
    a name that the defaults do not have leave the cache as it is. *)
Theorem cache_coherent syncStored localStored changes :
  (Forall settingChange changes →
   onChanged toString "sync" changes (Some (readConfigFromStorage syncStored localStored)) =
   Some (readConfigFromStorage (store changes syncStored) localStored)) ∧
  (∀ area cache, area ≠ "sync"%string → area ≠ "local"%string →
     onChanged toString area changes cache = cache) ∧
  (∀ area, onChanged toString area changes None = None) ∧
  (∀ area cache ch, area = "sync"%string ∨ area = "local"%string →
     ("syncApiKey"%string, ch) ∈ changes →
     onChanged toString area changes cache = None) ∧
  (∀ area cache k ch, k ≠ "apiKey"%string → k ≠ "syncApiKey"%string →
     hasNewValue ch = false ∨ allowedKey k = false →
     applyChange toString area cache k ch = Some cache).
Proof.
  split_and!.
  - intros H. unfold onChanged. cbn. by apply applyChanges_settings.
  - intros area cache H1 H2. unfold onChanged.
    by rewrite (proj2 (String.eqb_neq _ _) H1), (proj2 (String.eqb_neq _ _) H2).
  - intros area. unfold onChanged. by destruct (negb _).
  - intros area cache ch Ha Hin. unfold onChanged.
    assert (negb (String.eqb area "sync" || String.eqb area "local") = false) as ->.
    { by destruct Ha as [-> | ->]. }
    destruct cache; [by eapply applyChanges_dropped | done].
  - intros area cache k ch H1 H2 H. unfold applyChange.
    rewrite (proj2 (String.eqb_neq _ _) H1), (proj2 (String.eqb_neq _ _) H2).
    destruct (allowedKey k); [|done]. destruct H as [->|?]; done.
Qed.

End Coherent.

Lemma cache_coherent_witness :
  Forall settingChange languageChanges ∧
  onChanged (λ _, []) "sync" languageChanges (Some (readConfigFromStorage syncOnly ∅)) =
    Some (readConfigFromStorage (store languageChanges syncOnly) ∅) ∧
  readConfigFromStorage (store languageChanges syncOnly) ∅ !! "language"%string =
    Some (JStr (lit "es-ES")) ∧
  readConfigFromStorage (store languageChanges syncOnly) ∅ !! "altMaxLength"%string =
    Some (JNum 90).
Proof.
  assert (Forall settingChange languageChanges) as H.
  { unfold languageChanges. repeat (apply Forall_cons; split); [| |apply Forall_nil_2].
    - split_and!; [vm_compute; by eexists | discriminate | reflexivity].
    - split_and!; [vm_compute; by eexists | discriminate | reflexivity]. }
  split; [exact H|].
  split; [exact (proj1 (cache_coherent (λ _, []) syncOnly ∅ languageChanges) H)|].
  split; vm_compute; reflexivity.
Defined.

End ConfigFacts.
